(** * SimpleParser: the tokenizer, the precedence resolver and the evaluator

    A shallow embedding of [simpleparser/parser.py] and the properties of it
    that its specification states.

    Modelling conventions.
    - A Python [str] is a list of Unicode code points ([char] is [N]); the
      default operator table has signs outside ASCII.
    - A Python [int] is a [Z]; list subscripts follow Python (a negative
      subscript counts from the end, anything else out of range raises
      [IndexError]).
    - A raising computation returns [Raise e]; [x <- c ;; k] sequences two
      computations and propagates the first exception.
    - A [dict] is an association list in insertion order with unique keys:
      the tokenizer iterates over the sign table in that order.
    - Objects without [__eq__] (tokens) compare by identity; the identity of
      a token is the subscript at which the tokenizer stored it.
    - The third-party [regex] module is modelled by a backtracking matcher
      over the syntax tree of a pattern. *)

From Stdlib Require Import String Ascii.
From Stdlib Require Import List ZArith NArith Bool Lia.
From Stdlib Require Import Permutation Sorted.
Import ListNotations.
Local Open Scope Z_scope.

(** ** Strings *)

Abbreviation char := N (only parsing).
Abbreviation str := (list N) (only parsing).

(** An ASCII literal as a Python string. *)
Definition lit (s : string) : str := map N_of_ascii (list_ascii_of_string s).

Fixpoint str_eqb (a b : str) : bool :=
  match a, b with
  | [], [] => true
  | x :: a', y :: b' => N.eqb x y && str_eqb a' b'
  | _, _ => false
  end.

(** [c.isspace()] for one character: CPython's table of Unicode white space. *)
Definition char_isspace (c : char) : bool :=
  ((9 <=? c) && (c <=? 13) || (28 <=? c) && (c <=? 32) || (c =? 133)
   || (c =? 160) || (c =? 5760) || (8192 <=? c) && (c <=? 8202)
   || (c =? 8232) || (c =? 8233) || (c =? 8239) || (c =? 8287)
   || (c =? 12288))%N.

(** [t.isspace()]: at least one character and all of them white space. *)
Definition isspace (t : str) : bool :=
  match t with
  | [] => false
  | _ => forallb char_isspace t
  end.

(** The truth value of a string: [bool(t)]. *)
Definition nonempty (t : str) : bool :=
  match t with [] => false | _ => true end.

(** [t[-n:]] and [t[:-n]] for [n >= 0]; Python clamps a slice to the string,
    and [-0] is [0]. *)
Definition slice_last (n : nat) (t : str) : str :=
  match n with
  | O => t
  | _ => skipn (length t - n) t
  end.

Definition slice_but_last (n : nat) (t : str) : str :=
  match n with
  | O => []
  | _ => firstn (length t - n) t
  end.

(** ** Exceptions and raising computations *)

Inductive exn : Type :=
| ParseError (msg : string)
| ValueError
| IndexError
| KeyError (key : str)
| AttributeError
| TypeError
| ZeroDivisionError
| LoopBound.
(** [LoopBound] is not a Python exception: it marks a [while] loop of the
    model that used up its bound; [update_last_calc_bound] shows that it is
    never produced. *)

Inductive result (A : Type) : Type :=
| Ok (a : A)
| Raise (e : exn).
Arguments Ok {A} a.
Arguments Raise {A} e.

Definition bind {A B : Type} (c : result A) (k : A -> result B) : result B :=
  match c with
  | Ok a => k a
  | Raise e => Raise e
  end.

Notation "x <- c ;; k" := (bind c (fun x => k))
  (at level 61, c at next level, right associativity).

(** ** Python lists *)

(** The position a subscript [i] denotes in a list of [len] elements. *)
Definition norm_index (len : nat) (i : Z) : option nat :=
  if (0 <=? i) && (i <? Z.of_nat len) then Some (Z.to_nat i)
  else if (- Z.of_nat len <=? i) && (i <? 0) then Some (Z.to_nat (Z.of_nat len + i))
  else None.

Fixpoint list_set {A : Type} (l : list A) (n : nat) (x : A) : list A :=
  match l, n with
  | [], _ => []
  | _ :: l', O => x :: l'
  | y :: l', S n' => y :: list_set l' n' x
  end.

(** [l[i]] *)
Definition getitem {A : Type} (l : list A) (i : Z) : result A :=
  match norm_index (length l) i with
  | Some n =>
      match nth_error l n with
      | Some x => Ok x
      | None => Raise IndexError
      end
  | None => Raise IndexError
  end.

(** [l[i] = x] *)
Definition setitem {A : Type} (l : list A) (i : Z) (x : A) : result (list A) :=
  match norm_index (length l) i with
  | Some n => Ok (list_set l n x)
  | None => Raise IndexError
  end.

(** ** Dictionaries keyed by strings *)

Section Dict.
Context {A : Type}.

Definition dict := list (str * A).

Fixpoint dict_get (d : dict) (k : str) : option A :=
  match d with
  | [] => None
  | (k', v) :: d' => if str_eqb k' k then Some v else dict_get d' k
  end.

(** [k in d] *)
Definition dict_mem (d : dict) (k : str) : bool :=
  match dict_get d k with Some _ => true | None => false end.

(** [d[k] = v]: a key that is present keeps its place. *)
Fixpoint dict_set (d : dict) (k : str) (v : A) : dict :=
  match d with
  | [] => [(k, v)]
  | (k', v') :: d' =>
      if str_eqb k' k then (k', v) :: d' else (k', v') :: dict_set d' k v
  end.

(** [{k: v for (k, v) in items}] *)
Definition dict_of (items : list (str * A)) : dict :=
  fold_left (fun d kv => dict_set d (fst kv) (snd kv)) items [].

(** [d |= other] *)
Definition dict_update (d other : dict) : dict :=
  fold_left (fun d kv => dict_set d (fst kv) (snd kv)) other d.

(** The keys, in iteration order. *)
Definition dict_keys (d : dict) : list str := map fst d.
End Dict.
Arguments dict : clear implicits.

(** ** Regular expressions

    [regex.match(pattern, text)] succeeds when the pattern matches some
    prefix of the text.  A pattern is given by its syntax tree. *)

Inductive regex : Type :=
| Lit (s : str)                 (* the characters of s *)
| Rng (lo hi : char)            (* [lo-hi] *)
| Cat (r1 r2 : regex)           (* r1 r2 *)
| Alt (r1 r2 : regex)           (* r1|r2 *)
| Opt (r : regex)               (* r? *)
| Rep (r : regex) (min : nat)   (* r{min,} *)
| Eol.                          (* $ *)

Fixpoint strip_prefix (p t : str) : option str :=
  match p, t with
  | [], _ => Some t
  | x :: p', y :: t' => if N.eqb x y then strip_prefix p' t' else None
  | _ :: _, [] => None
  end.

(** [$] holds at the end of the text and before a newline that ends it. *)
Definition at_eol (t : str) : bool :=
  match t with
  | [] => true
  | [c] => N.eqb c 10
  | _ => false
  end.

(** The iterations of [r{min,}], where [m] matches [r]: [min] more are due,
    and [fuel] bounds their number.  An iteration beyond [min] that consumes
    nothing is cut off, as it cannot add matches. *)
Fixpoint rep_iter (m : str -> (str -> bool) -> bool) (k : str -> bool)
    (fuel min : nat) (t : str) {struct fuel} : bool :=
  match fuel with
  | O => false
  | S fuel' =>
      match min with
      | S min' => m t (fun t' => rep_iter m k fuel' min' t')
      | O =>
          m t (fun t' => (length t' <? length t)%nat && rep_iter m k fuel' O t')
          || k t
      end
  end.

(** [rmatch r t k]: some way of matching [r] at the start of [t] leaves a
    rest that [k] accepts. *)
Fixpoint rmatch (r : regex) (t : str) (k : str -> bool) {struct r} : bool :=
  match r with
  | Lit s => match strip_prefix s t with Some t' => k t' | None => false end
  | Rng lo hi =>
      match t with
      | c :: t' => if ((lo <=? c) && (c <=? hi))%N then k t' else false
      | [] => false
      end
  | Cat r1 r2 => rmatch r1 t (fun t' => rmatch r2 t' k)
  | Alt r1 r2 => rmatch r1 t k || rmatch r2 t k
  | Opt r1 => rmatch r1 t k || k t
  | Rep r1 min => rep_iter (rmatch r1) k (S (length t + min)) min t
  | Eol => at_eol t && k t
  end.

(** [t'] is what is left of [t] after some of its first characters. *)
Definition suffix (t' t : str) : Prop := exists pre, t = pre ++ t'.

(** [regex.match(r, t)] as a truth value. *)
Definition regex_match (r : regex) (t : str) : bool := rmatch r t (fun _ => true).

(** [regex.fullmatch(r, t)]: the pattern matches the whole text. *)
Definition regex_fullmatch (r : regex) (t : str) : bool :=
  rmatch r t (fun t' => negb (nonempty t')).

(** ** Operators, constant types and tokens *)

(** [math.inf] and its negation beside the integers: the priority of an
    operator is an integer or [inf]. *)
Inductive number : Type :=
| Int (z : Z)
| Inf
| NegInf.

Definition number_neg (a : number) : number :=
  match a with
  | Int z => Int (- z)
  | Inf => NegInf
  | NegInf => Inf
  end.

Definition number_ltb (a b : number) : bool :=
  match a, b with
  | Int x, Int y => x <? y
  | NegInf, (Int _ | Inf) => true
  | Int _, Inf => true
  | _, _ => false
  end.

Definition number_eqb (a b : number) : bool :=
  match a, b with
  | Int x, Int y => x =? y
  | Inf, Inf => true
  | NegInf, NegInf => true
  | _, _ => false
  end.

(** [Operator.type]: [__init__] rejects every value but 1 and 2. *)
Inductive operator_type : Type :=
| Unary    (* 1 *)
| Binary.  (* 2 *)

(** [BraceToken.which] *)
Inductive brace : Type :=
| OPEN     (* 1 *)
| CLOSE.   (* -1 *)

Section Core.
(** The values that expressions compute with. *)
Context {V : Type}.

Record Operator : Type := {
  func : list V -> result V;         (* called as func( *args ) *)
  type : operator_type;
  name : str;
  signs : list str;
  priority : number
}.

(** [Operator.__init__] *)
Definition Operator_init (name : str) (operator_type : Z)
    (func : list V -> result V) (signs : list str) (priority : Z)
    : result Operator :=
  ty <- (if operator_type =? 1 then Ok Unary
         else if operator_type =? 2 then Ok Binary
         else Raise ValueError) ;;
  if priority <? -1 then Raise ValueError
  else
    let priority := if priority =? -1 then Inf else Int priority in
    Ok {| func := func; type := ty; name := name; signs := signs;
          priority := priority |}.

Record ConstantType : Type := {
  regexp : regex;
  to_value : str -> result V
}.

Inductive Token : Type :=
| VariableToken (name : str)
| BraceToken (which : brace)
| OperatorToken (operator : Operator)
| ConstantToken (value : V).

(** An element of [tokens_without_braces] and an argument of an operation:
    an [int], or a token object ([id] is its identity). *)
Inductive slot : Type :=
| Calc (n : Z)
| Ref (id : nat) (t : Token).

(** [a == b] on slots: integers by value, token objects by identity. *)
Definition slot_eqb (a b : slot) : bool :=
  match a, b with
  | Calc n, Calc m => n =? m
  | Ref i _, Ref j _ => Nat.eqb i j
  | _, _ => false
  end.

(** ** The parsed expression and its evaluation *)

Record ParsedExpression : Type := {
  operations : list (Operator * list slot);
  precalculated : list V
}.

(** [ParsedExpression.__init__] *)
Definition ParsedExpression_init (operations : list (Operator * list slot))
    (precalculated : option (list V)) : ParsedExpression :=
  {| operations := operations;
     precalculated := match precalculated with Some l => l | None => [] end |}.

(** [deepcopy]: the values of the model are immutable, a copy is equal to
    its original. *)
Definition deepcopy (l : list V) : list V := l.

(** One argument of the call of an operator:
    [calc_stack[param] if isinstance(param, int) else kwargs[param.name]] *)
Definition argument (calc_stack : list V) (kwargs : dict V) (param : slot)
    : result V :=
  match param with
  | Calc n => getitem calc_stack n
  | Ref _ (VariableToken name) =>
      match dict_get kwargs name with
      | Some v => Ok v
      | None => Raise (KeyError name)
      end
  | Ref _ _ => Raise AttributeError
  end.

(** The generator of the arguments, consumed from left to right. *)
Fixpoint arguments (calc_stack : list V) (kwargs : dict V)
    (params : list slot) : result (list V) :=
  match params with
  | [] => Ok []
  | param :: params' =>
      v <- argument calc_stack kwargs param ;;
      vs <- arguments calc_stack kwargs params' ;;
      Ok (v :: vs)
  end.

(** The loop of [__call__] over [self.operations]. *)
Fixpoint call_loop (ops : list (Operator * list slot)) (kwargs : dict V)
    (calc_stack : list V) : result (list V) :=
  match ops with
  | [] => Ok calc_stack
  | operation :: ops' =>
      args <- arguments calc_stack kwargs (snd operation) ;;
      v <- func (fst operation) args ;;
      call_loop ops' kwargs (calc_stack ++ [v])
  end.

(** What [ParsedExpression.__call__] returns, from the contents of the two
    lists of the object. *)
Definition call (self : ParsedExpression) (kwargs : dict V) : result V :=
  let calc_stack := deepcopy (precalculated self) in
  calc_stack <- call_loop (operations self) kwargs calc_stack ;;
  getitem calc_stack (-1).

(** ** The lists of an expression as objects

    [self.operations], [self.precalculated] and [calc_stack] are list
    objects: a store holds their contents, a reference is a place in the
    store, [append] writes to the store.  This is [__call__] as it runs,
    for the statement that it leaves the object as it was. *)

Inductive cell : Type :=
| Values (l : list V)
| Operations (l : list (Operator * list slot)).

Definition store : Type := list cell.

(** A [ParsedExpression] object: the references in its two attributes. *)
Record instance : Type := {
  operations_ref : nat;
  precalculated_ref : nat
}.

Definition load_values (h : store) (r : nat) : result (list V) :=
  match nth_error h r with
  | Some (Values l) => Ok l
  | _ => Raise TypeError
  end.

Definition load_operations (h : store) (r : nat)
    : result (list (Operator * list slot)) :=
  match nth_error h r with
  | Some (Operations l) => Ok l
  | _ => Raise TypeError
  end.

(** A new list object with the contents [l]. *)
Definition allocate (h : store) (c : cell) : store * nat :=
  (h ++ [c], length h).

(** [ParsedExpression(operations, precalculated)], where the two lists are
    new objects, as in [parse]. *)
Definition new_expression (h : store) (e : ParsedExpression)
    : store * instance :=
  let '(h, operations) := allocate h (Operations (operations e)) in
  let '(h, precalculated) := allocate h (Values (precalculated e)) in
  (h, {| operations_ref := operations; precalculated_ref := precalculated |}).

(** [calc_stack.append(v)] *)
Definition append_value (h : store) (calc_stack : nat) (v : V) : result store :=
  l <- load_values h calc_stack ;;
  Ok (list_set h calc_stack (Values (l ++ [v]))).

(** The loop of [__call__] in the store; a round that raises leaves the
    store as the rounds before it made it. *)
Fixpoint call_loop_in (ops : list (Operator * list slot)) (kwargs : dict V)
    (h : store) (calc_stack : nat) : store * result unit :=
  match ops with
  | [] => (h, Ok tt)
  | operation :: ops' =>
      match (l <- load_values h calc_stack ;;
             args <- arguments l kwargs (snd operation) ;;
             v <- func (fst operation) args ;;
             append_value h calc_stack v) with
      | Ok h => call_loop_in ops' kwargs h calc_stack
      | Raise e => (h, Raise e)
      end
  end.

(** [ParsedExpression.__call__] in the store. *)
Definition call_in (h : store) (self : instance) (kwargs : dict V)
    : store * result V :=
  match load_values h (precalculated_ref self) with
  | Raise e => (h, Raise e)
  | Ok precalculated =>
      let '(h, calc_stack) := allocate h (Values (deepcopy precalculated)) in
      match load_operations h (operations_ref self) with
      | Raise e => (h, Raise e)
      | Ok ops =>
          let '(h, r) := call_loop_in ops kwargs h calc_stack in
          (h, _ <- r ;; l <- load_values h calc_stack ;; getitem l (-1))
      end
  end.

(** [self( **kwargs )] for each [kwargs] of [ks] in turn: the store after
    the calls and what they returned. *)
Fixpoint call_many_in (h : store) (self : instance) (ks : list (dict V))
    : store * list (result V) :=
  match ks with
  | [] => (h, [])
  | kwargs :: ks' =>
      let '(h, r) := call_in h self kwargs in
      let '(h, rs) := call_many_in h self ks' in
      (h, r :: rs)
  end.

(** ** The parser: construction and lexical analysis *)

Record Parser : Type := {
  operators : list Operator;
  constants : list ConstantType;
  operators_signs : dict Operator;
  operators_names : dict Operator
}.

(** [Parser.__init__] *)
Definition Parser_init (operators : list Operator)
    (constants : list ConstantType) : Parser :=
  {| operators := operators;
     constants := constants;
     operators_signs :=
       fold_left
         (fun d operator =>
            dict_update d
              (dict_of (map (fun sign => (sign, operator)) (signs operator))))
         operators [];
     operators_names :=
       dict_of (map (fun operator => (name operator, operator)) operators) |}.

(** The loop of [to_token] over [self.constants]. *)
Fixpoint classify (cs : list ConstantType) (token : str) : result Token :=
  match cs with
  | [] => Ok (VariableToken token)
  | const_type :: cs' =>
      if regex_match (regexp const_type) token then
        v <- to_value const_type token ;;
        Ok (ConstantToken v)
      else classify cs' token
  end.

(** [Parser.to_token]; the result is [None] on the empty text, where the
    Python function ends without a [return]. *)
Definition to_token (self : Parser) (token : str) : result (option Token) :=
  if str_eqb token (lit "(") then Ok (Some (BraceToken OPEN))
  else if str_eqb token (lit ")") then Ok (Some (BraceToken CLOSE))
  else
    match dict_get (operators_names self) token with
    | Some op => Ok (Some (OperatorToken op))
    | None =>
        match dict_get (operators_signs self) token with
        | Some op => Ok (Some (OperatorToken op))
        | None =>
            if nonempty token then
              tok <- classify (constants self) token ;;
              Ok (Some tok)
            else Ok None
        end
    end.

(** [append_token] of [split]; [to_token] gives a token for every text
    that passes the guard ([to_token_nonempty]). *)
Definition append_token (self : Parser) (ret : list Token) (t : str)
    : result (list Token) :=
  if negb (isspace t) && nonempty t then
    tok <- to_token self t ;;
    match tok with
    | Some tok => Ok (ret ++ [tok])
    | None => Ok ret
    end
  else Ok ret.

(** The inner loop of [split]: the first sign, in the order of the table,
    that ends [current_token]. *)
Fixpoint find_sign (keys : list str) (current_token : str) : option str :=
  match keys with
  | [] => None
  | sign :: keys' =>
      if str_eqb (slice_last (length sign) current_token) sign then Some sign
      else find_sign keys' current_token
  end.

(** One round of the loop of [split], on the character [c]. *)
Definition split_step (self : Parser) (st : list Token * str) (c : char)
    : result (list Token * str) :=
  let '(ret, current_token) := st in
  if char_isspace c || N.eqb c 40 || N.eqb c 41 then
    ret <- append_token self ret current_token ;;
    ret <- append_token self ret [c] ;;
    Ok (ret, [])
  else if dict_mem (operators_signs self) current_token then
    if dict_mem (operators_signs self) (current_token ++ [c]) then
      Ok (ret, current_token ++ [c])
    else
      ret <- append_token self ret current_token ;;
      Ok (ret, [c])
  else
    let current_token := current_token ++ [c] in
    match find_sign (dict_keys (operators_signs self)) current_token with
    | Some sign =>
        ret <- append_token self ret
                 (slice_but_last (length sign) current_token) ;;
        Ok (ret, sign)
    | None => Ok (ret, current_token)
    end.

Fixpoint split_loop (self : Parser) (st : list Token * str) (s : str)
    : result (list Token * str) :=
  match s with
  | [] => Ok st
  | c :: s' =>
      st <- split_step self st c ;;
      split_loop self st s'
  end.

(** [Parser.split] *)
Definition split (self : Parser) (s : str) : result (list Token) :=
  st <- split_loop self ([], []) (s ++ lit " ") ;;
  Ok (fst st).

(** ** The parser: resolution of the operators *)

Definition close_without_open : string :=
  "Cannot parse the expression: close brace without open.".
Definition open_without_close : string :=
  "Cannot parse the expression: not all open braces have pair close brace.".

(** The two failures of [parse], under the names the specification gives
    them. *)
Definition UnmatchedCloseBrace : exn := ParseError close_without_open.
Definition UnclosedOpenBrace : exn := ParseError open_without_close.

(** The local variables of [parse] that its first loop updates. *)
Record scan : Type := {
  open_braces : Z;
  close_braces : Z;
  operators_data : list (Z * Z);
  variables : list Token;
  scan_precalculated : list V;
  tokens_without_braces : list slot
}.

Definition scan_init : scan :=
  {| open_braces := 0; close_braces := 0; operators_data := [];
     variables := []; scan_precalculated := [];
     tokens_without_braces := [] |}.

(** The body of the first loop of [parse], on [tokens[i]]. *)
Definition scan_step (st : scan) (i : nat) (token : Token) : result scan :=
  match token with
  | BraceToken OPEN =>
      Ok {| open_braces := open_braces st + 1;
            close_braces := close_braces st;
            operators_data := operators_data st;
            variables := variables st;
            scan_precalculated := scan_precalculated st;
            tokens_without_braces := tokens_without_braces st |}
  | BraceToken CLOSE =>
      let close_braces := close_braces st + 1 in
      if open_braces st - close_braces <? 0 then Raise UnmatchedCloseBrace
      else
        Ok {| open_braces := open_braces st;
              close_braces := close_braces;
              operators_data := operators_data st;
              variables := variables st;
              scan_precalculated := scan_precalculated st;
              tokens_without_braces := tokens_without_braces st |}
  | OperatorToken _ =>
      Ok {| open_braces := open_braces st;
            close_braces := close_braces st;
            operators_data :=
              operators_data st
              ++ [(open_braces st - close_braces st,
                   Z.of_nat i - (open_braces st + close_braces st))];
            variables := variables st;
            scan_precalculated := scan_precalculated st;
            tokens_without_braces := tokens_without_braces st ++ [Ref i token] |}
  | VariableToken _ =>
      Ok {| open_braces := open_braces st;
            close_braces := close_braces st;
            operators_data := operators_data st;
            variables := variables st ++ [token];
            scan_precalculated := scan_precalculated st;
            tokens_without_braces := tokens_without_braces st ++ [Ref i token] |}
  | ConstantToken value =>
      let precalculated := scan_precalculated st ++ [value] in
      Ok {| open_braces := open_braces st;
            close_braces := close_braces st;
            operators_data := operators_data st;
            variables := variables st;
            scan_precalculated := precalculated;
            tokens_without_braces :=
              tokens_without_braces st
              ++ [Calc (Z.of_nat (length precalculated) - 1)] |}
  end.

(** [for i in range(len(tokens))], from [i] on. *)
Fixpoint scan_loop (st : scan) (i : nat) (tokens : list Token) : result scan :=
  match tokens with
  | [] => Ok st
  | token :: tokens' =>
      st <- scan_step st i token ;;
      scan_loop st (S i) tokens'
  end.

(** The first loop of [parse] with the check that follows it. *)
Definition scan_tokens (tokens : list Token) : result scan :=
  st <- scan_loop scan_init 0 tokens ;;
  if negb (open_braces st - close_braces st =? 0) then Raise UnclosedOpenBrace
  else Ok st.

(** [tokens_without_braces[i].operator] *)
Definition operator_at (twb : list slot) (i : Z) : result Operator :=
  tok <- getitem twb i ;;
  match tok with
  | Ref _ (OperatorToken operator) => Ok operator
  | _ => Raise AttributeError
  end.

(** The key of the sort: [(data[0], -priority, -data[1])]. *)
Definition key : Type := Z * number * Z.

Definition sort_key (twb : list slot) (data : Z * Z) : result key :=
  operator <- operator_at twb (snd data) ;;
  Ok (fst data, number_neg (priority operator), - snd data).

(** [a < b] on the keys: tuples compare at their first unequal place. *)
Definition key_ltb (a b : key) : bool :=
  let '(a0, a1, a2) := a in
  let '(b0, b1, b2) := b in
  if negb (a0 =? b0) then a0 <? b0
  else if negb (number_eqb a1 b1) then number_ltb a1 b1
  else a2 <? b2.

(** [sorted(..., key=..., reverse=True)]: every key is computed once, before
    any comparison; the order is descending, and elements of equal key keep
    the order they came in. *)
Fixpoint keyed {A : Type} (f : A -> result key) (l : list A)
    : result (list (key * A)) :=
  match l with
  | [] => Ok []
  | x :: l' =>
      k <- f x ;;
      kl <- keyed f l' ;;
      Ok ((k, x) :: kl)
  end.

Fixpoint insert_reverse {A : Type} (x : key * A) (l : list (key * A))
    : list (key * A) :=
  match l with
  | [] => [x]
  | y :: l' =>
      if key_ltb (fst x) (fst y) then y :: insert_reverse x l' else x :: l
  end.

Definition sorted_reverse {A : Type} (f : A -> result key) (l : list A)
    : result (list A) :=
  kl <- keyed f l ;;
  Ok (map snd (fold_right insert_reverse [] kl)).

(** [calculation_order] of [parse]. *)
Definition calculation_order (st : scan) : result (list Z) :=
  sorted <- sorted_reverse (sort_key (tokens_without_braces st))
              (operators_data st) ;;
  Ok (map snd sorted).

(** The [while] loop of [update_last_calc]; [bound] limits its rounds. *)
Fixpoint update_loop (bound : nat) (twb : list slot) (old_value : slot)
    (side calculation_index i : Z) : result (list slot) :=
  match bound with
  | O => Raise LoopBound
  | S bound' =>
      if i <? Z.of_nat (length twb) then
        x <- getitem twb i ;;
        if slot_eqb x old_value then
          twb <- setitem twb i (Calc calculation_index) ;;
          update_loop bound' twb old_value side calculation_index (i + side)
        else Ok twb
      else Ok twb
  end.

(** [update_last_calc], on the list it updates. *)
Definition update_last_calc (twb : list slot)
    (operator_index side calculation_index : Z) : result (list slot) :=
  old_value <- getitem twb (operator_index + side) ;;
  update_loop (2 * length twb + 1) twb old_value side calculation_index
    (operator_index + side).

(** The body of the last loop of [parse]; [n] is [len(precalculated)]. *)
Definition resolve_step (n : Z)
    (st : list slot * list (Operator * list slot))
    (calculation_index operator_index : Z)
    : result (list slot * list (Operator * list slot)) :=
  let '(twb, operators_with_arguments) := st in
  operator <- operator_at twb operator_index ;;
  st <- match type operator with
        | Unary =>
            a <- getitem twb (operator_index + 1) ;;
            twb <- update_last_calc twb operator_index 1 (calculation_index + n) ;;
            Ok (twb, operators_with_arguments ++ [(operator, [a])])
        | Binary =>
            a <- getitem twb (operator_index - 1) ;;
            b <- getitem twb (operator_index + 1) ;;
            twb <- update_last_calc twb operator_index 1 (calculation_index + n) ;;
            twb <- update_last_calc twb operator_index (-1) (calculation_index + n) ;;
            Ok (twb, operators_with_arguments ++ [(operator, [a; b])])
        end ;;
  twb <- setitem (fst st) operator_index (Calc (calculation_index + n)) ;;
  Ok (twb, snd st).

(** [for calculation_index in range(len(calculation_order))], from
    [calculation_index] on. *)
Fixpoint resolve_loop (n : Z) (st : list slot * list (Operator * list slot))
    (calculation_index : Z) (order : list Z)
    : result (list slot * list (Operator * list slot)) :=
  match order with
  | [] => Ok st
  | operator_index :: order' =>
      st <- resolve_step n st calculation_index operator_index ;;
      resolve_loop n st (calculation_index + 1) order'
  end.

(** [Parser.parse] from the tokens on. *)
Definition parse_tokens (tokens : list Token) : result ParsedExpression :=
  st <- scan_tokens tokens ;;
  order <- calculation_order st ;;
  let n := Z.of_nat (length (scan_precalculated st)) in
  res <- resolve_loop n (tokens_without_braces st, []) 0 order ;;
  Ok (ParsedExpression_init (snd res) (Some (scan_precalculated st))).

(** [Parser.parse] *)
Definition parse (self : Parser) (s : str) : result ParsedExpression :=
  tokens <- split self s ;;
  parse_tokens tokens.

End Core.

Arguments Operator : clear implicits.
Arguments ConstantType : clear implicits.
Arguments Token : clear implicits.
Arguments slot : clear implicits.
Arguments ParsedExpression : clear implicits.
Arguments Parser : clear implicits.
Arguments scan : clear implicits.
Arguments cell : clear implicits.
Arguments store : clear implicits.

(** ** The default tables *)

Module Defaults.

(** The operations of Python that the functions of the default operators
    use, by name. *)
Inductive binop : Type :=
| Pow | TrueDiv | Mod | Mul | Add | Sub | Eq | Ne | Ge | Gt | Le | Lt.

Section Values.
(** Python values other than [bool] and [int] ([float], [str], ...). *)
Context {obj : Type}.

Inductive pyval : Type :=
| PBool (b : bool)
| PInt (z : Z)
| PObj (o : obj).

(** What Python does outside the integers is not part of this
    repository: [obj_binop] is a binary operation with an operand or a
    result that is no integer, [obj_truth] is [bool(o)] and [py_float] is
    the builtin [float] on a string. *)
Context (obj_binop : binop -> pyval -> pyval -> result pyval)
        (obj_truth : obj -> result bool)
        (py_float : str -> result obj).

(** [bool] is a subclass of [int]. *)
Definition as_int (v : pyval) : option Z :=
  match v with
  | PBool true => Some 1
  | PBool false => Some 0
  | PInt z => Some z
  | PObj _ => None
  end.

(** [bool(v)] *)
Definition truth (v : pyval) : result bool :=
  match v with
  | PBool b => Ok b
  | PInt z => Ok (negb (z =? 0))
  | PObj o => obj_truth o
  end.

(** A binary operation that stays inside the integers when both operands
    are integers. *)
Definition int_binop (op : binop) (f : Z -> Z -> result pyval)
    (a b : pyval) : result pyval :=
  match as_int a, as_int b with
  | Some x, Some y => f x y
  | _, _ => obj_binop op a b
  end.

Definition py_pow (a p : pyval) : result pyval :=
  int_binop Pow
    (fun x y => if 0 <=? y then Ok (PInt (x ^ y)) else obj_binop Pow a p) a p.
Definition py_truediv (a b : pyval) : result pyval :=
  int_binop TrueDiv
    (fun x y => if y =? 0 then Raise ZeroDivisionError
                else obj_binop TrueDiv a b) a b.
Definition py_mod (a b : pyval) : result pyval :=
  int_binop Mod
    (fun x y => if y =? 0 then Raise ZeroDivisionError
                else Ok (PInt (x mod y))) a b.
Definition py_mul : pyval -> pyval -> result pyval :=
  int_binop Mul (fun x y => Ok (PInt (x * y))).
Definition py_add : pyval -> pyval -> result pyval :=
  int_binop Add (fun x y => Ok (PInt (x + y))).
Definition py_sub : pyval -> pyval -> result pyval :=
  int_binop Sub (fun x y => Ok (PInt (x - y))).
Definition py_eq : pyval -> pyval -> result pyval :=
  int_binop Eq (fun x y => Ok (PBool (x =? y))).
Definition py_ne : pyval -> pyval -> result pyval :=
  int_binop Ne (fun x y => Ok (PBool (negb (x =? y)))).
Definition py_ge : pyval -> pyval -> result pyval :=
  int_binop Ge (fun x y => Ok (PBool (y <=? x))).
Definition py_gt : pyval -> pyval -> result pyval :=
  int_binop Gt (fun x y => Ok (PBool (y <? x))).
Definition py_le : pyval -> pyval -> result pyval :=
  int_binop Le (fun x y => Ok (PBool (x <=? y))).
Definition py_lt : pyval -> pyval -> result pyval :=
  int_binop Lt (fun x y => Ok (PBool (x <? y))).

(** [not a], [a and b], [a or b], [not a or b] *)
Definition py_not (a : pyval) : result pyval :=
  t <- truth a ;; Ok (PBool (negb t)).
Definition py_and (a b : pyval) : result pyval :=
  t <- truth a ;; Ok (if t then b else a).
Definition py_or (a b : pyval) : result pyval :=
  t <- truth a ;; Ok (if t then a else b).
Definition py_impl (a b : pyval) : result pyval :=
  t <- truth a ;; Ok (if t then b else PBool true).

(** A [lambda] of one and of two parameters, called on [args]. *)
Definition lambda1 (f : pyval -> result pyval) (args : list pyval)
    : result pyval :=
  match args with
  | [a] => f a
  | _ => Raise TypeError
  end.
Definition lambda2 (f : pyval -> pyval -> result pyval) (args : list pyval)
    : result pyval :=
  match args with
  | [a; b] => f a b
  | _ => Raise TypeError
  end.

(** The builtin [int(s, base)] on ASCII text: white space around, a sign,
    the prefix of the base, digits with single underscores between
    them. *)
Definition digit_value (c : char) : option Z :=
  if ((48 <=? c) && (c <=? 57))%N then Some (Z.of_N c - 48)
  else if ((97 <=? c) && (c <=? 122))%N then Some (Z.of_N c - 87)
  else if ((65 <=? c) && (c <=? 90))%N then Some (Z.of_N c - 55)
  else None.

Definition is_digit (base : Z) (c : char) : bool :=
  match digit_value c with
  | Some d => d <? base
  | None => false
  end.

Fixpoint int_digits (base acc : Z) (t : str) : option Z :=
  match t with
  | [] => Some acc
  | c :: t' =>
      if N.eqb c 95 then
        match t' with
        | d :: _ => if is_digit base d then int_digits base acc t' else None
        | [] => None
        end
      else
        match digit_value c with
        | Some d =>
            if d <? base then int_digits base (acc * base + d) t' else None
        | None => None
        end
  end.

Fixpoint lstrip (t : str) : str :=
  match t with
  | c :: t' => if char_isspace c then lstrip t' else t
  | [] => []
  end.

Definition strip (t : str) : str := rev (lstrip (rev (lstrip t))).

Definition int_prefix (base : Z) (t : str) : option str :=
  match t with
  | 48%N :: c :: t' =>
      if (base =? 2) && (N.eqb c 98 || N.eqb c 66)
         || (base =? 16) && (N.eqb c 120 || N.eqb c 88)
      then Some t' else None
  | _ => None
  end.

Definition int_unsigned (base : Z) (t : str) : option Z :=
  match int_prefix base t with
  | Some ((c :: _) as t') =>
      if N.eqb c 95 || is_digit base c then int_digits base 0 t' else None
  | Some [] => None
  | None =>
      match t with
      | c :: _ => if is_digit base c then int_digits base 0 t else None
      | [] => None
      end
  end.

Definition py_int (base : Z) (s : str) : result pyval :=
  let t := strip s in
  let '(negative, t) :=
    match t with
    | 45%N :: t' => (true, t')
    | 43%N :: t' => (false, t')
    | _ => (false, t)
    end in
  match int_unsigned base t with
  | Some z => Ok (PInt (if negative then - z else z))
  | None => Raise ValueError
  end.

(** *** The operators *)

Definition pow : Operator pyval :=
  {| func := lambda2 py_pow; type := Binary; name := lit "pow";
     signs := [lit "^"; lit "**"]; priority := Int 0 |}.
Definition div : Operator pyval :=
  {| func := lambda2 py_truediv; type := Binary; name := lit "div";
     signs := [lit "/"]; priority := Int 1 |}.
Definition mod' : Operator pyval :=
  {| func := lambda2 py_mod; type := Binary; name := lit "mod";
     signs := [lit "%"]; priority := Int 1 |}.
Definition mul : Operator pyval :=
  {| func := lambda2 py_mul; type := Binary; name := lit "mul";
     signs := [lit "*"]; priority := Int 1 |}.
Definition plus : Operator pyval :=
  {| func := lambda2 py_add; type := Binary; name := lit "plus";
     signs := [lit "+"]; priority := Int 2 |}.
Definition minus : Operator pyval :=
  {| func := lambda2 py_sub; type := Binary; name := lit "minus";
     signs := [lit "-"]; priority := Int 2 |}.

Definition eq : Operator pyval :=
  {| func := lambda2 py_eq; type := Binary; name := lit "eq";
     signs := [lit "=="; [0x21D4%N]; [0x2261%N]; [0x27F7%N]];
     priority := Int 3 |}.
Definition not_eq : Operator pyval :=
  {| func := lambda2 py_ne; type := Binary; name := lit "not_eq";
     signs := [lit "!="; lit "<>"]; priority := Int 3 |}.
Definition great_eq : Operator pyval :=
  {| func := lambda2 py_ge; type := Binary; name := lit "great_eq";
     signs := [lit ">="]; priority := Int 3 |}.
Definition great : Operator pyval :=
  {| func := lambda2 py_gt; type := Binary; name := lit "great";
     signs := [lit ">"]; priority := Int 3 |}.
Definition less_eq : Operator pyval :=
  {| func := lambda2 py_le; type := Binary; name := lit "less_eq";
     signs := [lit "<="]; priority := Int 3 |}.
Definition less : Operator pyval :=
  {| func := lambda2 py_lt; type := Binary; name := lit "less";
     signs := [lit "<"]; priority := Int 3 |}.

Definition not_op : Operator pyval :=
  {| func := lambda1 py_not; type := Unary; name := lit "not";
     signs := [lit "!"; lit "~"; [0x00AC%N]]; priority := Int 4 |}.
Definition and_op : Operator pyval :=
  {| func := lambda2 py_and; type := Binary; name := lit "and";
     signs := [lit "&&"; [0x22C0%N]]; priority := Int 5 |}.
Definition or_op : Operator pyval :=
  {| func := lambda2 py_or; type := Binary; name := lit "or";
     signs := [lit "||"; [0x22C1%N]]; priority := Int 6 |}.
Definition impl : Operator pyval :=
  {| func := lambda2 py_impl; type := Binary; name := lit "impl";
     signs := [lit "->"; [0x21D2%N]; [0x2192%N]]; priority := Int 7 |}.

(** *** The constant types *)

Definition digit : regex := Rng 48%N 57%N.

(** [[0-9]{1,}$] *)
Definition integers_decimal : ConstantType pyval :=
  {| regexp := Cat (Rep digit 1) Eol; to_value := py_int 10 |}.
(** [0b[0-1]{1,}$] *)
Definition integers_binary : ConstantType pyval :=
  {| regexp := Cat (Cat (Lit (lit "0b")) (Rep (Rng 48%N 49%N) 1)) Eol;
     to_value := py_int 2 |}.
(** [0x[0-F]{1,}$] *)
Definition integers_hex : ConstantType pyval :=
  {| regexp := Cat (Cat (Lit (lit "0x")) (Rep (Rng 48%N 70%N) 1)) Eol;
     to_value := py_int 16 |}.
(** [([0-9]{0,}\.?[0-9]{1,}|[0-9]{1,}\.)((e|E)[0-9]{1,})?$] *)
Definition float_point : ConstantType pyval :=
  {| regexp :=
       Cat (Cat (Alt (Cat (Rep digit 0)
                           (Cat (Opt (Lit (lit "."))) (Rep digit 1)))
                     (Cat (Rep digit 1) (Lit (lit "."))))
                (Opt (Cat (Alt (Lit (lit "e")) (Lit (lit "E")))
                        (Rep digit 1))))
           Eol;
     to_value := fun s => o <- py_float s ;; Ok (PObj o) |}.
(** [(True|False|true|false)$] *)
Definition boolean : ConstantType pyval :=
  {| regexp :=
       Cat (Alt (Lit (lit "True"))
              (Alt (Lit (lit "False"))
                 (Alt (Lit (lit "true")) (Lit (lit "false")))))
           Eol;
     to_value :=
       fun s => Ok (PBool (str_eqb s (lit "True") || str_eqb s (lit "true"))) |}.

Definition parser : Parser pyval :=
  Parser_init
    [pow; div; mod'; mul; plus; minus;
     eq; not_eq; great_eq; less_eq; great; less;
     not_op; and_op; or_op; impl]
    [integers_decimal; integers_binary; integers_hex; float_point; boolean].

(** The input of the scenario of the specification and of [test_deep]. *)
Definition deep : str := lit "(True&&a->!False)||8>=8&&8<9".

End Values.
Arguments pyval : clear implicits.
End Defaults.

(** ** The vocabulary of the properties *)

Section Vocabulary.
Context {V : Type}.

Definition is_open (t : Token V) : bool :=
  match t with BraceToken OPEN => true | _ => false end.
Definition is_close (t : Token V) : bool :=
  match t with BraceToken CLOSE => true | _ => false end.

(** The numbers of open and of close braces in a run of tokens. *)
Definition count_open (tokens : list (Token V)) : Z :=
  Z.of_nat (length (filter is_open tokens)).
Definition count_close (tokens : list (Token V)) : Z :=
  Z.of_nat (length (filter is_close tokens)).

(** In the pass from left to right over [tokens] the close braces never
    outnumber the open braces. *)
Definition never_exceeds (tokens : list (Token V)) : Prop :=
  forall n, count_close (firstn n tokens) <= count_open (firstn n tokens).

(** An occurrence of an operator: the depth of the braces around it, the
    operator and its position among the tokens that are not braces. *)
Record occurrence : Type := {
  occ_depth : Z;
  occ_operator : Operator V;
  occ_position : Z
}.

Definition occ_priority (o : occurrence) : number :=
  priority (occ_operator o).

Fixpoint occurrences_from (depth position : Z) (tokens : list (Token V))
    : list occurrence :=
  match tokens with
  | [] => []
  | BraceToken OPEN :: tokens' => occurrences_from (depth + 1) position tokens'
  | BraceToken CLOSE :: tokens' => occurrences_from (depth - 1) position tokens'
  | OperatorToken operator :: tokens' =>
      {| occ_depth := depth; occ_operator := operator;
         occ_position := position |}
      :: occurrences_from depth (position + 1) tokens'
  | _ :: tokens' => occurrences_from depth (position + 1) tokens'
  end.

Definition occurrences (tokens : list (Token V)) : list occurrence :=
  occurrences_from 0 0 tokens.

(** The key that the sort gives to an occurrence, and the element of
    [operators_data] that stands for it. *)
Definition key_of (o : occurrence) : key :=
  (occ_depth o, number_neg (occ_priority o), - occ_position o).
Definition data_of (o : occurrence) : Z * Z := (occ_depth o, occ_position o).

(** In the result of the sort [x] may stand before [y]: it is not less. *)
Definition key_geb {A : Type} (x y : key * A) : Prop :=
  key_ltb (fst x) (fst y) = false.

(** The order of resolution that the sort of [parse] produces: deeper
    first, then the lower priority number, then the position further to
    the left. *)
Definition resolves_before (a b : occurrence) : Prop :=
  occ_depth b < occ_depth a
  \/ occ_depth a = occ_depth b
     /\ (number_ltb (occ_priority a) (occ_priority b) = true
         \/ occ_priority a = occ_priority b
            /\ occ_position a < occ_position b).

(** The order with the position further to the right first. *)
Definition rightmost_before (a b : occurrence) : Prop :=
  occ_depth b < occ_depth a
  \/ occ_depth a = occ_depth b
     /\ (number_ltb (occ_priority a) (occ_priority b) = true
         \/ occ_priority a = occ_priority b
            /\ occ_position b < occ_position a).

(** The tokens without the braces, as the first loop of [parse] leaves
    them: a constant is the subscript of its value, any other token is the
    object itself.  [i] is the subscript of the first token and [n] the
    number of constants before it. *)
Fixpoint stripped_from (i : nat) (n : Z) (tokens : list (Token V))
    : list (slot V) :=
  match tokens with
  | [] => []
  | BraceToken _ :: tokens' => stripped_from (S i) n tokens'
  | ConstantToken _ :: tokens' => Calc n :: stripped_from (S i) (n + 1) tokens'
  | token :: tokens' => Ref i token :: stripped_from (S i) n tokens'
  end.

(** The values of the constant tokens, one for each occurrence. *)
Fixpoint constants_of (tokens : list (Token V)) : list V :=
  match tokens with
  | [] => []
  | ConstantToken value :: tokens' => value :: constants_of tokens'
  | _ :: tokens' => constants_of tokens'
  end.

(** A character that occurs in a sign of the parser, and a character that
    is not white space, not a brace and in no sign. *)
Definition sign_char (p : Parser V) (c : char) : bool :=
  existsb (existsb (N.eqb c)) (dict_keys (operators_signs p)).
Definition plain_char (p : Parser V) (c : char) : bool :=
  negb (char_isspace c) && negb (N.eqb c 40) && negb (N.eqb c 41)
  && negb (sign_char p c).

(** A text of plain characters, at least one. *)
Definition plain (p : Parser V) (t : str) : bool :=
  nonempty t && forallb (plain_char p) t.

Definition found (r : option str) (g : str) : bool :=
  match r with
  | Some s => str_eqb s g
  | None => false
  end.

(** A sign that the tokenizer builds after a plain text: it is a single
    character; or it has two, and either the first is a sign, which the
    second extends, or no sign ends with the first and the sign is the
    first in the table that ends the two. *)
Definition built (p : Parser V) (g : str) : bool :=
  let signs := operators_signs p in
  match g with
  | [c] => found (find_sign (dict_keys signs) [c]) g
  | [c1; c2] =>
      if dict_mem signs [c1] then found (find_sign (dict_keys signs) [c1]) [c1]
      else
        match find_sign (dict_keys signs) [c1] with
        | Some _ => false
        | None => found (find_sign (dict_keys signs) g) g
        end
  | _ => false
  end.

(** A table all of whose signs are built after a plain text, have no white
    space and no brace, and are not names of operators. *)
Definition well_signed (p : Parser V) : bool :=
  forallb
    (fun g =>
       built p g
       && forallb (fun c => negb (char_isspace c || N.eqb c 40 || N.eqb c 41)) g
       && negb (dict_mem (operators_names p) g))
    (dict_keys (operators_signs p)).

(** The exceptions of the second half of [parse]. *)
Definition resolver_error (e : exn) : Prop :=
  e = IndexError \/ e = AttributeError.

(** [c] raises only exceptions that satisfy [P]. *)
Definition raises_only {A : Type} (P : exn -> Prop) (c : result A) : Prop :=
  forall e, c = Raise e -> P e.

(** What the last loop of [parse] keeps true of an element [x] of
    [tokens_without_braces], where [x0] is the element at the same place
    before the loop: [x] is a subscript below [bound], or it is [x0], a
    token. *)
Definition slot_kept (bound : Z) (x0 x : slot V) : Prop :=
  match x with
  | Calc n => 0 <= n < bound
  | Ref _ _ => x = x0
  end.

(** The operands that are integers are subscripts below [bound]. *)
Definition operand_below (bound : Z) (param : slot V) : Prop :=
  match param with
  | Calc n => 0 <= n < bound
  | Ref _ _ => True
  end.

(** The operands of the [k]-th operation, for every [k] from [k0] on, are
    below [n + k]. *)
Fixpoint operands_bounded (n : Z) (k0 : Z)
    (ops : list (Operator V * list (slot V))) : Prop :=
  match ops with
  | [] => True
  | operation :: ops' =>
      Forall (operand_below (n + k0)) (snd operation)
      /\ operands_bounded n (k0 + 1) ops'
  end.

(** The causes of a failure of the loop of [__call__] other than a
    subscript out of the value space: a variable without binding, an
    operand that is an operator token, the function of an operator. *)
Definition call_failure (ops : list (Operator V * list (slot V)))
    (kwargs : dict V) (err : exn) : Prop :=
  (exists name, err = KeyError name /\ dict_get kwargs name = None)
  \/ err = AttributeError
  \/ (exists operation args,
        In operation ops /\ func (fst operation) args = Raise err).
End Vocabulary.
Arguments occurrence : clear implicits.

(** ** Small tables and inputs for the examples *)

Module Examples.

(** A parser without operators and constant types, over the integers. *)
Definition bare : Parser Z := Parser_init [] [].

(** [Operator("impl", 2, lambda a, b: max(1 - a, b), ("->",), 7)] *)
Definition impl : Operator Z :=
  {| func := fun args =>
               match args with
               | [a; b] => Ok (Z.max (1 - a) b)
               | _ => Raise TypeError
               end;
     type := Binary; name := lit "impl"; signs := [lit "->"];
     priority := Int 7 |}.

(** The tokens of [a -> b -> c]. *)
Definition chain : list (Token Z) :=
  [VariableToken (lit "a"); OperatorToken impl; VariableToken (lit "b");
   OperatorToken impl; VariableToken (lit "c")].

(** [ConstantType("[0-9]", len)]: a pattern that does not end in [$]. *)
Definition one_digit : ConstantType Z :=
  {| regexp := Rng 48%N 57%N;
     to_value := fun s => Ok (Z.of_nat (length s)) |}.

Definition loose : Parser Z := Parser_init [] [one_digit].

(** An expression with the one operation [impl(a, b)]. *)
Definition a_impl_b : ParsedExpression Z :=
  {| operations :=
       [(impl, [Ref 0 (VariableToken (lit "a"));
                Ref 2 (VariableToken (lit "b"))])];
     precalculated := [] |}.

(** [Operator("lt", 2, ..., ("<",), 3)] and
    [Operator("iff", 2, ..., ("<=>",), 3)] *)
Definition lt : Operator Z :=
  {| func := fun args =>
               match args with
               | [a; b] => Ok (if a <? b then 1 else 0)
               | _ => Raise TypeError
               end;
     type := Binary; name := lit "lt"; signs := [lit "<"];
     priority := Int 3 |}.
Definition iff : Operator Z :=
  {| func := fun args =>
               match args with
               | [a; b] => Ok (if a =? b then 1 else 0)
               | _ => Raise TypeError
               end;
     type := Binary; name := lit "iff"; signs := [lit "<=>"];
     priority := Int 3 |}.

Definition arrows : Parser Z := Parser_init [lt; iff] [].

(** The tokens of [8 -> 8], with the constant [8] twice. *)
Definition twice : list (Token Z) :=
  [ConstantToken 8; OperatorToken impl; ConstantToken 8].

(** What the first loop of [parse] leaves of [chain], and what [parse]
    returns for [chain] and for [twice]. *)
Definition chain_scan : scan Z :=
  {| open_braces := 0; close_braces := 0;
     operators_data := [(0, 1); (0, 3)];
     variables := [VariableToken (lit "a"); VariableToken (lit "b");
                   VariableToken (lit "c")];
     scan_precalculated := [];
     tokens_without_braces :=
       [Ref 0 (VariableToken (lit "a")); Ref 1 (OperatorToken impl);
        Ref 2 (VariableToken (lit "b")); Ref 3 (OperatorToken impl);
        Ref 4 (VariableToken (lit "c"))] |}.

Definition chain_parsed : ParsedExpression Z :=
  {| operations :=
       [(impl, [Ref 0 (VariableToken (lit "a"));
                Ref 2 (VariableToken (lit "b"))]);
        (impl, [Calc 0; Ref 4 (VariableToken (lit "c"))])];
     precalculated := [] |}.

Definition twice_parsed : ParsedExpression Z :=
  {| operations := [(impl, [Calc 0; Calc 1])]; precalculated := [8; 8] |}.

(** The default parser where Python has the integers and the booleans
    only: every operation outside them raises. *)
Definition integral : Parser (Defaults.pyval unit) :=
  Defaults.parser (fun _ _ _ => Raise TypeError) (fun _ => Raise TypeError)
    (fun _ => Raise ValueError).

(** What [parse] returns for the lone variable [a]. *)
Definition empty_parsed : ParsedExpression Z :=
  {| operations := []; precalculated := [] |}.

End Examples.

(** ** Further vocabulary *)

Section Further.
Context {V : Type}.

(** The number of operands that [parse] gives to an operator. *)
Definition arity (operator : Operator V) : nat :=
  match type operator with
  | Unary => 1
  | Binary => 2
  end.

(** The operators of the operator tokens, from left to right. *)
Fixpoint operators_of (tokens : list (Token V)) : list (Operator V) :=
  match tokens with
  | [] => []
  | OperatorToken operator :: tokens' => operator :: operators_of tokens'
  | _ :: tokens' => operators_of tokens'
  end.

Definition is_brace (t : Token V) : bool :=
  match t with BraceToken _ => true | _ => false end.
Definition is_operator (t : Token V) : bool :=
  match t with OperatorToken _ => true | _ => false end.

(** The operator registered last, among [operators], with the sign, and
    with the name. *)
Definition last_with_sign (operators : list (Operator V)) (sign : str)
    : option (Operator V) :=
  find (fun operator => existsb (fun s => str_eqb s sign) (signs operator))
    (rev operators).
Definition last_with_name (operators : list (Operator V)) (n : str)
    : option (Operator V) :=
  find (fun operator => str_eqb (name operator) n) (rev operators).

(** What a white space or a brace leaves in the result of [split]. *)
Definition separator (c : char) : list (Token V) :=
  if N.eqb c 40 then [BraceToken OPEN]
  else if N.eqb c 41 then [BraceToken CLOSE]
  else [].

(** The braces of a text. *)
Definition braces_of (s : str) : list (Token V) :=
  flat_map separator s.



(** The element [x'] is the element [x] or the subscript [index]: what a
    place of [tokens_without_braces] may become while an operator is
    resolved. *)
Definition written (index : Z) (x x' : slot V) : Prop :=
  x' = x \/ x' = Calc index.

(** A slot that is a token is a token of [tokens], at the subscript that is
    its identity. *)
Definition token_slot (tokens : list (Token V)) (x : slot V) : Prop :=
  match x with
  | Calc _ => True
  | Ref id t => nth_error tokens id = Some t
  end.

(** The operation has as many operands as its operator takes, and its
    operands that are tokens are tokens of [tokens]. *)
Definition operation_ok (tokens : list (Token V))
    (operation : Operator V * list (slot V)) : Prop :=
  length (snd operation) = arity (fst operation)
  /\ Forall (token_slot tokens) (snd operation).

(** The slot [x'] is the slot [x] of a text that has one more token in
    front: an integer is the same, a token is the same token one place
    further. *)
Definition moved (x x' : slot V) : Prop :=
  match x, x' with
  | Calc n, Calc n' => n' = n
  | Ref id t, Ref id' t' => id' = S id /\ t' = t
  | _, _ => False
  end.

(** The same operator on the same operands, the tokens one place
    further. *)
Definition moved_operation (o o' : Operator V * list (slot V)) : Prop :=
  fst o' = fst o /\ Forall2 moved (snd o) (snd o').

(** The state of the first loop of [parse] after the same tokens, one open
    brace and one place further. *)
Definition moved_scan (st st' : scan V) : Prop :=
  open_braces st' = open_braces st + 1
  /\ close_braces st' = close_braces st
  /\ operators_data st'
     = map (fun data => (fst data + 1, snd data)) (operators_data st)
  /\ scan_precalculated st' = scan_precalculated st
  /\ Forall2 moved (tokens_without_braces st) (tokens_without_braces st').

(** A token that is a variable or a constant. *)
Definition is_operand (t : Token V) : bool :=
  match t with
  | VariableToken _ | ConstantToken _ => true
  | _ => false
  end.

(** The first token that is no brace is an operand. *)
Fixpoint next_is_operand (tokens : list (Token V)) : bool :=
  match tokens with
  | [] => false
  | BraceToken _ :: tokens' => next_is_operand tokens'
  | t :: _ => is_operand t
  end.

(** Braces apart, every operator has an operand right after it, and every
    binary operator has one right before it; [previous] tells whether the
    token before [tokens] is an operand. *)
Fixpoint well_placed (previous : bool) (tokens : list (Token V)) : bool :=
  match tokens with
  | [] => true
  | BraceToken _ :: tokens' => well_placed previous tokens'
  | OperatorToken operator :: tokens' =>
      match type operator with Binary => previous | Unary => true end
      && next_is_operand tokens' && well_placed false tokens'
  | _ :: tokens' => well_placed true tokens'
  end.

(** An element of [tokens_without_braces] that is no operator token. *)
Definition operand_slot (x : slot V) : bool :=
  match x with
  | Ref _ (OperatorToken _) => false
  | _ => true
  end.

(** What [update_last_calc] makes of an element [x]: it is left alone, or
    it was equal to [old_value] and is the subscript [index] now. *)
Definition overwritten (old_value : slot V) (index : Z) (x x' : slot V)
    : Prop :=
  x' = x \/ (slot_eqb x old_value = true /\ x' = Calc index).

(** The element [x] is the element [x0] that was at its place before the
    last loop of [parse], or it is a subscript. *)
Definition original_or_index (x0 x : slot V) : Prop :=
  x = x0 \/ exists index, x = Calc index.

(** The operator token at the place [j] has not been resolved: the place
    holds the token that it held before the last loop of [parse]. *)
Definition pending (twb0 twb : list (slot V)) (j : nat) : Prop :=
  exists id operator,
    nth_error twb0 j = Some (Ref id (OperatorToken operator))
    /\ nth_error twb j = Some (Ref id (OperatorToken operator)).

(** [l[-1]] *)
Definition last_value (l : list V) : result V :=
  match rev l with
  | v :: _ => Ok v
  | [] => Raise IndexError
  end.
End Further.

(** An element of the sort with its key, one brace deeper. *)
Definition deeper (kd : key * (Z * Z)) : key * (Z * Z) :=
  ((fst (fst (fst kd)) + 1, snd (fst (fst kd)), snd (fst kd)),
   (fst (snd kd) + 1, snd (snd kd))).


Definition is_decimal (c : char) : bool := ((48 <=? c) && (c <=? 57))%N.

(** The class [[0-F]] of the pattern of the hexadecimal constants, the
    characters of it that are digits of base 16, and the value of a text of
    such digits, after [acc]. *)
Definition in_hex_class (c : char) : bool := ((48 <=? c) && (c <=? 70))%N.

Definition is_hexadecimal (c : char) : bool :=
  ((48 <=? c) && (c <=? 57) || (65 <=? c) && (c <=? 70))%N.

Definition hexadecimal_value (c : char) : Z :=
  if (c <=? 57)%N then Z.of_N c - 48 else Z.of_N c - 55.

Definition hexadecimal_from (acc : Z) (t : str) : Z :=
  fold_left (fun a c => a * 16 + hexadecimal_value c) t acc.

(** Two expressions of [test_boolean]. *)
Definition test_boolean_1 : str := lit "(a -> b -> c) and d".
Definition test_boolean_2 : str :=
  lit "a != 1 and a * 1 <> 2 and not a ** 2 == 9".

(** What [parse] returns for the two expressions. *)
Section Expected.
Context {obj : Type}.
Context (obj_binop : Defaults.binop -> Defaults.pyval obj -> Defaults.pyval obj
                     -> result (Defaults.pyval obj))
        (obj_truth : obj -> result bool).

Definition test_boolean_1_parsed : ParsedExpression (Defaults.pyval obj) :=
  {| operations :=
       [(Defaults.impl obj_truth,
         [Ref 1 (VariableToken (lit "a")); Ref 3 (VariableToken (lit "b"))]);
        (Defaults.impl obj_truth, [Calc 0; Ref 5 (VariableToken (lit "c"))]);
        (Defaults.and_op obj_truth,
         [Calc 1; Ref 8 (VariableToken (lit "d"))])];
     precalculated := [] |}.

Definition test_boolean_2_parsed : ParsedExpression (Defaults.pyval obj) :=
  {| operations :=
       [(Defaults.pow obj_binop, [Ref 11 (VariableToken (lit "a")); Calc 3]);
        (Defaults.mul obj_binop, [Ref 4 (VariableToken (lit "a")); Calc 1]);
        (Defaults.not_eq obj_binop,
         [Ref 0 (VariableToken (lit "a")); Calc 0]);
        (Defaults.not_eq obj_binop, [Calc 6; Calc 2]);
        (Defaults.eq obj_binop, [Calc 5; Calc 4]);
        (Defaults.not_op obj_truth, [Calc 9]);
        (Defaults.and_op obj_truth, [Calc 7; Calc 8]);
        (Defaults.and_op obj_truth, [Calc 11; Calc 10])];
     precalculated :=
       [Defaults.PInt 1; Defaults.PInt 1; Defaults.PInt 2; Defaults.PInt 2;
        Defaults.PInt 9] |}.
End Expected.

(** The tokens without braces of [a -> b], as the last loop of [parse]
    finds them. *)
Definition a_impl_b_slots : list (slot Z) :=
  [Ref 0 (VariableToken (lit "a")); Ref 1 (OperatorToken Examples.impl);
   Ref 2 (VariableToken (lit "b"))].

(** * Properties *)

(** ** Raising computations *)

Lemma bind_Ok {A B : Type} (c : result A) (k : A -> result B) (b : B) :
  bind c k = Ok b -> exists a, c = Ok a /\ k a = Ok b.
Proof.
  destruct c as [a|e]; simpl; intros H; [eauto | discriminate].
Qed.

Lemma bind_Raise {A B : Type} (c : result A) (k : A -> result B) (e : exn) :
  bind c k = Raise e -> c = Raise e \/ exists a, c = Ok a /\ k a = Raise e.
Proof.
  destruct c as [a|e']; simpl; intros H; [right; eauto | left; congruence].
Qed.

(** Take apart a hypothesis that a sequence of computations returned. *)
Ltac bind_ok H :=
  let a := fresh "a" in
  let Ha := fresh "Ha" in
  apply bind_Ok in H; destruct H as (a & Ha & H).

Lemma str_eqb_eq (a b : str) : str_eqb a b = true <-> a = b.
Proof.
  revert b; induction a as [|x a IH]; intros [|y b]; simpl;
    try (split; [discriminate | intros H; discriminate H]); [tauto|].
  rewrite andb_true_iff, N.eqb_eq, IH.
  split; [intros [-> ->]; reflexivity | intros H; inversion H; auto].
Qed.

Lemma str_eqb_refl (a : str) : str_eqb a a = true.
Proof. apply str_eqb_eq; reflexivity. Qed.

(** ** The evaluator *)

Section Evaluator.
Context {V : Type}.
Implicit Types (e : ParsedExpression V) (kwargs : dict V).

Lemma arguments_app (stack : list V) kwargs (ps qs : list (slot V)) :
  arguments stack kwargs (ps ++ qs)
  = (vs <- arguments stack kwargs ps ;;
     ws <- arguments stack kwargs qs ;;
     Ok (vs ++ ws)).
Proof.
  induction ps as [|p ps IH]; simpl.
  - destruct (arguments stack kwargs qs); reflexivity.
  - destruct (argument stack kwargs p); simpl; [|reflexivity].
    rewrite IH. destruct (arguments stack kwargs ps); simpl; [|reflexivity].
    destruct (arguments stack kwargs qs); reflexivity.
Qed.

Lemma call_loop_app (ops1 ops2 : list (Operator V * list (slot V))) kwargs
    (stack : list V) :
  call_loop (ops1 ++ ops2) kwargs stack
  = (stack' <- call_loop ops1 kwargs stack ;; call_loop ops2 kwargs stack').
Proof.
  revert stack; induction ops1 as [|o ops1 IH]; intros stack; simpl.
  - reflexivity.
  - destruct (arguments stack kwargs (snd o)); simpl; [|reflexivity].
    destruct (func (fst o) a); simpl; [apply IH | reflexivity].
Qed.

(** C7: when the evaluation reaches an operand that is a variable whose
    name the bindings do not have (the operations before it and the
    operands to its left have been evaluated), the call fails with the
    [KeyError] of that name, which the specification calls
    [MissingVariable]. *)
Theorem call_missing_variable e kwargs
    (before after : list (Operator V * list (slot V))) (operator : Operator V)
    (left right : list (slot V)) (id : nat) (name : str)
    (stack left_values : list V) :
  operations e
  = before ++ (operator, left ++ Ref id (VariableToken name) :: right) :: after ->
  call_loop before kwargs (deepcopy (precalculated e)) = Ok stack ->
  arguments stack kwargs left = Ok left_values ->
  dict_get kwargs name = None ->
  call e kwargs = Raise (KeyError name).
Proof.
  intros Hops Hbefore Hleft Hname. unfold call; simpl.
  rewrite Hops, call_loop_app, Hbefore; simpl.
  rewrite arguments_app, Hleft; simpl.
  rewrite Hname; reflexivity.
Qed.

Lemma list_set_same {A : Type} (l : list A) (n : nat) (x : A) :
  nth_error l n = Some x -> list_set l n x = l.
Proof.
  revert n; induction l as [|y l IH]; intros [|n]; simpl; try discriminate.
  - intros H; inversion H; reflexivity.
  - intros H. rewrite (IH n H). reflexivity.
Qed.

Lemma list_set_twice {A : Type} (l : list A) (n : nat) (x y : A) :
  list_set (list_set l n x) n y = list_set l n y.
Proof.
  revert n; induction l as [|z l IH]; intros [|n]; simpl; try reflexivity.
  rewrite IH. reflexivity.
Qed.

Lemma nth_error_list_set_eq {A : Type} (l : list A) (n : nat) (x y : A) :
  nth_error l n = Some y -> nth_error (list_set l n x) n = Some x.
Proof.
  revert n; induction l as [|z l IH]; intros [|n]; simpl; try discriminate;
    auto.
Qed.

Lemma list_set_last {A : Type} (l : list A) (x y : A) :
  list_set (l ++ [x]) (length l) y = l ++ [y].
Proof. induction l as [|z l IH]; simpl; [reflexivity | rewrite IH; reflexivity]. Qed.

(** The loop in the store writes to [calc_stack] only, and computes what the
    loop on the contents computes. *)
Lemma call_loop_in_spec (ops : list (Operator V * list (slot V))) kwargs
    (h : store V) (calc_stack : nat) (l : list V) :
  nth_error h calc_stack = Some (Values l) ->
  exists l',
    fst (call_loop_in ops kwargs h calc_stack)
    = list_set h calc_stack (Values l')
    /\ (snd (call_loop_in ops kwargs h calc_stack) = Ok tt
        /\ call_loop ops kwargs l = Ok l'
        \/ exists err,
             snd (call_loop_in ops kwargs h calc_stack) = Raise err
             /\ call_loop ops kwargs l = Raise err).
Proof.
  revert h l; induction ops as [|operation ops IH]; intros h l Hl; simpl.
  - exists l. rewrite (list_set_same _ _ _ Hl). auto.
  - unfold load_values, append_value, load_values. rewrite Hl. cbn [bind].
    destruct (arguments l kwargs (snd operation)) as [args|err]; cbn [bind];
      [|exists l; rewrite (list_set_same _ _ _ Hl); simpl; eauto].
    destruct (func (fst operation) args) as [v|err]; cbn [bind];
      [|exists l; rewrite (list_set_same _ _ _ Hl); simpl; eauto].
    destruct (IH (list_set h calc_stack (Values (l ++ [v]))) (l ++ [v]))
      as (l' & Hfst & Hsnd).
    { eapply nth_error_list_set_eq, Hl. }
    exists l'. rewrite Hfst, list_set_twice. split; [reflexivity | exact Hsnd].
Qed.

(** A call in the store adds one list object, leaves every other as it
    was, and returns what [call] returns on the contents of the lists of the
    object. *)
Lemma call_in_spec (h : store V) (self : instance) e kwargs :
  load_operations h (operations_ref self) = Ok (operations e) ->
  load_values h (precalculated_ref self) = Ok (precalculated e) ->
  exists l,
    fst (call_in h self kwargs) = h ++ [Values l]
    /\ snd (call_in h self kwargs) = call e kwargs.
Proof.
  intros Hops Hpre. unfold call_in, allocate. rewrite Hpre.
  assert (Hops' : load_operations (h ++ [Values (deepcopy (precalculated e))])
                    (operations_ref self) = Ok (operations e)).
  { unfold load_operations in *.
    destruct (nth_error h (operations_ref self)) as [c|] eqn:E; [|discriminate].
    rewrite nth_error_app1 by (apply nth_error_Some; congruence).
    rewrite E. exact Hops. }
  rewrite Hops'.
  destruct (call_loop_in_spec (operations e) kwargs
              (h ++ [Values (deepcopy (precalculated e))]) (length h)
              (deepcopy (precalculated e))) as (l & Hfst & Hsnd).
  { rewrite nth_error_app2, Nat.sub_diag by lia. reflexivity. }
  rewrite list_set_last in Hfst.
  destruct (call_loop_in (operations e) kwargs
              (h ++ [Values (deepcopy (precalculated e))]) (length h))
    as [h' r].
  cbn [fst snd] in *. subst h'. exists l. split; [reflexivity|].
  unfold call. destruct Hsnd as [[-> ->]|(err & -> & ->)]; [|reflexivity].
  cbn [bind]. unfold load_values.
  rewrite nth_error_app2, Nat.sub_diag by lia. reflexivity.
Qed.

Lemma load_values_app (h extra : store V) (r : nat) (l : list V) :
  load_values h r = Ok l -> load_values (h ++ extra) r = Ok l.
Proof.
  unfold load_values. destruct (nth_error h r) as [c|] eqn:E; [|discriminate].
  rewrite nth_error_app1 by (apply nth_error_Some; congruence).
  rewrite E. auto.
Qed.

Lemma load_operations_app (h extra : store V) (r : nat)
    (l : list (Operator V * list (slot V))) :
  load_operations h r = Ok l -> load_operations (h ++ extra) r = Ok l.
Proof.
  unfold load_operations.
  destruct (nth_error h r) as [c|] eqn:E; [|discriminate].
  rewrite nth_error_app1 by (apply nth_error_Some; congruence).
  rewrite E. auto.
Qed.

Lemma call_many_in_spec (h : store V) (self : instance) e (ks : list (dict V)) :
  load_operations h (operations_ref self) = Ok (operations e) ->
  load_values h (precalculated_ref self) = Ok (precalculated e) ->
  exists extra,
    fst (call_many_in h self ks) = h ++ extra
    /\ snd (call_many_in h self ks) = map (call e) ks.
Proof.
  revert h; induction ks as [|kwargs ks IH]; intros h Hops Hpre; simpl.
  - exists []. rewrite app_nil_r. auto.
  - destruct (call_in_spec h self e kwargs Hops Hpre) as (l & Hfst & Hsnd).
    destruct (call_in h self kwargs) as [h1 r]. cbn [fst snd] in *. subst h1 r.
    destruct (IH (h ++ [Values l])) as (extra & Hfst & Hsnd);
      [apply load_operations_app, Hops | apply load_values_app, Hpre |].
    destruct (call_many_in (h ++ [Values l]) self ks) as [h2 rs].
    cbn [fst snd] in *. subst h2 rs.
    exists (Values l :: extra). rewrite <- app_assoc. auto.
Qed.

(** C8: an expression as [parse] makes it, with its two lists as new
    objects, is called any number of times, with any bindings.  Each call
    returns what [call] gives for its bindings, so that calls with the same
    bindings return the same; and after the calls the operations and the
    precalculated list of the object, and every other list that was there
    before, are what they were. *)
Theorem call_deterministic_and_pure (h : store V) e (ks : list (dict V)) kwargs :
  let h0 := fst (new_expression h e) in
  let self := snd (new_expression h e) in
  let h1 := fst (call_many_in h0 self ks) in
  snd (call_many_in h0 self ks) = map (call e) ks
  /\ snd (call_in h1 self kwargs) = call e kwargs
  /\ load_operations h1 (operations_ref self) = Ok (operations e)
  /\ load_values h1 (precalculated_ref self) = Ok (precalculated e)
  /\ forall r, (r < length h0)%nat -> nth_error h1 r = nth_error h0 r.
Proof.
  intros h0 self h1.
  assert (Hops : load_operations h0 (operations_ref self) = Ok (operations e)).
  { unfold h0, self, new_expression, allocate, load_operations. cbn [fst snd operations_ref].
    rewrite nth_error_app1 by (rewrite length_app; simpl; lia).
    rewrite nth_error_app2, Nat.sub_diag by lia. reflexivity. }
  assert (Hpre : load_values h0 (precalculated_ref self) = Ok (precalculated e)).
  { unfold h0, self, new_expression, allocate, load_values. cbn [fst snd precalculated_ref].
    rewrite nth_error_app2, Nat.sub_diag by lia. reflexivity. }
  destruct (call_many_in_spec h0 self e ks Hops Hpre) as (extra & Hfst & Hsnd).
  fold h1 in Hfst. rewrite Hfst.
  split; [exact Hsnd|]. split; [|split; [|split]].
  - destruct (call_in_spec (h0 ++ extra) self e kwargs) as (l & _ & H);
      [apply load_operations_app, Hops | apply load_values_app, Hpre | exact H].
  - apply load_operations_app, Hops.
  - apply load_values_app, Hpre.
  - intros r Hr. apply nth_error_app1, Hr.
Qed.
End Evaluator.

(** A witness of [call_missing_variable]: [impl(a, b)] called with [a] bound
    and [b] not. *)
Lemma call_missing_variable_witness :
  call Examples.a_impl_b [(lit "a", 1)] = Raise (KeyError (lit "b")).
Proof.
  apply (call_missing_variable Examples.a_impl_b [(lit "a", 1)] [] []
           Examples.impl [Ref 0 (VariableToken (lit "a"))] [] 2 (lit "b")
           [] [1]); reflexivity.
Defined.

(** ** Blank input *)

Section Blank.
Context {V : Type}.
Implicit Types (p : Parser V).

Lemma append_token_space p (ret : list (Token V)) (c : char) :
  char_isspace c = true -> append_token p ret [c] = Ok ret.
Proof.
  intros Hc. unfold append_token, isspace, forallb. rewrite Hc. reflexivity.
Qed.

Lemma split_loop_blank p (ret : list (Token V)) (s : str) :
  forallb char_isspace s = true ->
  split_loop p (ret, []) s = Ok (ret, []).
Proof.
  induction s as [|c s IH]; simpl; [reflexivity|].
  intros H. apply andb_true_iff in H as [Hc Hs].
  rewrite Hc; simpl. rewrite append_token_space by exact Hc. simpl.
  apply IH, Hs.
Qed.

Lemma split_blank p (s : str) :
  forallb char_isspace s = true -> split p s = Ok [].
Proof.
  intros H. unfold split. rewrite split_loop_blank; [reflexivity|].
  rewrite forallb_app, H. reflexivity.
Qed.

(** C10: a source text that is empty or all white space parses, to the
    expression without operations and without precalculated values, and
    every call of that expression fails: the value space is empty and
    [calc_stack[-1]] raises [IndexError]. *)
Theorem parse_blank p (s : str) :
  forallb char_isspace s = true ->
  exists e,
    parse p s = Ok e
    /\ operations e = []
    /\ precalculated e = []
    /\ forall kwargs, call e kwargs = Raise IndexError.
Proof.
  intros H. exists {| operations := []; precalculated := [] |}.
  unfold parse. rewrite (split_blank p s H). repeat split.
Qed.
End Blank.

(** A witness of [parse_blank]: a space, a tab and a newline. *)
Lemma parse_blank_witness :
  exists e,
    parse Examples.bare [32; 9; 10]%N = Ok e
    /\ operations e = []
    /\ precalculated e = []
    /\ forall kwargs, call e kwargs = Raise IndexError.
Proof.
  apply (parse_blank Examples.bare [32; 9; 10]%N). reflexivity.
Defined.

(** ** The scenario of the specification *)

Section Scenario.
Context {obj : Type}.
Context (obj_binop : Defaults.binop -> Defaults.pyval obj -> Defaults.pyval obj
                     -> result (Defaults.pyval obj))
        (obj_truth : obj -> result bool)
        (py_float : str -> result obj).
Import Defaults.

(** The operators of the default table are what [Operator.__init__] makes
    of the arguments in the source. *)
Lemma defaults_init :
  let init name operator_type func signs priority expected :=
    Operator_init (lit name) operator_type func signs priority = Ok expected in
  init "pow"%string 2 (lambda2 (py_pow obj_binop)) [lit "^"; lit "**"] 0
    (pow obj_binop)
  /\ init "div"%string 2 (lambda2 (py_truediv obj_binop)) [lit "/"] 1 (div obj_binop)
  /\ init "mod"%string 2 (lambda2 (py_mod obj_binop)) [lit "%"] 1 (mod' obj_binop)
  /\ init "mul"%string 2 (lambda2 (py_mul obj_binop)) [lit "*"] 1 (mul obj_binop)
  /\ init "plus"%string 2 (lambda2 (py_add obj_binop)) [lit "+"] 2 (plus obj_binop)
  /\ init "minus"%string 2 (lambda2 (py_sub obj_binop)) [lit "-"] 2 (minus obj_binop)
  /\ init "eq"%string 2 (lambda2 (py_eq obj_binop))
       [lit "=="; [0x21D4%N]; [0x2261%N]; [0x27F7%N]] 3 (eq obj_binop)
  /\ init "not_eq"%string 2 (lambda2 (py_ne obj_binop)) [lit "!="; lit "<>"] 3
       (not_eq obj_binop)
  /\ init "great_eq"%string 2 (lambda2 (py_ge obj_binop)) [lit ">="] 3
       (great_eq obj_binop)
  /\ init "great"%string 2 (lambda2 (py_gt obj_binop)) [lit ">"] 3 (great obj_binop)
  /\ init "less_eq"%string 2 (lambda2 (py_le obj_binop)) [lit "<="] 3
       (less_eq obj_binop)
  /\ init "less"%string 2 (lambda2 (py_lt obj_binop)) [lit "<"] 3 (less obj_binop)
  /\ init "not"%string 1 (lambda1 (py_not obj_truth)) [lit "!"; lit "~"; [0x00AC%N]] 4
       (not_op obj_truth)
  /\ init "and"%string 2 (lambda2 (py_and obj_truth)) [lit "&&"; [0x22C0%N]] 5
       (and_op obj_truth)
  /\ init "or"%string 2 (lambda2 (py_or obj_truth)) [lit "||"; [0x22C1%N]] 6
       (or_op obj_truth)
  /\ init "impl"%string 2 (lambda2 (py_impl obj_truth))
       [lit "->"; [0x21D2%N]; [0x2192%N]] 7 (impl obj_truth).
Proof. cbv zeta. repeat split. Qed.

(** C2: with the default tables, [(True&&a->!False)||8>=8&&8<9] parses to
    an expression whose precalculated list is [True, False, 8, 8, 8, 9],
    and its calls with [a=True] and with [a=False] both return [True]. *)
Theorem parse_deep :
  exists e,
    parse (Defaults.parser obj_binop obj_truth py_float) deep = Ok e
    /\ precalculated e
       = [PBool true; PBool false; PInt 8; PInt 8; PInt 8; PInt 9]
    /\ call e [(lit "a", PBool true)] = Ok (PBool true)
    /\ call e [(lit "a", PBool false)] = Ok (PBool true).
Proof.
  eexists. split; [vm_compute; reflexivity|].
  repeat split; vm_compute; reflexivity.
Qed.
End Scenario.

(** ** Python lists *)

Section Lists.
Context {A : Type}.
Implicit Types (l : list A) (i : Z) (x : A).

Lemma norm_index_Some (len : nat) i (n : nat) :
  norm_index len i = Some n ->
  - Z.of_nat len <= i < Z.of_nat len /\ (n < len)%nat.
Proof.
  unfold norm_index.
  destruct (0 <=? i) eqn:H0; destruct (i <? Z.of_nat len) eqn:H1; simpl;
    try destruct (- Z.of_nat len <=? i) eqn:H2; try destruct (i <? 0) eqn:H3;
    simpl; intros H; inversion H; subst; lia.
Qed.

Lemma length_list_set l (n : nat) x : length (list_set l n x) = length l.
Proof.
  revert n; induction l as [|y l IH]; intros [|n]; simpl; auto.
Qed.

Lemma getitem_Ok l i x :
  getitem l i = Ok x ->
  exists n, norm_index (length l) i = Some n /\ nth_error l n = Some x.
Proof.
  unfold getitem. destruct (norm_index (length l) i) as [n|]; [|discriminate].
  destruct (nth_error l n) eqn:E; [|discriminate].
  intros H; inversion H; subst; eauto.
Qed.

Lemma getitem_range l i x :
  getitem l i = Ok x -> - Z.of_nat (length l) <= i < Z.of_nat (length l).
Proof.
  intros H. apply getitem_Ok in H as (n & H & _).
  apply norm_index_Some in H. tauto.
Qed.

Lemma getitem_Raise l i e : getitem l i = Raise e -> e = IndexError.
Proof.
  unfold getitem. destruct (norm_index (length l) i) as [n|].
  - destruct (nth_error l n); intros H; inversion H; reflexivity.
  - intros H; inversion H; reflexivity.
Qed.

Lemma setitem_Ok l i x l' :
  setitem l i x = Ok l' ->
  exists n, norm_index (length l) i = Some n /\ l' = list_set l n x.
Proof.
  unfold setitem. destruct (norm_index (length l) i) as [n|]; [|discriminate].
  intros H; inversion H; eauto.
Qed.

Lemma setitem_length l i x l' : setitem l i x = Ok l' -> length l' = length l.
Proof.
  intros H. apply setitem_Ok in H as (n & _ & ->). apply length_list_set.
Qed.

Lemma setitem_Raise l i x e : setitem l i x = Raise e -> e = IndexError.
Proof.
  unfold setitem. destruct (norm_index (length l) i);
    intros H; inversion H; reflexivity.
Qed.

End Lists.

(** ** The loops of the resolver raise [IndexError] and [AttributeError] only *)

Section Resolver_errors.
Context {V : Type}.
Implicit Types (twb : list (slot V)) (tokens : list (Token V)).

Lemma raises_only_bind {A B : Type} (P : exn -> Prop) (c : result A)
    (k : A -> result B) :
  raises_only P c -> (forall a, c = Ok a -> raises_only P (k a)) ->
  raises_only P (bind c k).
Proof.
  intros Hc Hk e H. apply bind_Raise in H as [H|(a & Ha & H)].
  - apply Hc, H.
  - eapply Hk; eauto.
Qed.

Lemma raises_only_Ok {A : Type} (P : exn -> Prop) (a : A) :
  raises_only P (Ok a).
Proof. intros e H; discriminate. Qed.

Lemma raises_only_getitem {A : Type} (l : list A) (i : Z) :
  raises_only (@resolver_error) (getitem l i).
Proof. intros e H. left. eapply getitem_Raise, H. Qed.

Lemma raises_only_setitem {A : Type} (l : list A) (i : Z) (x : A) :
  raises_only (@resolver_error) (setitem l i x).
Proof. intros e H. left. eapply setitem_Raise, H. Qed.

Lemma raises_only_operator_at twb (i : Z) :
  raises_only resolver_error (operator_at twb i).
Proof.
  unfold operator_at. apply raises_only_bind; [apply raises_only_getitem|].
  intros [n|id [| | |]] _; try apply raises_only_Ok;
    intros e H; inversion H; right; reflexivity.
Qed.

(** The bound of the [while] loop is never reached: the subscript moves by
    one in each round and leaves the list after at most twice its length. *)
Lemma update_loop_bound (bound : nat) twb (old_value : slot V)
    (side calculation_index i : Z) :
  (1 <= bound)%nat ->
  (- Z.of_nat (length twb) <= i < Z.of_nat (length twb) ->
   (side = 1 /\ Z.of_nat (length twb) - i + 1 <= Z.of_nat bound)
   \/ (side = -1 /\ Z.of_nat (length twb) + i + 2 <= Z.of_nat bound)) ->
  raises_only resolver_error
    (update_loop bound twb old_value side calculation_index i).
Proof.
  revert twb i; induction bound as [|bound IH]; intros twb i Hb Hi; [lia|].
  simpl. destruct (i <? Z.of_nat (length twb)) eqn:Hlt;
    [|apply raises_only_Ok].
  apply raises_only_bind; [apply raises_only_getitem|].
  intros x Hx. destruct (slot_eqb x old_value); [|apply raises_only_Ok].
  apply raises_only_bind; [apply raises_only_setitem|].
  intros twb' Hset. apply setitem_length in Hset.
  apply getitem_range in Hx. specialize (Hi Hx).
  apply IH; [lia | rewrite Hset; lia].
Qed.

Lemma update_last_calc_bound twb (operator_index side calculation_index : Z) :
  side = 1 \/ side = -1 ->
  raises_only resolver_error
    (update_last_calc twb operator_index side calculation_index).
Proof.
  intros Hside. unfold update_last_calc.
  apply raises_only_bind; [apply raises_only_getitem|].
  intros x Hx. apply getitem_range in Hx.
  apply update_loop_bound; lia.
Qed.

Lemma raises_only_resolve_step (n : Z) st (calculation_index operator_index : Z) :
  raises_only (@resolver_error)
    (resolve_step (V:=V) n st calculation_index operator_index).
Proof.
  destruct st as [twb ops]. unfold resolve_step.
  apply raises_only_bind; [apply raises_only_operator_at|].
  intros operator _.
  apply raises_only_bind.
  - destruct (type operator);
      repeat (apply raises_only_bind;
              [first [apply raises_only_getitem
                     | apply update_last_calc_bound; lia]
              | intros ? _]);
      apply raises_only_Ok.
  - intros st' _. apply raises_only_bind; [apply raises_only_setitem|].
    intros ? _. apply raises_only_Ok.
Qed.

Lemma raises_only_resolve_loop (n : Z) st (calculation_index : Z)
    (order : list Z) :
  raises_only (@resolver_error)
    (resolve_loop (V:=V) n st calculation_index order).
Proof.
  revert st calculation_index; induction order as [|i order IH];
    intros st calculation_index; simpl; [apply raises_only_Ok|].
  apply raises_only_bind; [apply raises_only_resolve_step|].
  intros st' _. apply IH.
Qed.

Lemma raises_only_keyed {A : Type} (f : A -> result key) (l : list A) :
  (forall x, raises_only (@resolver_error) (f x)) ->
  raises_only (@resolver_error) (keyed f l).
Proof.
  intros Hf. induction l as [|x l IH]; simpl; [apply raises_only_Ok|].
  apply raises_only_bind; [apply Hf|]. intros k _.
  apply raises_only_bind; [apply IH|]. intros kl _. apply raises_only_Ok.
Qed.

Lemma raises_only_calculation_order (st : scan V) :
  raises_only resolver_error (calculation_order st).
Proof.
  unfold calculation_order, sorted_reverse.
  apply raises_only_bind; [|intros ? _; apply raises_only_Ok].
  apply raises_only_bind; [|intros ? _; apply raises_only_Ok].
  apply raises_only_keyed. intros x. unfold sort_key.
  apply raises_only_bind; [apply raises_only_operator_at|].
  intros ? _; apply raises_only_Ok.
Qed.
End Resolver_errors.

(** ** The balance of the braces *)

Section Braces.
Context {V : Type}.
Implicit Types (tokens : list (Token V)) (st : scan V) (t : Token V).

Lemma count_open_cons t tokens :
  count_open (t :: tokens) = count_open [t] + count_open tokens.
Proof.
  unfold count_open; simpl filter. destruct (is_open t); simpl length; lia.
Qed.

Lemma count_close_cons t tokens :
  count_close (t :: tokens) = count_close [t] + count_close tokens.
Proof.
  unfold count_close; simpl filter. destruct (is_close t); simpl length; lia.
Qed.

(** A round of the first loop counts the brace it meets, and raises when
    the close braces outnumber the open ones. *)
Lemma scan_step_balance st (i : nat) t st' :
  scan_step st i t = Ok st' ->
  close_braces st <= open_braces st -> close_braces st' <= open_braces st'.
Proof.
  destruct t as [name|[|]|operator|value]; simpl;
    try (intros H; inversion H; subst; simpl; lia).
  destruct (open_braces st - (close_braces st + 1) <? 0) eqn:E;
    [discriminate|].
  intros H; inversion H; subst; simpl. lia.
Qed.

Lemma scan_step_counts st (i : nat) t st' :
  scan_step st i t = Ok st' ->
  open_braces st' = open_braces st + count_open [t]
  /\ close_braces st' = close_braces st + count_close [t].
Proof.
  destruct t as [name|[|]|operator|value]; simpl;
    try (intros H; inversion H; subst; simpl;
         unfold count_open, count_close; simpl; lia).
  destruct (open_braces st - (close_braces st + 1) <? 0); [discriminate|].
  intros H; inversion H; subst; simpl.
  unfold count_open, count_close; simpl; lia.
Qed.

Lemma scan_step_Raise st (i : nat) t e :
  scan_step st i t = Raise e ->
  e = UnmatchedCloseBrace
  /\ open_braces st + count_open [t] < close_braces st + count_close [t].
Proof.
  destruct t as [name|[|]|operator|value]; simpl; try discriminate.
  destruct (open_braces st - (close_braces st + 1) <? 0) eqn:E;
    [|discriminate].
  intros H; inversion H; subst. split; [reflexivity|].
  unfold count_open, count_close; simpl. lia.
Qed.

Lemma scan_step_total st (i : nat) t :
  close_braces st + count_close [t] <= open_braces st + count_open [t] ->
  exists st', scan_step st i t = Ok st'.
Proof.
  intros H. destruct (scan_step st i t) as [st'|e] eqn:E; [eauto|].
  apply scan_step_Raise in E. lia.
Qed.

(** The first loop raises at the first close brace without an open one. *)
Lemma scan_loop_exceeds tokens st (i : nat) :
  close_braces st <= open_braces st ->
  (exists n, open_braces st + count_open (firstn n tokens)
             < close_braces st + count_close (firstn n tokens)) ->
  scan_loop st i tokens = Raise UnmatchedCloseBrace.
Proof.
  revert st i; induction tokens as [|t tokens IH]; intros st i Hst [n Hn].
  - rewrite firstn_nil in Hn. unfold count_open, count_close in Hn.
    simpl in Hn. lia.
  - simpl. destruct (scan_step st i t) as [st'|e] eqn:E; simpl.
    + destruct n as [|n];
        [unfold count_open, count_close in Hn; simpl in Hn; lia|].
      simpl in Hn. rewrite count_open_cons, count_close_cons in Hn.
      pose proof (scan_step_counts _ _ _ _ E) as [Ho Hc].
      apply IH.
      * eapply scan_step_balance; eauto.
      * exists n. lia.
    + apply scan_step_Raise in E as [-> _]. reflexivity.
Qed.

(** It ends, with the counts of all the braces, when the close braces
    never outnumber the open ones. *)
Lemma scan_loop_never_exceeds tokens st (i : nat) :
  (forall n, close_braces st + count_close (firstn n tokens)
             <= open_braces st + count_open (firstn n tokens)) ->
  exists st',
    scan_loop st i tokens = Ok st'
    /\ open_braces st' = open_braces st + count_open tokens
    /\ close_braces st' = close_braces st + count_close tokens.
Proof.
  revert st i; induction tokens as [|t tokens IH]; intros st i H.
  - exists st. unfold count_open, count_close; simpl. repeat split; lia.
  - simpl. destruct (scan_step_total st i t) as [st' E].
    { specialize (H 1%nat). simpl in H. exact H. }
    rewrite E; simpl.
    pose proof (scan_step_counts _ _ _ _ E) as [Ho Hc].
    destruct (IH st' (S i)) as (st'' & Hloop & Ho' & Hc').
    { intros n. specialize (H (S n)). simpl in H.
      rewrite count_open_cons, count_close_cons in H. lia. }
    exists st''. rewrite count_open_cons, count_close_cons.
    repeat split; [exact Hloop | lia | lia].
Qed.

Lemma scan_tokens_balanced tokens :
  never_exceeds tokens -> count_open tokens = count_close tokens ->
  exists st, scan_tokens tokens = Ok st.
Proof.
  intros Hnever Htotal.
  destruct (scan_loop_never_exceeds tokens scan_init 0) as (st & E & Ho & Hc).
  { intros n. simpl. apply Hnever. }
  exists st. unfold scan_tokens. rewrite E; simpl.
  simpl in Ho, Hc. rewrite Ho, Hc, Htotal, Z.sub_diag. reflexivity.
Qed.



(** C3: [parse] fails on the braces exactly when they are not balanced.
    Once the close braces outnumber the open braces in the pass from left
    to right it raises the [ParseError] of the close brace without open;
    when that never happens and the totals differ it raises the
    [ParseError] of the open brace without close; and when the braces are
    balanced it raises no [ParseError] at all. *)
Theorem parse_tokens_braces tokens :
  ((exists n, count_open (firstn n tokens) < count_close (firstn n tokens)) ->
   parse_tokens tokens = Raise UnmatchedCloseBrace)
  /\ (never_exceeds tokens -> count_open tokens <> count_close tokens ->
      parse_tokens tokens = Raise UnclosedOpenBrace)
  /\ (never_exceeds tokens -> count_open tokens = count_close tokens ->
      forall msg, parse_tokens tokens <> Raise (ParseError msg)).
Proof.
  split; [|split].
  - intros Hn. unfold parse_tokens, scan_tokens.
    rewrite (scan_loop_exceeds tokens scan_init 0); [reflexivity|simpl; lia|].
    simpl. exact Hn.
  - intros Hnever Htotal. unfold parse_tokens, scan_tokens.
    destruct (scan_loop_never_exceeds tokens scan_init 0) as (st & E & Ho & Hc).
    { intros n. simpl. apply Hnever. }
    rewrite E; simpl. simpl in Ho, Hc.
    destruct (open_braces st - close_braces st =? 0) eqn:E0; [lia|].
    reflexivity.
  - intros Hnever Htotal msg H.
    destruct (scan_tokens_balanced tokens Hnever Htotal) as [st E].
    unfold parse_tokens in H. rewrite E in H; simpl in H.
    assert (Hres : raises_only (@resolver_error)
                     (order <- calculation_order st ;;
                      res <- resolve_loop
                               (Z.of_nat (length (scan_precalculated st)))
                               (tokens_without_braces st, []) 0 order ;;
                      Ok (ParsedExpression_init (snd res)
                            (Some (scan_precalculated st))))).
    { apply raises_only_bind; [apply raises_only_calculation_order|].
      intros order _.
      apply raises_only_bind; [apply raises_only_resolve_loop|].
      intros ? _. apply raises_only_Ok. }
    apply Hres in H. destruct H as [H|H]; discriminate.
Qed.
End Braces.

(** ** The order of resolution *)

Section Order.
Context {V : Type}.
Implicit Types (tokens : list (Token V)) (st : scan V) (a b c : key).

Lemma number_eqb_eq (x y : number) : number_eqb x y = true <-> x = y.
Proof.
  destruct x, y; simpl; try (split; [discriminate | intros H; discriminate H]);
    try tauto.
  rewrite Z.eqb_eq. split; [intros ->; reflexivity | intros H; inversion H; auto].
Qed.

Lemma number_ltb_neg (x y : number) :
  number_ltb (number_neg x) (number_neg y) = number_ltb y x.
Proof.
  destruct x as [x| |], y as [y| |]; simpl; try reflexivity.
  destruct (Z.ltb_spec (- x) (- y)), (Z.ltb_spec y x); try reflexivity; lia.
Qed.

Lemma number_ltb_total (x y : number) :
  number_ltb x y = false -> x <> y -> number_ltb y x = true.
Proof.
  destruct x as [x| |], y as [y| |]; simpl; try congruence.
  intros H Hne. apply Z.ltb_ge in H. apply Z.ltb_lt.
  assert (x <> y) by congruence. lia.
Qed.

Lemma number_ltb_irrefl (x : number) : number_ltb x x = false.
Proof. destruct x; simpl; auto using Z.ltb_irrefl. Qed.

Lemma number_ltb_trans (x y z : number) :
  number_ltb x y = true -> number_ltb y z = true -> number_ltb x z = true.
Proof.
  destruct x, y, z; simpl; try congruence.
  rewrite !Z.ltb_lt; lia.
Qed.

Lemma number_ltb_asym (x y : number) :
  number_ltb x y = true -> number_ltb y x = false.
Proof.
  destruct x, y; simpl; try congruence.
  rewrite Z.ltb_lt, Z.ltb_ge; lia.
Qed.

(** [a < b] on keys, spelled out. *)
Lemma key_ltb_true (a0 b0 : Z) (a1 b1 : number) (a2 b2 : Z) :
  key_ltb (a0, a1, a2) (b0, b1, b2) = true
  <-> a0 < b0 \/ a0 = b0 /\ (number_ltb a1 b1 = true \/ a1 = b1 /\ a2 < b2).
Proof.
  unfold key_ltb. destruct (Z.eqb_spec a0 b0) as [->|Hne]; simpl.
  - destruct (number_eqb a1 b1) eqn:E; simpl.
    + apply number_eqb_eq in E as ->. rewrite Z.ltb_lt, number_ltb_irrefl.
      split; [tauto|]. intros [H|[_ [H|[_ H]]]]; [lia|discriminate|exact H].
    + assert (a1 <> b1) by (intros ->; rewrite (proj2 (number_eqb_eq b1 b1) eq_refl) in E; discriminate).
      split; [tauto|]. intros [H'|[_ [H'|[H' _]]]]; [lia|exact H'|contradiction].
  - rewrite Z.ltb_lt. split; [tauto|]. intros [H|[H _]]; [exact H|contradiction].
Qed.

(** The order of the keys is a strict total order up to equal keys. *)
Lemma key_ltb_asym a b : key_ltb a b = true -> key_ltb b a = false.
Proof.
  destruct a as [[a0 a1] a2], b as [[b0 b1] b2]. intros H.
  apply key_ltb_true in H.
  destruct (key_ltb (b0, b1, b2) (a0, a1, a2)) eqn:E; [|reflexivity].
  apply key_ltb_true in E.
  destruct H as [H|[-> [H|[-> H]]]], E as [E|[E' [E|[E'' E]]]];
    subst; try lia; try (apply number_ltb_asym in H; congruence);
    try (rewrite number_ltb_irrefl in *; discriminate).
Qed.

Lemma key_ltb_trans a b c :
  key_ltb a b = true -> key_ltb b c = true -> key_ltb a c = true.
Proof.
  destruct a as [[a0 a1] a2], b as [[b0 b1] b2], c as [[c0 c1] c2].
  rewrite !key_ltb_true.
  intros [H|[-> [H|[-> H]]]] [E|[E' [E|[E'' E]]]]; subst;
    try (left; lia); right; split; try reflexivity;
    try (left; eauto using number_ltb_trans; fail).
  right. split; [reflexivity | lia].
Qed.

Lemma key_ltb_total a b :
  key_ltb a b = false -> key_ltb b a = false -> a = b.
Proof.
  destruct a as [[a0 a1] a2], b as [[b0 b1] b2]. intros H E.
  assert (Ha : ~ (a0 < b0 \/ a0 = b0 /\ (number_ltb a1 b1 = true \/ a1 = b1 /\ a2 < b2)))
    by (rewrite <- key_ltb_true, H; discriminate).
  assert (Hb : ~ (b0 < a0 \/ b0 = a0 /\ (number_ltb b1 a1 = true \/ b1 = a1 /\ b2 < a2)))
    by (rewrite <- key_ltb_true, E; discriminate).
  assert (a0 = b0)
    by (destruct (Z.lt_trichotomy a0 b0) as [?|[?|?]]; tauto).
  subst b0.
  assert (a1 = b1).
  { destruct (number_ltb a1 b1) eqn:E1; [tauto|].
    destruct (number_eqb a1 b1) eqn:E2; [apply number_eqb_eq, E2|].
    exfalso. apply Hb. right. split; [reflexivity|]. left.
    apply number_ltb_total; [exact E1|].
    intros ->. rewrite (proj2 (number_eqb_eq b1 b1) eq_refl) in E2. discriminate. }
  subst b1.
  assert (a2 = b2)
    by (destruct (Z.lt_trichotomy a2 b2) as [?|[?|?]]; tauto).
  congruence.
Qed.

(** Not less is transitive. *)
Lemma key_geb_trans a b c :
  key_ltb a b = false -> key_ltb b c = false -> key_ltb a c = false.
Proof.
  intros H E. destruct (key_ltb a c) eqn:F; [|reflexivity].
  destruct (key_ltb c b) eqn:G.
  - rewrite (key_ltb_trans a c b F G) in H. discriminate.
  - assert (b = c) by (apply key_ltb_total; assumption). subst c.
    congruence.
Qed.
End Order.

Section Sorting.
Context {A : Type}.
Implicit Types (x y : key * A) (l : list (key * A)).

Lemma insert_reverse_perm x l : Permutation (x :: l) (insert_reverse x l).
Proof.
  induction l as [|y l IH]; simpl; [apply Permutation_refl|].
  destruct (key_ltb (fst x) (fst y)); [|apply Permutation_refl].
  eapply Permutation_trans; [apply perm_swap|].
  apply perm_skip, IH.
Qed.

Lemma insert_reverse_sorted x l :
  StronglySorted key_geb l -> StronglySorted key_geb (insert_reverse x l).
Proof.
  induction 1 as [|y l Hl IH Hy]; simpl.
  - constructor; constructor.
  - destruct (key_ltb (fst x) (fst y)) eqn:E.
    + constructor; [exact IH|].
      apply Forall_forall. intros z Hz.
      apply (Permutation_in _ (Permutation_sym (insert_reverse_perm x l))) in Hz.
      destruct Hz as [<-|Hz].
      * apply key_ltb_asym, E.
      * rewrite Forall_forall in Hy. apply Hy, Hz.
    + constructor; [constructor; assumption|].
      constructor; [exact E|].
      eapply Forall_impl; [|exact Hy].
      intros z Hz. eapply key_geb_trans; eauto.
Qed.

Lemma sort_reverse_perm l : Permutation l (fold_right insert_reverse [] l).
Proof.
  induction l as [|x l IH]; simpl; [constructor|].
  eapply Permutation_trans; [|apply insert_reverse_perm].
  apply perm_skip, IH.
Qed.

Lemma sort_reverse_sorted l : StronglySorted key_geb (fold_right insert_reverse [] l).
Proof.
  induction l as [|x l IH]; simpl; [constructor|].
  apply insert_reverse_sorted, IH.
Qed.
End Sorting.

Section Occurrences.
Context {V : Type}.
Implicit Types (tokens : list (Token V)) (st : scan V) (o : occurrence V).

Lemma getitem_middle {A : Type} (l1 l2 : list A) (x : A) :
  getitem (l1 ++ x :: l2) (Z.of_nat (length l1)) = Ok x.
Proof.
  unfold getitem, norm_index. rewrite length_app; simpl.
  rewrite (proj2 (Z.leb_le 0 (Z.of_nat (length l1)))) by lia.
  rewrite (proj2 (Z.ltb_lt (Z.of_nat (length l1)) _)) by lia.
  simpl. rewrite Nat2Z.id, nth_error_app2, Nat.sub_diag by lia. reflexivity.
Qed.

(** The positions of the occurrences increase from left to right. *)
Lemma occurrences_from_position (depth position : Z) tokens o :
  In o (occurrences_from depth position tokens) -> position <= occ_position o.
Proof.
  revert depth position; induction tokens as [|t tokens IH];
    intros depth position; simpl; [tauto|].
  destruct t as [name|[|]|operator|value]; simpl; intros H;
    try (apply IH in H; lia).
  destruct H as [<-|H]; simpl; [lia | apply IH in H; lia].
Qed.

Lemma occurrences_from_NoDup (depth position : Z) tokens :
  NoDup (map occ_position (occurrences_from depth position tokens)).
Proof.
  revert depth position; induction tokens as [|t tokens IH];
    intros depth position; simpl; [constructor|].
  destruct t as [name|[|]|operator|value]; simpl; auto.
  constructor; [|apply IH].
  intros H. apply in_map_iff in H as (o & Ho & H).
  apply occurrences_from_position in H. lia.
Qed.

Lemma length_snoc {A : Type} (l : list A) (x : A) :
  Z.of_nat (length (l ++ [x])) = Z.of_nat (length l) + 1.
Proof. rewrite length_app; simpl; lia. Qed.

(** What the first loop of [parse] adds to the lists it builds. *)
Lemma scan_loop_lists tokens st (i : nat) st' (d p n : Z) :
  scan_loop st i tokens = Ok st' ->
  p = Z.of_nat (length (tokens_without_braces st)) ->
  p = Z.of_nat i - (open_braces st + close_braces st) ->
  d = open_braces st - close_braces st ->
  n = Z.of_nat (length (scan_precalculated st)) ->
  tokens_without_braces st'
  = tokens_without_braces st ++ stripped_from i n tokens
  /\ scan_precalculated st' = scan_precalculated st ++ constants_of tokens
  /\ operators_data st'
     = operators_data st ++ map data_of (occurrences_from d p tokens).
Proof.
  revert st i d p n; induction tokens as [|t tokens IH];
    intros st i d p n H Hp Hi Hd Hn.
  - inversion H; subst. simpl. rewrite !app_nil_r. auto.
  - simpl in H. bind_ok H. rename a into st1.
    destruct t as [name|[|]|operator|value]; simpl in Ha;
      try (destruct (open_braces st - (close_braces st + 1) <? 0);
           [discriminate|]);
      inversion Ha; subst st1; clear Ha;
      cbn [stripped_from constants_of occurrences_from map].
    + destruct (IH _ _ d (p + 1) n H) as (H1 & H2 & H3);
        cbn [tokens_without_braces open_braces close_braces operators_data
             scan_precalculated] in *; rewrite ?length_snoc; try lia.
      rewrite H1, H2, H3, <- !app_assoc. auto.
    + destruct (IH _ _ (d + 1) p n H) as (H1 & H2 & H3);
        cbn [tokens_without_braces open_braces close_braces operators_data
             scan_precalculated] in *; rewrite ?length_snoc; try lia.
      rewrite H1, H2, H3. auto.
    + destruct (IH _ _ (d - 1) p n H) as (H1 & H2 & H3);
        cbn [tokens_without_braces open_braces close_braces operators_data
             scan_precalculated] in *; rewrite ?length_snoc; try lia.
      rewrite H1, H2, H3. auto.
    + destruct (IH _ _ d (p + 1) n H) as (H1 & H2 & H3);
        cbn [tokens_without_braces open_braces close_braces operators_data
             scan_precalculated] in *; rewrite ?length_snoc; try lia.
      rewrite H1, H2, H3, <- !app_assoc. unfold data_of at 2; simpl.
      subst d p. rewrite Hi. auto.
    + destruct (IH _ _ d (p + 1) (n + 1) H) as (H1 & H2 & H3);
        cbn [tokens_without_braces open_braces close_braces operators_data
             scan_precalculated] in *; rewrite ?length_snoc; try lia.
      rewrite H1, H2, H3, <- !app_assoc. simpl.
      rewrite length_snoc.
      replace (Z.of_nat (length (scan_precalculated st)) + 1 - 1) with n by lia.
      auto.
Qed.
End Occurrences.

Section Resolution_order.
Context {V : Type}.
Implicit Types (tokens : list (Token V)) (st : scan V) (o : occurrence V).

(** Every occurrence finds its operator at its position among the tokens
    without braces. *)
Lemma operator_at_occurrence (prefix : list (slot V)) (i : nat) (n d : Z)
    tokens o :
  In o (occurrences_from d (Z.of_nat (length prefix)) tokens) ->
  operator_at (prefix ++ stripped_from i n tokens) (occ_position o)
  = Ok (occ_operator o).
Proof.
  revert prefix i n d; induction tokens as [|t tokens IH];
    intros prefix i n d; [intros []|].
  assert (Hsnoc : forall (x : slot V) rest,
             prefix ++ x :: rest = (prefix ++ [x]) ++ rest)
    by (intros; rewrite <- app_assoc; reflexivity).
  destruct t as [name|[|]|operator|value];
    cbn [stripped_from occurrences_from].
  - rewrite Hsnoc, <- length_snoc with (x := Ref i (VariableToken name)).
    apply IH.
  - apply IH.
  - apply IH.
  - intros [<-|H].
    + unfold operator_at. cbn [occ_position occ_operator].
      rewrite getitem_middle. reflexivity.
    + revert H.
      rewrite Hsnoc, <- length_snoc with (x := Ref i (OperatorToken operator)).
      apply IH.
  - rewrite Hsnoc, <- length_snoc with (x := Calc n : slot V).
    apply IH.
Qed.

(** The keys of the sort are the keys of the occurrences. *)
Lemma keyed_occurrences tokens :
  keyed (sort_key (stripped_from 0 0 tokens)) (map data_of (occurrences tokens))
  = Ok (map (fun o => (key_of o, data_of o)) (occurrences tokens)).
Proof.
  assert (H : forall (f : occurrence V -> Z * Z) (g : occurrence V -> key)
                (l : list (occurrence V)),
             (forall o, In o l ->
                        sort_key (stripped_from 0 0 tokens) (f o) = Ok (g o)) ->
             keyed (sort_key (stripped_from 0 0 tokens)) (map f l)
             = Ok (map (fun o => (g o, f o)) l)).
  { intros f g l Hl. induction l as [|o l IH]; simpl; [reflexivity|].
    rewrite (Hl o (or_introl eq_refl)), IH; [reflexivity|].
    intros y Hy. apply Hl. right. exact Hy. }
  apply H. intros o Ho. unfold sort_key.
  pose proof (operator_at_occurrence [] 0 0 0 tokens o Ho) as Hop.
  simpl in Hop. unfold data_of; cbn [snd fst]. rewrite Hop. reflexivity.
Qed.

(** In a list sorted by the keys, occurrences at different positions stand
    in the order of resolution. *)
Lemma sorted_resolves (l : list (occurrence V)) :
  StronglySorted (fun a b => key_ltb (key_of a) (key_of b) = false) l ->
  NoDup (map occ_position l) ->
  StronglySorted resolves_before l.
Proof.
  induction 1 as [|a l Hl IH Ha]; intros Hnd; [constructor|].
  inversion Hnd as [|? ? Hnotin Hnd']; subst.
  constructor; [apply IH, Hnd'|].
  apply Forall_forall. intros b Hb.
  rewrite Forall_forall in Ha. specialize (Ha b Hb).
  assert (Hpos : occ_position a <> occ_position b).
  { intros E. apply Hnotin. rewrite E. apply in_map, Hb. }
  revert Ha Hpos. unfold key_of, resolves_before.
  generalize (occ_depth a) (occ_priority a) (occ_position a)
             (occ_depth b) (occ_priority b) (occ_position b).
  intros da pa xa db pb xb Ha Hpos.
  assert (Hn : ~ (da < db \/ da = db
                  /\ (number_ltb (number_neg pa) (number_neg pb) = true
                      \/ number_neg pa = number_neg pb /\ - xa < - xb)))
    by (rewrite <- key_ltb_true, Ha; discriminate).
  rewrite number_ltb_neg in Hn.
  destruct (Z.lt_trichotomy da db) as [Hd|[Hd|Hd]]; [tauto| |left; exact Hd].
  right. split; [exact Hd|].
  destruct (number_ltb pa pb) eqn:E1; [left; reflexivity|].
  assert (Hp : pa = pb).
  { destruct (number_eqb pa pb) eqn:E2; [apply number_eqb_eq, E2|].
    exfalso. apply Hn. right. split; [exact Hd|]. left.
    apply number_ltb_total; [exact E1|].
    intros ->. rewrite (proj2 (number_eqb_eq pb pb) eq_refl) in E2.
    discriminate. }
  right. split; [exact Hp|]. subst pb.
  destruct (Z.lt_trichotomy xa xb) as [Hx|[Hx|Hx]]; [exact Hx|contradiction|].
  exfalso. apply Hn. right. split; [exact Hd|]. right. split; [reflexivity|lia].
Qed.

(** What the first loop and the check of the totals leave behind. *)
Lemma scan_tokens_lists tokens st :
  scan_tokens tokens = Ok st ->
  tokens_without_braces st = stripped_from 0 0 tokens
  /\ scan_precalculated st = constants_of tokens
  /\ operators_data st = map data_of (occurrences tokens).
Proof.
  unfold scan_tokens. intros H. bind_ok H. rename a into st1.
  destruct (negb (open_braces st1 - close_braces st1 =? 0)); [discriminate|].
  inversion H; subst st1.
  apply (scan_loop_lists tokens scan_init 0 st 0 0 0) in Ha;
    try reflexivity.
  exact Ha.
Qed.

(** The sort of [parse] on the occurrences of the operators. *)
Lemma calculation_order_occurrences tokens st :
  scan_tokens tokens = Ok st ->
  exists occs,
    Permutation (occurrences tokens) occs
    /\ StronglySorted resolves_before occs
    /\ calculation_order st = Ok (map occ_position occs).
Proof.
  intros Hscan.
  destruct (scan_tokens_lists tokens st Hscan) as (Htwb & _ & Hdata).
  pose proof (keyed_occurrences tokens) as Hkeyed.
  set (kl := map (fun o => (key_of o, data_of o)) (occurrences tokens)) in *.
  pose proof (sort_reverse_perm kl) as Hperm.
  pose proof (sort_reverse_sorted kl) as Hsorted.
  destruct (Permutation_map_inv _ _ (Permutation_sym Hperm))
    as (occs & Hoccs & Hp).
  exists occs. split; [exact Hp|]. split.
  - apply sorted_resolves.
    + rewrite Hoccs in Hsorted. clear - Hsorted.
      induction occs as [|a occs IH]; [constructor|].
      simpl in Hsorted. inversion Hsorted as [|? ? Hs Hf]; subst.
      constructor; [apply IH, Hs|].
      rewrite Forall_map in Hf. exact Hf.
    + eapply Permutation_NoDup; [apply Permutation_map, Hp|].
      apply occurrences_from_NoDup.
  - unfold calculation_order, sorted_reverse.
    rewrite Htwb, Hdata, Hkeyed. cbn [bind]. fold kl. rewrite Hoccs.
    rewrite !map_map. reflexivity.
Qed.
End Resolution_order.

(** ** The last loop of [parse] *)

Section Resolver.
Context {V : Type}.
Implicit Types (twb orig : list (slot V)) (tokens : list (Token V))
  (ops : list (Operator V * list (slot V))).

Lemma slot_kept_mono (bound bound' : Z) (x0 x : slot V) :
  bound <= bound' -> slot_kept bound x0 x -> slot_kept bound' x0 x.
Proof. destruct x; simpl; [lia | auto]. Qed.

Lemma slot_kept_below (bound : Z) (x0 x : slot V) :
  slot_kept bound x0 x -> operand_below bound x.
Proof. destruct x; simpl; auto. Qed.

Lemma slot_kept_refl (bound : Z) (l : list (slot V)) :
  Forall (operand_below bound) l -> Forall2 (slot_kept bound) l l.
Proof.
  induction 1 as [|x l Hx Hl IH]; constructor; [|exact IH].
  destruct x; simpl in *; auto.
Qed.

Lemma Forall2_list_set {A B : Type} (R : A -> B -> Prop) (l0 : list A)
    (l : list B) (n : nat) (x : B) :
  (forall x0, R x0 x) -> Forall2 R l0 l -> Forall2 R l0 (list_set l n x).
Proof.
  intros Hx H. revert n; induction H as [|x0 y l0 l Hy Hl IH]; intros [|n];
    simpl; constructor; auto.
Qed.

Lemma Forall2_nth_error_r {A B : Type} (R : A -> B -> Prop) (l0 : list A)
    (l : list B) (n : nat) (x : B) :
  Forall2 R l0 l -> nth_error l n = Some x ->
  exists x0, nth_error l0 n = Some x0 /\ R x0 x.
Proof.
  intros H. revert n; induction H as [|x0 y l0 l Hy Hl IH]; intros [|n];
    simpl; try discriminate.
  - intros E; inversion E; subst; eauto.
  - apply IH.
Qed.

Lemma getitem_kept (bound : Z) orig twb (i : Z) (x : slot V) :
  Forall2 (slot_kept bound) orig twb -> getitem twb i = Ok x ->
  exists x0, getitem orig i = Ok x0 /\ slot_kept bound x0 x.
Proof.
  intros H Hx. apply getitem_Ok in Hx as (n & Hn & Hx).
  destruct (Forall2_nth_error_r _ _ _ _ _ H Hx) as (x0 & Hx0 & Hk).
  exists x0. split; [|exact Hk].
  unfold getitem. rewrite (Forall2_length H), Hn, Hx0. reflexivity.
Qed.

Lemma setitem_kept (bound : Z) orig twb (i n : Z) twb' :
  Forall2 (slot_kept bound) orig twb -> 0 <= n < bound ->
  setitem twb i (Calc n) = Ok twb' ->
  Forall2 (slot_kept bound) orig twb'.
Proof.
  intros H Hn Hset. apply setitem_Ok in Hset as (m & _ & ->).
  apply Forall2_list_set; [|exact H]. intros x0. exact Hn.
Qed.

Lemma update_loop_kept (bound : Z) (rounds : nat) orig twb
    (old_value : slot V) (side calculation_index i : Z) twb' :
  Forall2 (slot_kept bound) orig twb -> 0 <= calculation_index < bound ->
  update_loop rounds twb old_value side calculation_index i = Ok twb' ->
  Forall2 (slot_kept bound) orig twb'.
Proof.
  revert twb i; induction rounds as [|rounds IH]; intros twb i H Hc;
    simpl; [discriminate|].
  destruct (i <? Z.of_nat (length twb)); [|intros E; inversion E; subst; exact H].
  intros E. bind_ok E.
  destruct (slot_eqb a old_value); [|inversion E; subst; exact H].
  bind_ok E. eapply IH; [|exact Hc|exact E].
  eapply setitem_kept; [exact H|exact Hc|exact Ha0].
Qed.

Lemma update_last_calc_kept (bound : Z) orig twb
    (operator_index side calculation_index : Z) twb' :
  Forall2 (slot_kept bound) orig twb -> 0 <= calculation_index < bound ->
  update_last_calc twb operator_index side calculation_index = Ok twb' ->
  Forall2 (slot_kept bound) orig twb'.
Proof.
  intros H Hc E. unfold update_last_calc in E. bind_ok E.
  eapply update_loop_kept; eauto.
Qed.

Lemma operator_at_kept (bound : Z) orig twb (i : Z) (operator : Operator V) :
  Forall2 (slot_kept bound) orig twb ->
  operator_at twb i = Ok operator -> operator_at orig i = Ok operator.
Proof.
  intros H E. unfold operator_at in *. bind_ok E.
  destruct (getitem_kept _ _ _ _ _ H Ha) as (x0 & Hx0 & Hk).
  destruct a as [n|id t]; [discriminate|].
  simpl in Hk. subst x0. rewrite Hx0. exact E.
Qed.

(** One round: the new operation has the operator that the tokens had at
    the place, its operands are below the subscript of its own result, and
    that subscript is the only new integer among the tokens. *)
Lemma resolve_step_kept (n k : Z) orig twb ops (operator_index : Z) twb' ops' :
  Forall2 (slot_kept (n + k)) orig twb -> 0 <= n + k ->
  resolve_step n (twb, ops) k operator_index = Ok (twb', ops') ->
  Forall2 (slot_kept (n + k + 1)) orig twb'
  /\ exists operator args,
       ops' = ops ++ [(operator, args)]
       /\ Forall (operand_below (n + k)) args
       /\ operator_at orig operator_index = Ok operator.
Proof.
  intros H Hk E. unfold resolve_step in E. bind_ok E. rename a into operator.
  bind_ok E. destruct a as [twb1 ops1].
  bind_ok E. rename a into twb2. inversion E; subst twb' ops'; clear E.
  cbn [fst snd] in *.
  assert (H' : Forall2 (slot_kept (n + k + 1)) orig twb).
  { eapply Forall2_impl; [|exact H]. intros x0 x. apply slot_kept_mono. lia. }
  assert (Hget : forall i x, getitem twb i = Ok x -> operand_below (n + k) x).
  { intros i x Hx. destruct (getitem_kept _ _ _ _ _ H Hx) as (x0 & _ & Hx0).
    eapply slot_kept_below, Hx0. }
  assert (Hop := operator_at_kept _ _ _ _ _ H Ha).
  destruct (type operator).
  - bind_ok Ha0. rename a into arg. bind_ok Ha0. rename a into twb3.
    inversion Ha0; subst twb1 ops1; clear Ha0.
    split.
    + eapply setitem_kept; [| |exact Ha1]; [|lia].
      eapply update_last_calc_kept; [exact H'| |exact Ha3]; lia.
    + exists operator, [arg]. repeat split; [|exact Hop].
      constructor; [eapply Hget, Ha2|constructor].
  - bind_ok Ha0. rename a into arg1. bind_ok Ha0. rename a into arg2.
    bind_ok Ha0. rename a into twb3. bind_ok Ha0. rename a into twb4.
    inversion Ha0; subst twb1 ops1; clear Ha0.
    split.
    + eapply setitem_kept; [| |exact Ha1]; [|lia].
      eapply update_last_calc_kept; [| |exact Ha5]; [|lia].
      eapply update_last_calc_kept; [exact H'| |exact Ha4]; lia.
    + exists operator, [arg1; arg2]. repeat split; [|exact Hop].
      constructor; [eapply Hget, Ha2|].
      constructor; [eapply Hget, Ha3|constructor].
Qed.

(** The loop: the operations it adds follow [order], and the operands of
    each are below the subscript of its result. *)
Lemma resolve_loop_kept (n k : Z) orig twb ops (order : list Z) twb' ops' :
  Forall2 (slot_kept (n + k)) orig twb -> 0 <= n + k ->
  resolve_loop n (twb, ops) k order = Ok (twb', ops') ->
  exists new,
    ops' = ops ++ new
    /\ operands_bounded n k new
    /\ Forall2 (fun operator_index operation =>
                  operator_at orig operator_index = Ok (fst operation))
         order new.
Proof.
  revert k twb ops; induction order as [|operator_index order IH];
    intros k twb ops H Hk E; simpl in E.
  - inversion E; subst. exists []. rewrite app_nil_r.
    repeat split. constructor.
  - bind_ok E. destruct a as [twb1 ops1].
    destruct (resolve_step_kept _ _ _ _ _ _ _ _ H Hk Ha)
      as (H1 & operator & args & -> & Hargs & Hop).
    replace (n + k + 1) with (n + (k + 1)) in H1 by lia.
    destruct (IH _ _ _ H1 ltac:(lia) E) as (new & -> & Hb & Hf).
    exists ((operator, args) :: new). rewrite <- app_assoc.
    repeat split; [exact Hargs | exact Hb |].
    constructor; [exact Hop | exact Hf].
Qed.

Lemma stripped_from_below (i : nat) (n : Z) tokens :
  0 <= n ->
  Forall (operand_below (n + Z.of_nat (length (constants_of tokens))))
    (stripped_from i n tokens).
Proof.
  revert i n; induction tokens as [|t tokens IH]; intros i n Hn;
    [constructor|].
  destruct t as [name|which|operator|value];
    cbn [stripped_from constants_of length].
  - constructor; [exact I | apply IH, Hn].
  - apply IH, Hn.
  - constructor; [exact I | apply IH, Hn].
  - constructor; [simpl; lia|].
    replace (n + Z.of_nat (S (length (constants_of tokens))))
      with (n + 1 + Z.of_nat (length (constants_of tokens))) by lia.
    apply IH. lia.
Qed.

(** What [parse] returns, in terms of the tokens. *)
Lemma parse_tokens_Ok tokens (e : ParsedExpression V) :
  parse_tokens tokens = Ok e ->
  exists st order,
    scan_tokens tokens = Ok st
    /\ calculation_order st = Ok order
    /\ precalculated e = constants_of tokens
    /\ operands_bounded (Z.of_nat (length (precalculated e))) 0 (operations e)
    /\ Forall2 (fun operator_index operation =>
                  operator_at (stripped_from 0 0 tokens) operator_index
                  = Ok (fst operation))
         order (operations e).
Proof.
  intros E. unfold parse_tokens in E. bind_ok E. rename a into st.
  bind_ok E. rename a into order. bind_ok E. destruct a as [twb' ops'].
  inversion E; subst e; clear E. cbn [snd operations precalculated ParsedExpression_init].
  destruct (scan_tokens_lists tokens st Ha) as (Htwb & Hpre & _).
  exists st, order. repeat split; auto.
  - rewrite Htwb, Hpre in Ha1.
    eapply resolve_loop_kept in Ha1 as (new & -> & Hb & _).
    + rewrite Hpre. exact Hb.
    + rewrite Z.add_0_r. apply slot_kept_refl.
      apply (stripped_from_below 0 0 tokens). lia.
    + lia.
  - rewrite Htwb, Hpre in Ha1.
    eapply resolve_loop_kept in Ha1 as (new & -> & _ & Hf).
    + exact Hf.
    + rewrite Z.add_0_r. apply slot_kept_refl.
      apply (stripped_from_below 0 0 tokens). lia.
    + lia.
Qed.
End Resolver.

Section Resolution.
Context {V : Type}.
Implicit Types (tokens : list (Token V)) (st : scan V) (o : occurrence V)
  (e : ParsedExpression V).

Lemma operators_follow_order (orig : list (slot V)) (occs : list (occurrence V))
    (ops : list (Operator V * list (slot V))) :
  Forall2 (fun operator_index operation =>
             operator_at orig operator_index = Ok (fst operation))
    (map occ_position occs) ops ->
  (forall o, In o occs -> operator_at orig (occ_position o) = Ok (occ_operator o)) ->
  map fst ops = map occ_operator occs.
Proof.
  revert ops; induction occs as [|o occs IH]; intros ops H Hocc;
    inversion H as [|? operation ? ops' Ho Hrest]; subst; [reflexivity|].
  simpl. rewrite (Hocc o (or_introl eq_refl)) in Ho. inversion Ho as [Hfst].
  f_equal. apply IH; [exact Hrest|].
  intros o' Ho'. apply Hocc. right. exact Ho'.
Qed.

(** C1, as the code has it: the order in which [parse] resolves the
    occurrences of the operators is a rearrangement of all of them in
    which, of any two, the one that comes first is deeper in the braces,
    or at the same depth and of lower priority number, or at the same
    depth and priority and further to the left; the operations of the
    parsed expression are recorded in that order. *)
Theorem resolution_order tokens st :
  scan_tokens tokens = Ok st ->
  exists occs,
    Permutation (occurrences tokens) occs
    /\ StronglySorted resolves_before occs
    /\ calculation_order st = Ok (map occ_position occs)
    /\ forall e, parse_tokens tokens = Ok e ->
                 map fst (operations e) = map occ_operator occs.
Proof.
  intros Hscan.
  destruct (calculation_order_occurrences tokens st Hscan)
    as (occs & Hperm & Hsorted & Horder).
  exists occs. repeat split; auto.
  intros e He.
  destruct (parse_tokens_Ok tokens e He)
    as (st' & order & Hscan' & Horder' & _ & _ & Hf).
  rewrite Hscan in Hscan'. inversion Hscan'; subst st'.
  rewrite Horder in Horder'. inversion Horder'; subst order.
  eapply operators_follow_order; [exact Hf|].
  intros o Ho. apply (Permutation_in _ (Permutation_sym Hperm)) in Ho.
  apply (operator_at_occurrence [] 0 0 0 tokens o Ho).
Qed.

Lemma stripped_from_app (i : nat) (n : Z) (tokens1 tokens2 : list (Token V)) :
  stripped_from i n (tokens1 ++ tokens2)
  = stripped_from i n tokens1
    ++ stripped_from (i + length tokens1)
         (n + Z.of_nat (length (constants_of tokens1))) tokens2.
Proof.
  revert i n; induction tokens1 as [|t tokens1 IH]; intros i n.
  - simpl. rewrite Nat.add_0_r, Z.add_0_r. reflexivity.
  - destruct t as [name|which|operator|value];
      cbn [app stripped_from constants_of length]; rewrite IH;
      rewrite ?Nat.add_succ_r; cbn [plus app]; try reflexivity.
    replace (n + 1 + Z.of_nat (length (constants_of tokens1)))
      with (n + Z.of_nat (S (length (constants_of tokens1)))) by lia.
    reflexivity.
Qed.

Lemma constants_of_app (tokens1 tokens2 : list (Token V)) :
  constants_of (tokens1 ++ tokens2)
  = constants_of tokens1 ++ constants_of tokens2.
Proof.
  induction tokens1 as [|t tokens1 IH]; [reflexivity|].
  destruct t; simpl; rewrite IH; reflexivity.
Qed.

(** C4, as the code has it: the precalculated list holds the value of
    every occurrence of a constant in the input, in the order of the
    input, once for each occurrence; the occurrence is referred to by the
    subscript of its value, which is the number of constants before it. *)
Theorem precalculated_per_occurrence tokens e :
  parse_tokens tokens = Ok e ->
  precalculated e = constants_of tokens
  /\ forall tokens1 value tokens2,
       tokens = tokens1 ++ ConstantToken value :: tokens2 ->
       nth_error (precalculated e) (length (constants_of tokens1)) = Some value
       /\ exists st,
            scan_tokens tokens = Ok st
            /\ nth_error (tokens_without_braces st)
                 (length (stripped_from 0 0 tokens1))
               = Some (Calc (Z.of_nat (length (constants_of tokens1)))).
Proof.
  intros He.
  destruct (parse_tokens_Ok tokens e He) as (st & order & Hscan & _ & Hpre & _).
  split; [exact Hpre|].
  intros tokens1 value tokens2 ->. split.
  - rewrite Hpre, constants_of_app. cbn [constants_of].
    rewrite nth_error_app2, Nat.sub_diag by lia. reflexivity.
  - exists st. split; [exact Hscan|].
    destruct (scan_tokens_lists _ _ Hscan) as (-> & _ & _).
    rewrite stripped_from_app. cbn [stripped_from].
    rewrite nth_error_app2, Nat.sub_diag by lia. reflexivity.
Qed.

Lemma getitem_in_range {A : Type} (l : list A) (i : Z) :
  0 <= i < Z.of_nat (length l) -> exists x, getitem l i = Ok x.
Proof.
  intros Hi. unfold getitem, norm_index.
  rewrite (proj2 (Z.leb_le 0 i)), (proj2 (Z.ltb_lt i _)) by lia. simpl.
  destruct (nth_error l (Z.to_nat i)) eqn:E; [eauto|].
  apply nth_error_None in E. lia.
Qed.

(** The arguments of a call need the bindings and nothing of the value
    space beyond its length. *)
Lemma arguments_failure (all : list (Operator V * list (slot V)))
    (kwargs : dict V) (stack : list V) (params : list (slot V)) :
  Forall (operand_below (Z.of_nat (length stack))) params ->
  raises_only (call_failure all kwargs) (arguments stack kwargs params).
Proof.
  induction 1 as [|param params Hp Hps IH]; simpl; [apply raises_only_Ok|].
  apply raises_only_bind.
  - destruct param as [n|id [name| | |]]; simpl.
    + destruct (getitem_in_range stack n Hp) as [x ->]. apply raises_only_Ok.
    + destruct (dict_get kwargs name) eqn:E; [apply raises_only_Ok|].
      intros err Herr. inversion Herr; subst. left. eauto.
    + intros err Herr. inversion Herr. right. left. reflexivity.
    + intros err Herr. inversion Herr. right. left. reflexivity.
    + intros err Herr. inversion Herr. right. left. reflexivity.
  - intros v _. apply raises_only_bind; [exact IH|].
    intros vs _. apply raises_only_Ok.
Qed.

Lemma call_loop_failure (all ops : list (Operator V * list (slot V)))
    (kwargs : dict V) (stack : list V) (n k0 : Z) :
  operands_bounded n k0 ops ->
  Z.of_nat (length stack) = n + k0 ->
  (forall operation, In operation ops -> In operation all) ->
  raises_only (call_failure all kwargs) (call_loop ops kwargs stack).
Proof.
  revert stack k0; induction ops as [|operation ops IH];
    intros stack k0 Hb Hlen Hall; simpl; [apply raises_only_Ok|].
  destruct Hb as [Hargs Hb].
  apply raises_only_bind.
  - apply arguments_failure. rewrite Hlen. exact Hargs.
  - intros args _. apply raises_only_bind.
    + intros err Herr. right. right. exists operation, args.
      split; [apply Hall; left; reflexivity | exact Herr].
    + intros v _. apply (IH _ (k0 + 1)); [exact Hb| |].
      * rewrite length_snoc. lia.
      * intros o Ho. apply Hall. right. exact Ho.
Qed.

(** C9, as the code has it: in an expression that [parse] returns, every
    operand of the [k]-th operation that is an integer is a subscript from
    0 up to, and without, [len(precalculated) + k]; so the loop of a call
    finds every such operand in the value space, and fails only for a
    variable without binding, for an operand that is an operator token or
    in the function of an operator. *)
Theorem operands_in_value_space tokens e :
  parse_tokens tokens = Ok e ->
  operands_bounded (Z.of_nat (length (precalculated e))) 0 (operations e)
  /\ forall kwargs,
       raises_only (call_failure (operations e) kwargs)
         (call_loop (operations e) kwargs (deepcopy (precalculated e))).
Proof.
  intros He.
  destruct (parse_tokens_Ok tokens e He) as (st & order & _ & _ & _ & Hb & _).
  split; [exact Hb|].
  intros kwargs.
  eapply call_loop_failure; [exact Hb | unfold deepcopy; lia | auto].
Qed.
End Resolution.

(** ** The properties on the examples *)

(** A witness of [resolution_order]: the tokens of [a -> b -> c]. *)
Lemma resolution_order_witness :
  scan_tokens Examples.chain = Ok Examples.chain_scan
  /\ exists occs,
       Permutation (occurrences Examples.chain) occs
       /\ StronglySorted resolves_before occs
       /\ calculation_order Examples.chain_scan = Ok (map occ_position occs)
       /\ forall e, parse_tokens Examples.chain = Ok e ->
                    map fst (operations e) = map occ_operator occs.
Proof.
  split; [reflexivity|].
  apply (resolution_order Examples.chain Examples.chain_scan). reflexivity.
Defined.

(** C1, as the specification has it, fails on [a -> b -> c]: the two
    occurrences of [->] have the same depth and priority, and the one on the
    left, not the one on the right, is resolved first. *)
Lemma rightmost_first_fails :
  ~ (forall st,
       scan_tokens Examples.chain = Ok st ->
       exists occs,
         Permutation (occurrences Examples.chain) occs
         /\ StronglySorted rightmost_before occs
         /\ calculation_order st = Ok (map occ_position occs)).
Proof.
  intros H.
  destruct (H Examples.chain_scan eq_refl) as (occs & Hperm & Hsorted & Horder).
  vm_compute in Horder.
  destruct occs as [|a [|b [|c occs]]]; try discriminate.
  inversion Horder as [[Ha Hb]].
  change (1 = occ_position a) in Ha. change (3 = occ_position b) in Hb.
  inversion Hsorted as [|? ? _ Hf]; subst.
  inversion Hf as [|? ? Hab _]; subst.
  assert (Hin : forall o, In o [a; b] ->
                          occ_depth o = 0 /\ occ_priority o = Int 7).
  { intros o Ho. apply (Permutation_in _ (Permutation_sym Hperm)) in Ho.
    vm_compute in Ho. destruct Ho as [<-|[<-|[]]]; split; reflexivity. }
  destruct (Hin a (or_introl eq_refl)) as [Hda Hpa].
  destruct (Hin b (or_intror (or_introl eq_refl))) as [Hdb Hpb].
  unfold rightmost_before in Hab. rewrite Hda, Hdb, Hpa, Hpb, <- Ha, <- Hb in Hab.
  simpl in Hab. destruct Hab as [Hab|[_ [Hab|[_ Hab]]]]; [lia|discriminate|lia].
Qed.

(** A witness of [parse_tokens_braces]: a close brace alone, an open brace
    alone, and a variable in braces. *)
Lemma parse_tokens_braces_witness :
  parse_tokens [BraceToken (V:=Z) CLOSE] = Raise UnmatchedCloseBrace
  /\ parse_tokens [BraceToken (V:=Z) OPEN] = Raise UnclosedOpenBrace
  /\ forall msg,
       parse_tokens [BraceToken OPEN; VariableToken (V:=Z) (lit "a");
                     BraceToken CLOSE]
       <> Raise (ParseError msg).
Proof.
  split; [|split].
  - apply (proj1 (parse_tokens_braces [BraceToken (V:=Z) CLOSE])).
    exists 1%nat. reflexivity.
  - apply (proj1 (proj2 (parse_tokens_braces [BraceToken (V:=Z) OPEN]))).
    + intros [|[|n]]; discriminate.
    + discriminate.
  - apply (proj2 (proj2 (parse_tokens_braces
                           [BraceToken OPEN; VariableToken (V:=Z) (lit "a");
                            BraceToken CLOSE]))).
    + intros [|[|[|[|n]]]]; discriminate.
    + reflexivity.
Defined.

(** C4, as the specification has it, fails on [8 -> 8]: the constant [8] is
    in the precalculated list twice, once for each place it is written. *)
Lemma precalculated_duplicates :
  ~ (forall e, parse_tokens Examples.twice = Ok e -> NoDup (precalculated e)).
Proof.
  intros H. specialize (H _ eq_refl). simpl in H.
  inversion H as [|? ? Hnotin _]; subst. apply Hnotin. left. reflexivity.
Qed.

(** A witness of [precalculated_per_occurrence]: the tokens of [8 -> 8]. *)
Lemma precalculated_per_occurrence_witness :
  parse_tokens Examples.twice = Ok Examples.twice_parsed
  /\ precalculated Examples.twice_parsed = constants_of Examples.twice
  /\ nth_error (precalculated Examples.twice_parsed) 1 = Some 8.
Proof.
  split; [reflexivity|].
  destruct (precalculated_per_occurrence Examples.twice Examples.twice_parsed
              eq_refl) as [Hpre Hocc].
  split; [exact Hpre|].
  exact (proj1 (Hocc [ConstantToken 8; OperatorToken Examples.impl] 8 []
                  eq_refl)).
Defined.

(** C9, as the specification has it, fails on the lone variable [a]: its
    expression has no operation and no constant, and the call raises
    [IndexError] where it reads the result. *)
Lemma lone_variable_fails :
  ~ (forall e kwargs,
       parse Examples.bare (lit "a") = Ok e ->
       call e kwargs <> Raise IndexError).
Proof.
  intros H.
  apply (H Examples.empty_parsed [(lit "a", 1)]); reflexivity.
Qed.

(** A witness of [operands_in_value_space]: the tokens of [a -> b -> c]. *)
Lemma operands_in_value_space_witness :
  parse_tokens Examples.chain = Ok Examples.chain_parsed
  /\ operands_bounded 0 0 (operations Examples.chain_parsed)
  /\ forall kwargs,
       raises_only (call_failure (operations Examples.chain_parsed) kwargs)
         (call_loop (operations Examples.chain_parsed) kwargs
            (deepcopy (precalculated Examples.chain_parsed))).
Proof.
  split; [reflexivity|].
  apply (operands_in_value_space Examples.chain Examples.chain_parsed).
  reflexivity.
Defined.

(** ** Regular expressions *)

Section Regex.
Implicit Types (r : regex) (t : str) (k : str -> bool).

Lemma strip_prefix_Some (s t t' : str) :
  strip_prefix s t = Some t' -> t = s ++ t'.
Proof.
  revert t; induction s as [|x s IH]; intros [|y t]; simpl;
    try discriminate; try (intros H; inversion H; reflexivity).
  destruct (N.eqb_spec x y) as [->|]; [|discriminate].
  intros H. apply IH in H. rewrite H. reflexivity.
Qed.

Lemma suffix_refl t : suffix t t.
Proof. exists []. reflexivity. Qed.

Lemma suffix_trans (t1 t2 t3 : str) : suffix t1 t2 -> suffix t2 t3 -> suffix t1 t3.
Proof.
  intros [p1 ->] [p2 ->]. exists (p2 ++ p1). rewrite app_assoc. reflexivity.
Qed.

(** A match stays a match under a continuation that accepts more. *)
Lemma rep_iter_mono (m : str -> (str -> bool) -> bool) :
  (forall t k1 k2, (forall t', k1 t' = true -> k2 t' = true) ->
                   m t k1 = true -> m t k2 = true) ->
  forall (fuel min : nat) t k1 k2,
    (forall t', k1 t' = true -> k2 t' = true) ->
    rep_iter m k1 fuel min t = true -> rep_iter m k2 fuel min t = true.
Proof.
  intros Hm fuel; induction fuel as [|fuel IH]; intros min t k1 k2 Hk;
    simpl; [discriminate|].
  destruct min as [|min].
  - rewrite !orb_true_iff. intros [H|H]; [left|right; apply Hk, H].
    eapply Hm; [|exact H]. intros t'. cbv beta.
    rewrite !andb_true_iff. intros [H1 H2]. split; [exact H1|].
    eapply IH; eauto.
  - apply Hm. intros t'. apply IH, Hk.
Qed.

Lemma rmatch_mono r t k1 k2 :
  (forall t', k1 t' = true -> k2 t' = true) ->
  rmatch r t k1 = true -> rmatch r t k2 = true.
Proof.
  revert t k1 k2; induction r as [s|lo hi|r1 IH1 r2 IH2|r1 IH1 r2 IH2|r1 IH1|r1 IH1 min|];
    intros t k1 k2 Hk; cbn [rmatch].
  - destruct (strip_prefix s t); [apply Hk|discriminate].
  - destruct t as [|c t]; [discriminate|].
    destruct ((lo <=? c) && (c <=? hi))%N; [apply Hk|discriminate].
  - apply IH1. intros t'. apply IH2, Hk.
  - rewrite !orb_true_iff. intros [H|H]; [left; eapply IH1|right; eapply IH2]; eauto.
  - rewrite !orb_true_iff. intros [H|H]; [left; eapply IH1|right]; eauto.
  - apply rep_iter_mono; [exact IH1 | exact Hk].
  - rewrite !andb_true_iff. intros [H1 H2]. split; [exact H1 | apply Hk, H2].
Qed.

(** A match leaves a rest of the text that the continuation accepts. *)
Lemma rep_iter_rest (m : str -> (str -> bool) -> bool) :
  (forall t k1 k2, (forall t', k1 t' = true -> k2 t' = true) ->
                   m t k1 = true -> m t k2 = true) ->
  (forall t k, m t k = true ->
               exists t', suffix t' t /\ k t' = true
                          /\ m t (fun x => str_eqb x t') = true) ->
  forall (fuel min : nat) t k,
    rep_iter m k fuel min t = true ->
    exists t', suffix t' t /\ k t' = true
               /\ rep_iter m (fun x => str_eqb x t') fuel min t = true.
Proof.
  intros Hmono Hm fuel; induction fuel as [|fuel IH]; intros min t k;
    simpl; [discriminate|].
  destruct min as [|min].
  - rewrite orb_true_iff. intros [H|H].
    + apply Hm in H as (t1 & Hs1 & H1 & Hm1).
      apply andb_true_iff in H1 as [Hlt H1].
      apply IH in H1 as (t2 & Hs2 & H2 & Hi2).
      exists t2. split; [eapply suffix_trans; eauto|]. split; [exact H2|].
      apply orb_true_iff. left.
      eapply Hmono; [|exact Hm1]. intros x Hx. cbv beta.
      apply str_eqb_eq in Hx. subst x. rewrite Hlt, Hi2. reflexivity.
    + exists t. split; [apply suffix_refl|]. split; [exact H|].
      rewrite str_eqb_refl. apply orb_true_r.
  - intros H. apply Hm in H as (t1 & Hs1 & H1 & Hm1).
    apply IH in H1 as (t2 & Hs2 & H2 & Hi2).
    exists t2. split; [eapply suffix_trans; eauto|]. split; [exact H2|].
    eapply Hmono; [|exact Hm1]. intros x Hx. cbv beta.
    apply str_eqb_eq in Hx. subst x. exact Hi2.
Qed.

Lemma rmatch_rest r t k :
  rmatch r t k = true ->
  exists t', suffix t' t /\ k t' = true
             /\ rmatch r t (fun x => str_eqb x t') = true.
Proof.
  revert t k; induction r as [s|lo hi|r1 IH1 r2 IH2|r1 IH1 r2 IH2|r1 IH1|r1 IH1 min|];
    intros t k; cbn [rmatch].
  - destruct (strip_prefix s t) as [t'|] eqn:E; [|discriminate].
    intros H. exists t'. split; [exists s; apply strip_prefix_Some, E|].
    split; [exact H | apply str_eqb_refl].
  - destruct t as [|c t]; [discriminate|].
    destruct ((lo <=? c) && (c <=? hi))%N; [|discriminate].
    intros H. exists t. split; [exists [c]; reflexivity|].
    split; [exact H | apply str_eqb_refl].
  - intros H. apply IH1 in H as (t1 & Hs1 & H1 & Hm1).
    apply IH2 in H1 as (t2 & Hs2 & H2 & Hm2).
    exists t2. split; [eapply suffix_trans; eauto|]. split; [exact H2|].
    eapply rmatch_mono; [|exact Hm1]. intros x Hx. cbv beta in *.
    apply str_eqb_eq in Hx. subst x. exact Hm2.
  - rewrite orb_true_iff. intros [H|H];
      [apply IH1 in H | apply IH2 in H]; destruct H as (t' & Hs & Hk & Hm);
      exists t'; rewrite Hm; auto using orb_true_r.
  - rewrite orb_true_iff. intros [H|H].
    + apply IH1 in H as (t' & Hs & Hk & Hm). exists t'. rewrite Hm. auto.
    + exists t. rewrite str_eqb_refl. auto using suffix_refl, orb_true_r.
  - apply rep_iter_rest; [intros; eapply rmatch_mono; eauto | exact IH1].
  - rewrite andb_true_iff. intros [H1 H2]. exists t.
    rewrite H1, str_eqb_refl. auto using suffix_refl.
Qed.

(** A pattern that ends in [$] matches a text without newline only as a
    whole. *)
Lemma regex_match_eol r t :
  ~ In 10%N t ->
  regex_match (Cat r Eol) t = true <-> regex_fullmatch r t = true.
Proof.
  intros Hnl. unfold regex_match, regex_fullmatch. simpl. split; intros H.
  - apply rmatch_rest in H as (t' & [pre ->] & Hk & Hm).
    eapply rmatch_mono; [|exact Hm]. intros x Hx. cbv beta in *.
    apply str_eqb_eq in Hx. subst x.
    destruct t' as [|c [|c' t']]; simpl in Hk; try discriminate; [reflexivity|].
    rewrite andb_true_r in Hk. apply N.eqb_eq in Hk. subst c.
    exfalso. apply Hnl. apply in_or_app. right. left. reflexivity.
  - eapply rmatch_mono; [|exact H]. intros [|c t'] E; [reflexivity|discriminate].
Qed.
End Regex.

(** ** The classification of a text *)

Section Classification.
Context {V : Type}.
Implicit Types (p : Parser V) (token : str).

Lemma classify_first (before after : list (ConstantType V))
    (const_type : ConstantType V) token :
  Forall (fun c => regex_match (regexp c) token = false) before ->
  regex_match (regexp const_type) token = true ->
  classify (before ++ const_type :: after) token
  = (v <- to_value const_type token ;; Ok (ConstantToken v)).
Proof.
  induction 1 as [|c before Hc Hb IH]; intros Hm; simpl.
  - rewrite Hm. reflexivity.
  - rewrite Hc. apply IH, Hm.
Qed.

Lemma classify_none (cs : list (ConstantType V)) token :
  Forall (fun c => regex_match (regexp c) token = false) cs ->
  classify cs token = Ok (VariableToken token).
Proof.
  induction 1 as [|c cs Hc Hcs IH]; simpl; [reflexivity|].
  rewrite Hc. exact IH.
Qed.

Lemma str_eqb_neq (a b : str) : a <> b -> str_eqb a b = false.
Proof.
  intros H. destruct (str_eqb a b) eqn:E; [|reflexivity].
  apply str_eqb_eq in E. contradiction.
Qed.

(** [to_token] on a text that is no brace and no operator. *)
Lemma to_token_classify p token :
  token <> [] -> token <> lit "(" -> token <> lit ")" ->
  dict_mem (operators_names p) token = false ->
  dict_mem (operators_signs p) token = false ->
  to_token p token = (tok <- classify (constants p) token ;; Ok (Some tok)).
Proof.
  intros Hne Ho Hc Hn Hs. unfold to_token.
  rewrite (str_eqb_neq _ _ Ho), (str_eqb_neq _ _ Hc).
  unfold dict_mem in Hn, Hs.
  destruct (dict_get (operators_names p) token); [discriminate|].
  destruct (dict_get (operators_signs p) token); [discriminate|].
  destruct token; [contradiction|reflexivity].
Qed.

(** [to_token] gives no token for the empty text only. *)
Lemma to_token_nonempty p token :
  token <> [] -> to_token p token <> Ok None.
Proof.
  intros Hne. unfold to_token.
  destruct (str_eqb token (lit "(")); [discriminate|].
  destruct (str_eqb token (lit ")")); [discriminate|].
  destruct (dict_get (operators_names p) token); [discriminate|].
  destruct (dict_get (operators_signs p) token); [discriminate|].
  destruct token as [|c token]; [contradiction|]. simpl.
  destruct (classify (constants p) (c :: token)); discriminate.
Qed.

(** C5, as the code has it: a text that is not empty, no brace and no
    name or sign of an operator is tried against the constant types in
    the order of their registration; a type matches when [regex.match]
    succeeds, that is when its pattern matches the text from its start
    on; the first type that matches gives the constant through its
    converter (whose exception, if it raises, is the outcome); when none
    matches the text is a variable.  It is the [$] at the end of a pattern
    that makes it match a text (without newline) only as a whole. *)
Theorem to_token_constants p token :
  token <> [] -> token <> lit "(" -> token <> lit ")" ->
  dict_mem (operators_names p) token = false ->
  dict_mem (operators_signs p) token = false ->
  (forall before const_type after,
      constants p = before ++ const_type :: after ->
      Forall (fun c => regex_match (regexp c) token = false) before ->
      regex_match (regexp const_type) token = true ->
      to_token p token
      = (v <- to_value const_type token ;; Ok (Some (ConstantToken v))))
  /\ (Forall (fun c => regex_match (regexp c) token = false) (constants p) ->
      to_token p token = Ok (Some (VariableToken token)))
  /\ (forall r, ~ In 10%N token ->
                regex_match (Cat r Eol) token = true
                <-> regex_fullmatch r token = true).
Proof.
  intros Hne Ho Hc Hn Hs.
  rewrite (to_token_classify p token Hne Ho Hc Hn Hs).
  split; [|split].
  - intros before const_type after -> Hb Hm.
    rewrite (classify_first _ _ _ _ Hb Hm).
    destruct (to_value const_type token); reflexivity.
  - intros Hnone. rewrite (classify_none _ _ Hnone). reflexivity.
  - intros r Hnl. apply regex_match_eol, Hnl.
Qed.
End Classification.

(** A witness of [to_token_constants]: a digit, and a letter, with the
    pattern [[0-9]]. *)
Lemma to_token_constants_witness :
  to_token Examples.loose (lit "7") = Ok (Some (ConstantToken 1))
  /\ to_token Examples.loose (lit "x") = Ok (Some (VariableToken (lit "x"))).
Proof.
  split.
  - apply (proj1 (to_token_constants Examples.loose (lit "7")
                    ltac:(discriminate) ltac:(discriminate) ltac:(discriminate)
                    eq_refl eq_refl)
             [] Examples.one_digit []); [reflexivity|constructor|reflexivity].
  - apply (proj1 (proj2 (to_token_constants Examples.loose (lit "x")
                    ltac:(discriminate) ltac:(discriminate) ltac:(discriminate)
                    eq_refl eq_refl))).
    repeat constructor.
Defined.

(** C5, as the specification has it, fails with the pattern [[0-9]] on the
    text [1a]: the text is a constant, and no pattern matches the whole of
    it. *)
Lemma whole_text_fails :
  ~ (forall token v,
       to_token Examples.loose token = Ok (Some (ConstantToken v)) ->
       exists const_type,
         In const_type (constants Examples.loose)
         /\ regex_fullmatch (regexp const_type) token = true).
Proof.
  intros H. destruct (H (lit "1a") 2 eq_refl) as (c & [<-|[]] & Hc).
  discriminate.
Qed.

(** ** The signs in the tokenizer *)

Section Signs.
Context {V : Type}.
Implicit Types (p : Parser V) (x y g t : str) (c : char)
  (ret : list (Token V)).

Lemma dict_get_In {A : Type} (d : dict A) (k : str) (v : A) :
  dict_get d k = Some v -> In k (dict_keys d).
Proof.
  induction d as [|[k' v'] d IH]; simpl; [discriminate|].
  destruct (str_eqb k' k) eqn:E.
  - apply str_eqb_eq in E. auto.
  - intros H. right. apply IH, H.
Qed.

Lemma dict_mem_In {A : Type} (d : dict A) (k : str) :
  dict_mem d k = true -> In k (dict_keys d).
Proof.
  unfold dict_mem. destruct (dict_get d k) eqn:E; [|discriminate].
  intros _. eapply dict_get_In, E.
Qed.

Lemma well_signed_key p g :
  well_signed p = true -> In g (dict_keys (operators_signs p)) ->
  built p g = true
  /\ forallb (fun c => negb (char_isspace c || N.eqb c 40 || N.eqb c 41)) g = true
  /\ dict_mem (operators_names p) g = false.
Proof.
  intros Hw Hg. unfold well_signed in Hw. rewrite forallb_forall in Hw.
  specialize (Hw g Hg). apply andb_true_iff in Hw as [Hw Hn].
  apply andb_true_iff in Hw as [Hb Hc].
  repeat split; auto. apply negb_true_iff, Hn.
Qed.

Lemma well_signed_nonempty p g :
  well_signed p = true -> In g (dict_keys (operators_signs p)) -> g <> [].
Proof.
  intros Hw Hg. destruct (well_signed_key p g Hw Hg) as (Hb & _ & _).
  intros ->. discriminate.
Qed.

(** A plain character is in no sign. *)
Lemma plain_char_not_in p c g :
  plain_char p c = true -> In g (dict_keys (operators_signs p)) -> ~ In c g.
Proof.
  unfold plain_char, sign_char. intros H Hg Hc.
  apply andb_true_iff in H as [_ H]. apply negb_true_iff in H.
  assert (E : existsb (existsb (N.eqb c)) (dict_keys (operators_signs p)) = true).
  { apply existsb_exists. exists g. split; [exact Hg|].
    apply existsb_exists. exists c. split; [exact Hc | apply N.eqb_refl]. }
  congruence.
Qed.

Lemma plain_char_space p c :
  plain_char p c = true -> char_isspace c || N.eqb c 40 || N.eqb c 41 = false.
Proof.
  unfold plain_char. intros H.
  apply andb_true_iff in H as [H _]. apply andb_true_iff in H as [H H3].
  apply andb_true_iff in H as [H1 H2].
  apply negb_true_iff in H1, H2, H3. rewrite H1, H2, H3. reflexivity.
Qed.

(** A text with a plain character is no sign. *)
Lemma plain_not_sign p t c :
  In c t -> plain_char p c = true -> dict_mem (operators_signs p) t = false.
Proof.
  intros Hc Hp. destruct (dict_mem (operators_signs p) t) eqn:E; [|reflexivity].
  apply dict_mem_In in E. exfalso. eapply plain_char_not_in; eauto.
Qed.

Lemma str_eqb_length (a b : str) : length a <> length b -> str_eqb a b = false.
Proof.
  intros H. apply str_eqb_neq. intros ->. contradiction.
Qed.

(** A plain character before a text changes nothing to the signs that end
    the text. *)
Lemma slice_last_plain p c t g :
  plain_char p c = true -> In g (dict_keys (operators_signs p)) -> g <> [] ->
  str_eqb (slice_last (length g) (c :: t)) g
  = str_eqb (slice_last (length g) t) g.
Proof.
  intros Hp Hg Hne. unfold slice_last.
  destruct (length g) as [|n] eqn:En; [destruct g; [contradiction|discriminate]|].
  destruct (Nat.le_gt_cases (S n) (length t)) as [Hle|Hgt].
  - replace (length (c :: t) - S n)%nat with (S (length t - S n))
      by (simpl; lia).
    reflexivity.
  - replace (length (c :: t) - S n)%nat with 0%nat by (simpl; lia).
    replace (length t - S n)%nat with 0%nat by lia. rewrite !skipn_O.
    rewrite (str_eqb_length t g) by lia.
    apply str_eqb_neq. intros <-.
    eapply plain_char_not_in; [exact Hp|exact Hg|]. left. reflexivity.
Qed.

Lemma find_sign_plain p x t (keys : list str) :
  forallb (plain_char p) x = true ->
  (forall g, In g keys -> In g (dict_keys (operators_signs p)) /\ g <> []) ->
  find_sign keys (x ++ t) = find_sign keys t.
Proof.
  intros Hx Hkeys. induction x as [|c x IH]; [reflexivity|].
  simpl in Hx. apply andb_true_iff in Hx as [Hc Hx].
  rewrite <- (IH Hx). clear IH. simpl.
  induction keys as [|g keys IHk]; [reflexivity|]. simpl.
  destruct (Hkeys g (or_introl eq_refl)) as [Hg Hne].
  rewrite (slice_last_plain p c (x ++ t) g Hc Hg Hne).
  destruct (str_eqb (slice_last (length g) (x ++ t)) g); [reflexivity|].
  apply IHk. intros g' Hg'. apply Hkeys. right. exact Hg'.
Qed.

Lemma find_sign_nil (keys : list str) :
  (forall g, In g keys -> g <> []) -> find_sign keys [] = None.
Proof.
  induction keys as [|g keys IH]; intros H; [reflexivity|]. simpl.
  destruct g as [|c g]; [exfalso; apply (H []); [left|]; reflexivity|].
  simpl. apply IH. intros g' Hg'. apply H. right. exact Hg'.
Qed.

Lemma slice_but_last_app x g : g <> [] -> slice_but_last (length g) (x ++ g) = x.
Proof.
  intros Hne. unfold slice_but_last.
  destruct (length g) as [|n] eqn:En; [destruct g; [contradiction|discriminate]|].
  rewrite length_app, En.
  replace (length x + S n - S n)%nat with (length x + 0)%nat by lia.
  rewrite firstn_app_2. simpl. apply app_nil_r.
Qed.

Lemma forallb_plain_not_space p x :
  nonempty x = true -> forallb (plain_char p) x = true -> isspace x = false.
Proof.
  destruct x as [|c x]; [discriminate|]. intros _ H. simpl in H.
  apply andb_true_iff in H as [Hc _]. simpl.
  apply plain_char_space in Hc. apply orb_false_iff in Hc as [Hc _].
  apply orb_false_iff in Hc as [Hc _]. rewrite Hc. reflexivity.
Qed.

Lemma append_token_plain p ret x (tx : Token V) :
  plain p x = true -> to_token p x = Ok (Some tx) ->
  append_token p ret x = Ok (ret ++ [tx]).
Proof.
  unfold plain. intros H Hx. apply andb_true_iff in H as [Hne Hp].
  unfold append_token. rewrite (forallb_plain_not_space p x Hne Hp), Hne, Hx.
  reflexivity.
Qed.

Lemma split_loop_app p st (s1 s2 : str) :
  split_loop p st (s1 ++ s2)
  = (st' <- split_loop p st s1 ;; split_loop p st' s2).
Proof.
  revert st; induction s1 as [|c s1 IH]; intros st; simpl; [reflexivity|].
  destruct (split_step p st c); simpl; [apply IH|reflexivity].
Qed.

(** The keys of the table, under [well_signed]. *)
Lemma well_signed_keys p g :
  well_signed p = true -> In g (dict_keys (operators_signs p)) ->
  In g (dict_keys (operators_signs p)) /\ g <> [].
Proof. intros Hw Hg. split; [exact Hg | eapply well_signed_nonempty; eauto]. Qed.

(** A plain character goes to the end of a plain buffer. *)
Lemma split_step_plain p ret x c :
  well_signed p = true ->
  forallb (plain_char p) x = true -> plain_char p c = true ->
  split_step p (ret, x) c = Ok (ret, x ++ [c]).
Proof.
  intros Hw Hx Hc. unfold split_step.
  rewrite (plain_char_space p c Hc).
  assert (Hm : dict_mem (operators_signs p) x = false).
  { destruct x as [|c' x].
    - destruct (dict_mem (operators_signs p) []) eqn:E; [|reflexivity].
      apply dict_mem_In in E. exfalso.
      eapply well_signed_nonempty; eauto.
    - simpl in Hx. apply andb_true_iff in Hx as [Hc' _].
      eapply plain_not_sign; [left; reflexivity | exact Hc']. }
  rewrite Hm.
  assert (Hf : find_sign (dict_keys (operators_signs p)) (x ++ [c]) = None).
  { rewrite <- (app_nil_r (x ++ [c])).
    rewrite (find_sign_plain p (x ++ [c]) []).
    - apply find_sign_nil. intros g Hg. eapply well_signed_nonempty; eauto.
    - rewrite forallb_app, Hx. simpl. rewrite Hc. reflexivity.
    - intros g Hg. apply well_signed_keys; assumption. }
  rewrite Hf. reflexivity.
Qed.

Lemma split_loop_plain p ret x y :
  well_signed p = true ->
  forallb (plain_char p) x = true -> forallb (plain_char p) y = true ->
  split_loop p (ret, x) y = Ok (ret, x ++ y).
Proof.
  intros Hw Hx Hy. revert x Hx; induction y as [|c y IH]; intros x Hx;
    cbn [split_loop].
  - rewrite app_nil_r. reflexivity.
  - simpl in Hy. apply andb_true_iff in Hy as [Hc Hy].
    rewrite (split_step_plain p ret x c Hw Hx Hc). cbn [bind].
    replace (x ++ c :: y) with ((x ++ [c]) ++ y)
      by (rewrite <- app_assoc; reflexivity).
    apply IH; [exact Hy|].
    rewrite forallb_app, Hx. simpl. rewrite Hc. reflexivity.
Qed.
End Signs.

Section Munch.
Context {V : Type}.
Implicit Types (p : Parser V) (x y g t : str) (c : char)
  (ret : list (Token V)).

Lemma In_dict_mem {A : Type} (d : dict A) (k : str) :
  In k (dict_keys d) -> dict_mem d k = true.
Proof.
  unfold dict_mem. induction d as [|[k' v'] d IH]; simpl; [tauto|].
  destruct (str_eqb k' k) eqn:E; [reflexivity|].
  intros [->|H]; [rewrite str_eqb_refl in E; discriminate | apply IH, H].
Qed.

Lemma found_Some (r : option str) g : found r g = true -> r = Some g.
Proof.
  destruct r as [s|]; simpl; [|discriminate].
  intros H. apply str_eqb_eq in H. congruence.
Qed.

(** A character that is no white space and no brace, after a buffer that
    begins with a plain text: the signs are looked for at the end of what
    follows the plain text. *)
Lemma split_step_after_plain p ret x t c :
  well_signed p = true -> plain p x = true ->
  char_isspace c || N.eqb c 40 || N.eqb c 41 = false ->
  split_step p (ret, x ++ t) c
  = match find_sign (dict_keys (operators_signs p)) (t ++ [c]) with
    | Some sign =>
        ret <- append_token p ret
                 (slice_but_last (length sign) (x ++ t ++ [c])) ;;
        Ok (ret, sign)
    | None => Ok (ret, x ++ t ++ [c])
    end.
Proof.
  intros Hw Hx Hc. unfold plain in Hx. apply andb_true_iff in Hx as [Hne Hx].
  unfold split_step. rewrite Hc.
  assert (Hm : dict_mem (operators_signs p) (x ++ t) = false).
  { destruct x as [|c' x]; [discriminate|].
    simpl in Hx. apply andb_true_iff in Hx as [Hc' _].
    eapply plain_not_sign; [left; reflexivity | exact Hc']. }
  rewrite Hm, <- app_assoc.
  rewrite (find_sign_plain p x (t ++ [c])); [reflexivity | exact Hx |].
  intros g Hg. apply well_signed_keys; assumption.
Qed.

Lemma split_step_extend p ret g c :
  char_isspace c || N.eqb c 40 || N.eqb c 41 = false ->
  dict_mem (operators_signs p) g = true ->
  dict_mem (operators_signs p) (g ++ [c]) = true ->
  split_step p (ret, g) c = Ok (ret, g ++ [c]).
Proof. intros Hc Hg Hgc. unfold split_step. rewrite Hc, Hg, Hgc. reflexivity. Qed.

Lemma split_step_end p ret g c :
  char_isspace c || N.eqb c 40 || N.eqb c 41 = false ->
  dict_mem (operators_signs p) g = true ->
  dict_mem (operators_signs p) (g ++ [c]) = false ->
  split_step p (ret, g) c = (ret <- append_token p ret g ;; Ok (ret, [c])).
Proof. intros Hc Hg Hgc. unfold split_step. rewrite Hc, Hg, Hgc. reflexivity. Qed.

(** After a plain text, the characters of a sign leave the token of the
    text in the result and the sign, whole, in the buffer. *)
Lemma split_loop_sign p ret x g (tx : Token V) :
  well_signed p = true -> plain p x = true ->
  In g (dict_keys (operators_signs p)) ->
  to_token p x = Ok (Some tx) ->
  split_loop p (ret, x) g = Ok (ret ++ [tx], g).
Proof.
  intros Hw Hx Hg Htx.
  destruct (well_signed_key p g Hw Hg) as (Hb & Hc & _).
  pose proof (append_token_plain p ret x tx Hx Htx) as Happ.
  destruct g as [|c1 [|c2 [|c3 g]]]; try discriminate.
  - simpl in Hc. rewrite andb_true_r in Hc. apply negb_true_iff in Hc.
    simpl in Hb. apply found_Some in Hb.
    cbn [split_loop].
    rewrite <- (app_nil_r x) at 1.
    rewrite (split_step_after_plain p ret x [] c1 Hw Hx Hc).
    cbn [app]. rewrite Hb.
    rewrite (slice_but_last_app x [c1]) by discriminate.
    rewrite Happ. reflexivity.
  - simpl in Hc. rewrite andb_true_r in Hc.
    apply andb_true_iff in Hc as [Hc1 Hc2].
    apply negb_true_iff in Hc1, Hc2.
    cbn [built] in Hb. cbn [split_loop].
    rewrite <- (app_nil_r x) at 1.
    rewrite (split_step_after_plain p ret x [] c1 Hw Hx Hc1). cbn [app].
    destruct (dict_mem (operators_signs p) [c1]) eqn:Hm.
    + apply found_Some in Hb. rewrite Hb.
      rewrite (slice_but_last_app x [c1]) by discriminate.
      rewrite Happ. cbn [bind].
      rewrite (split_step_extend p (ret ++ [tx]) [c1] c2 Hc2 Hm
                 (In_dict_mem _ _ Hg)).
      reflexivity.
    + destruct (find_sign (dict_keys (operators_signs p)) [c1]);
        [discriminate|].
      apply found_Some in Hb. cbn [bind].
      rewrite (split_step_after_plain p ret x [c1] c2 Hw Hx Hc2).
      cbn [app]. rewrite Hb.
      rewrite (slice_but_last_app x [c1; c2]) by discriminate.
      rewrite Happ. reflexivity.
Qed.

(** A sign is the token of its operator. *)
Lemma to_token_sign p g (op : Operator V) :
  well_signed p = true -> dict_get (operators_signs p) g = Some op ->
  to_token p g = Ok (Some (OperatorToken op)).
Proof.
  intros Hw Hop.
  destruct (well_signed_key p g Hw (dict_get_In _ _ _ Hop)) as (_ & Hc & Hn).
  unfold to_token.
  destruct (str_eqb g (lit "(")) eqn:E1;
    [apply str_eqb_eq in E1; subst g; discriminate|].
  destruct (str_eqb g (lit ")")) eqn:E2;
    [apply str_eqb_eq in E2; subst g; discriminate|].
  unfold dict_mem in Hn.
  destruct (dict_get (operators_names p) g); [discriminate|].
  rewrite Hop. reflexivity.
Qed.

Lemma append_token_sign p ret g (op : Operator V) :
  well_signed p = true -> dict_get (operators_signs p) g = Some op ->
  append_token p ret g = Ok (ret ++ [OperatorToken op]).
Proof.
  intros Hw Hop.
  pose proof (dict_get_In _ _ _ Hop) as Hg.
  destruct (well_signed_key p g Hw Hg) as (_ & Hc & _).
  unfold append_token. rewrite (to_token_sign p g op Hw Hop).
  destruct g as [|c g]; [exfalso; eapply well_signed_nonempty; eauto|].
  simpl in Hc. apply andb_true_iff in Hc as [Hc _]. apply negb_true_iff in Hc.
  apply orb_false_iff in Hc as [Hc _]. apply orb_false_iff in Hc as [Hc _].
  simpl. rewrite Hc. reflexivity.
Qed.

(** The tokens of a plain text, a sign and a plain text, under a table that
    is [well_signed]. *)
Lemma split_around_sign p x g y (op : Operator V) (tx ty : Token V) :
  well_signed p = true -> plain p x = true -> plain p y = true ->
  dict_get (operators_signs p) g = Some op ->
  to_token p x = Ok (Some tx) -> to_token p y = Ok (Some ty) ->
  split p (x ++ g ++ y) = Ok [tx; OperatorToken op; ty].
Proof.
  intros Hw Hx Hy Hop Htx Hty.
  pose proof (dict_get_In _ _ _ Hop) as Hg.
  assert (Hxp : forallb (plain_char p) x = true)
    by (unfold plain in Hx; apply andb_true_iff in Hx; tauto).
  unfold split. rewrite <- !app_assoc.
  rewrite split_loop_app, (split_loop_plain p [] [] x Hw eq_refl Hxp).
  cbn [bind app].
  rewrite split_loop_app, (split_loop_sign p [] x g tx Hw Hx Hg Htx).
  cbn [bind app].
  destruct y as [|c y]; [discriminate|].
  assert (Hyp : plain_char p c = true /\ forallb (plain_char p) y = true).
  { unfold plain in Hy. simpl in Hy. apply andb_true_iff in Hy. tauto. }
  destruct Hyp as [Hc Hyp].
  cbn [app split_loop].
  rewrite (split_step_end p [tx] g c (plain_char_space p c Hc)
             (In_dict_mem _ _ Hg)).
  - rewrite (append_token_sign p [tx] g op Hw Hop). cbn [bind app].
    rewrite split_loop_app.
    rewrite (split_loop_plain p [tx; OperatorToken op] [c] y Hw).
    + cbn [bind app]. change (lit " ") with [32%N].
      cbn [split_loop]. unfold split_step.
      replace (char_isspace 32 || N.eqb 32 40 || N.eqb 32 41) with true
        by reflexivity.
      rewrite (append_token_plain p _ (c :: y) ty Hy Hty). cbn [bind app].
      rewrite append_token_space by reflexivity. reflexivity.
    + simpl. rewrite Hc. reflexivity.
    + exact Hyp.
  - eapply plain_not_sign; [|exact Hc]. apply in_or_app. right. left. reflexivity.
Qed.
End Munch.

(** ** The signs of the default table *)

Section Default_signs.
Context {obj : Type}.
Context (obj_binop : Defaults.binop -> Defaults.pyval obj -> Defaults.pyval obj
                     -> result (Defaults.pyval obj))
        (obj_truth : obj -> result bool)
        (py_float : str -> result obj).

Lemma defaults_well_signed :
  well_signed (Defaults.parser obj_binop obj_truth py_float) = true.
Proof. vm_compute. reflexivity. Qed.

(** C6, for the default table: [a+b] is split into the variable [a], the
    operator of [+] and the variable [b]; so are [a**b], [a==b] and [a!=b]
    around the operators of [**], [==] and [!=], although [*] and [!] are
    signs themselves; and every sign of the table between two texts of
    characters that are not white space, not braces and in no sign is one
    token, that of its operator, between the tokens of the two texts. *)
Theorem split_default_signs :
  let parser := Defaults.parser obj_binop obj_truth py_float in
  split parser (lit "a+b")
  = Ok [VariableToken (lit "a"); OperatorToken (Defaults.plus obj_binop);
        VariableToken (lit "b")]
  /\ split parser (lit "a**b")
     = Ok [VariableToken (lit "a"); OperatorToken (Defaults.pow obj_binop);
           VariableToken (lit "b")]
  /\ split parser (lit "a==b")
     = Ok [VariableToken (lit "a"); OperatorToken (Defaults.eq obj_binop);
           VariableToken (lit "b")]
  /\ split parser (lit "a!=b")
     = Ok [VariableToken (lit "a"); OperatorToken (Defaults.not_eq obj_binop);
           VariableToken (lit "b")]
  /\ forall x g y op tx ty,
       plain parser x = true -> plain parser y = true ->
       dict_get (operators_signs parser) g = Some op ->
       to_token parser x = Ok (Some tx) -> to_token parser y = Ok (Some ty) ->
       split parser (x ++ g ++ y) = Ok [tx; OperatorToken op; ty].
Proof.
  intros parser.
  do 4 (split; [vm_compute; reflexivity|]).
  intros x g y op tx ty. apply split_around_sign, defaults_well_signed.
Qed.
End Default_signs.

(** A witness of [split_default_signs]: [x<=y], although [<] is a sign. *)
Lemma split_default_signs_witness :
  split Examples.integral (lit "x" ++ lit "<=" ++ lit "y")
  = Ok [VariableToken (lit "x");
        OperatorToken (Defaults.less_eq (fun _ _ _ => Raise TypeError));
        VariableToken (lit "y")].
Proof.
  apply (proj2 (proj2 (proj2 (proj2
           (split_default_signs (obj:=unit) (fun _ _ _ => Raise TypeError)
              (fun _ => Raise TypeError) (fun _ => Raise ValueError))))));
    reflexivity.
Defined.

(** C6, as the specification has it, fails for the table with the signs
    [<] and [<=>] on [a<=>b]: the longer sign stands after [a], and the
    tokenizer gives the operator of the shorter one and takes the rest for a
    variable. *)
Lemma longer_sign_fails :
  split Examples.arrows (lit "a<=>b")
  = Ok [VariableToken (lit "a"); OperatorToken Examples.lt;
        VariableToken (lit "=>b")]
  /\ split Examples.arrows (lit "a<=>b")
     <> Ok [VariableToken (lit "a"); OperatorToken Examples.iff;
            VariableToken (lit "b")].
Proof.
  split; [reflexivity|]. intros H. vm_compute in H. discriminate H.
Qed.

(** ** The patterns of the default table *)

(** Every pattern of the default table ends in [$]. *)
Lemma defaults_end_in_eol :
  Forall (fun const_type => exists r, regexp const_type = Cat r Eol)
    (constants Examples.integral).
Proof. repeat constructor; eexists; reflexivity. Qed.

(** With the default table too a constant need not match a pattern as a
    whole: in [8] with a newline after it, [$] holds before the newline. *)
Lemma newline_after_constant :
  to_token Examples.integral [56; 10]%N
  = Ok (Some (ConstantToken (Defaults.PInt 8)))
  /\ forallb
       (fun const_type => negb (regex_fullmatch (regexp const_type) [56; 10]%N))
       (constants Examples.integral)
     = true.
Proof. split; reflexivity. Qed.

(** * Further properties *)

(** ** The tables of a parser *)

Section Tables.
Context {V : Type}.
Implicit Types (k sign : str) (op : Operator V) (ops : list (Operator V)).

Lemma str_eqb_sym (a b : str) : str_eqb a b = str_eqb b a.
Proof.
  destruct (str_eqb a b) eqn:E.
  - apply str_eqb_eq in E. subst b. symmetry. apply str_eqb_refl.
  - symmetry. apply str_eqb_neq. intros ->. rewrite str_eqb_refl in E.
    discriminate.
Qed.

(** Lookup after an assignment. *)
Lemma dict_get_set {A : Type} (dct : dict A) (k k' : str) (v : A) :
  dict_get (dict_set dct k v) k'
  = if str_eqb k k' then Some v else dict_get dct k'.
Proof.
  induction dct as [|[k0 v0] dct IH]; simpl.
  - reflexivity.
  - destruct (str_eqb k0 k) eqn:E; simpl.
    + apply str_eqb_eq in E. subst k0.
      destruct (str_eqb k k'); reflexivity.
    + rewrite IH. destruct (str_eqb k0 k') eqn:E'; [|reflexivity].
      apply str_eqb_eq in E'. subst k0. rewrite str_eqb_sym, E. reflexivity.
Qed.

(** An assignment keeps the keys without duplicates. *)
Lemma dict_keys_set {A : Type} (dct : dict A) (k : str) (v : A) :
  dict_keys (dict_set dct k v)
  = if dict_mem dct k then dict_keys dct else dict_keys dct ++ [k].
Proof.
  unfold dict_mem. induction dct as [|[k0 v0] dct IH]; simpl; [reflexivity|].
  destruct (str_eqb k0 k) eqn:E; simpl; [reflexivity|].
  change (map fst (dict_set dct k v)) with (dict_keys (dict_set dct k v)).
  rewrite IH. destruct (dict_get dct k); reflexivity.
Qed.

Lemma dict_mem_keys {A : Type} (dct : dict A) (k : str) :
  dict_mem dct k = false -> ~ In k (dict_keys dct).
Proof.
  intros H Hin. apply In_dict_mem in Hin. congruence.
Qed.

Lemma dict_set_NoDup {A : Type} (dct : dict A) (k : str) (v : A) :
  NoDup (dict_keys dct) -> NoDup (dict_keys (dict_set dct k v)).
Proof.
  intros H. rewrite dict_keys_set. destruct (dict_mem dct k) eqn:E; [exact H|].
  apply NoDup_app; [exact H | repeat constructor; auto |].
  intros x Hx [<-|[]]. eapply dict_mem_keys; eauto.
Qed.

Lemma fold_set_NoDup {A : Type} (items : list (str * A)) (dct : dict A) :
  NoDup (dict_keys dct) ->
  NoDup (dict_keys
           (fold_left (fun d kv => dict_set d (fst kv) (snd kv)) items dct)).
Proof.
  revert dct; induction items as [|kv items IH]; intros dct H; simpl;
    [exact H|].
  apply IH, dict_set_NoDup, H.
Qed.

(** Lookup after the assignments of one value to the keys of a list. *)
Lemma fold_set_get {A : Type} (keys : list str) (v : A) (dct : dict A) (k : str) :
  dict_get
    (fold_left (fun d kv => dict_set d (fst kv) (snd kv))
       (map (fun s => (s, v)) keys) dct) k
  = if existsb (fun s => str_eqb s k) keys then Some v else dict_get dct k.
Proof.
  revert dct; induction keys as [|s keys IH]; intros dct; simpl;
    [reflexivity|].
  rewrite IH, dict_get_set. simpl.
  destruct (str_eqb s k), (existsb (fun s0 => str_eqb s0 k) keys); reflexivity.
Qed.

(** Lookup after [d |= other]. *)
Lemma dict_update_get {A : Type} (dct other : dict A) (k : str) :
  NoDup (dict_keys other) ->
  dict_get (dict_update dct other) k
  = match dict_get other k with
    | Some v => Some v
    | None => dict_get dct k
    end.
Proof.
  unfold dict_update. revert dct; induction other as [|[k0 v0] other IH];
    intros dct Hnd; simpl; [reflexivity|].
  inversion Hnd as [|? ? Hnotin Hnd']; subst.
  rewrite (IH _ Hnd'), dict_get_set. simpl.
  destruct (str_eqb k0 k) eqn:E; [|reflexivity].
  apply str_eqb_eq in E. subst k0.
  destruct (dict_get other k) eqn:G; [|reflexivity].
  exfalso. apply Hnotin. eapply dict_get_In, G.
Qed.

Lemma find_snoc {A : Type} (f : A -> bool) (l : list A) (x : A) :
  find f (l ++ [x]) = match find f l with Some y => Some y | None => find f [x] end.
Proof.
  induction l as [|y l IH]; simpl; [reflexivity|].
  destruct (f y); [reflexivity | exact IH].
Qed.

Lemma signs_fold_get ops (d : dict (Operator V)) sign :
  dict_get
    (fold_left
       (fun d operator =>
          dict_update d
            (dict_of (map (fun sign => (sign, operator)) (signs operator))))
       ops d) sign
  = match last_with_sign ops sign with
    | Some op => Some op
    | None => dict_get d sign
    end.
Proof.
  unfold last_with_sign. revert d; induction ops as [|op ops IH]; intros d;
    simpl; [reflexivity|].
  rewrite IH, find_snoc. simpl.
  destruct (find _ (rev ops)); [reflexivity|].
  rewrite dict_update_get by (apply fold_set_NoDup; constructor).
  unfold dict_of. rewrite fold_set_get. simpl.
  destruct (existsb (fun s => str_eqb s sign) (signs op)); reflexivity.
Qed.

Lemma names_fold_get ops (d : dict (Operator V)) k :
  dict_get
    (fold_left (fun d kv => dict_set d (fst kv) (snd kv))
       (map (fun operator => (name operator, operator)) ops) d) k
  = match last_with_name ops k with
    | Some op => Some op
    | None => dict_get d k
    end.
Proof.
  unfold last_with_name. revert d; induction ops as [|op ops IH]; intros d;
    simpl; [reflexivity|].
  rewrite IH, find_snoc. simpl.
  destruct (find _ (rev ops)); [reflexivity|].
  rewrite dict_get_set. destruct (str_eqb (name op) k); reflexivity.
Qed.

Lemma signs_fold_NoDup ops (d : dict (Operator V)) :
  NoDup (dict_keys d) ->
  NoDup (dict_keys
           (fold_left
              (fun d operator =>
                 dict_update d
                   (dict_of (map (fun sign => (sign, operator)) (signs operator))))
              ops d)).
Proof.
  revert d; induction ops as [|op ops IH]; intros d H; simpl; [exact H|].
  apply IH. unfold dict_update. apply fold_set_NoDup, H.
Qed.

(** X1: The tables that [Parser.__init__] builds map a sign, and a name, to the
    operator registered last with it, and to nothing when no operator has
    it; no key is in a table twice. *)
Theorem Parser_init_tables ops (cs : list (ConstantType V)) k :
  dict_get (operators_signs (Parser_init ops cs)) k = last_with_sign ops k
  /\ dict_get (operators_names (Parser_init ops cs)) k = last_with_name ops k
  /\ NoDup (dict_keys (operators_signs (Parser_init ops cs)))
  /\ NoDup (dict_keys (operators_names (Parser_init ops cs))).
Proof.
  unfold Parser_init; simpl. repeat split.
  - rewrite signs_fold_get. destruct (last_with_sign ops k); reflexivity.
  - unfold dict_of. rewrite names_fold_get.
    destruct (last_with_name ops k); reflexivity.
  - apply signs_fold_NoDup. constructor.
  - unfold dict_of. apply fold_set_NoDup. constructor.
Qed.
End Tables.

(** ** The construction of an operator *)

Section Construction.
Context {V : Type}.

(** X2: [Operator.__init__] raises [ValueError] unless the type is 1 or 2 and
    the priority at least -1; and an operator made with the priority -1 is
    resolved after an operator made with any other priority at the same
    depth of braces, wherever the two stand. *)
Theorem Operator_init_priority (n : str) (ty : Z) (f : list V -> result V)
    (sgns : list str) (prio : Z) :
  (Operator_init n ty f sgns prio = Raise ValueError
   <-> ~ ((ty = 1 \/ ty = 2) /\ -1 <= prio))
  /\ forall op n' ty' f' sgns' op' (a b : occurrence V),
       Operator_init n ty f sgns prio = Ok op ->
       Operator_init n' ty' f' sgns' (-1) = Ok op' ->
       prio <> -1 ->
       occ_operator a = op -> occ_operator b = op' ->
       occ_depth a = occ_depth b ->
       resolves_before a b.
Proof.
  unfold Operator_init. split.
  - destruct (Z.eqb_spec ty 1) as [->|H1]; cbn [bind];
      [|destruct (Z.eqb_spec ty 2) as [->|H2]; cbn [bind]];
      try (destruct (Z.ltb_spec prio (-1)) as [Hlt|Hge]; split; intros H;
           [intros [_ ?]; lia | reflexivity | discriminate
           | exfalso; apply H; split; [auto | lia]]).
    split; [intros _ [[?|?] _]; contradiction | reflexivity].
  - intros op n' ty' f' sgns' op' a b Hop Hop' Hprio Ha Hb Hdepth.
    right. split; [exact Hdepth|]. left. unfold occ_priority.
    rewrite Ha, Hb. bind_ok Hop. bind_ok Hop'.
    destruct (prio <? -1); [discriminate|].
    destruct (-1 <? -1) eqn:E; [discriminate|].
    inversion Hop; inversion Hop'; subst op op'; simpl.
    destruct (Z.eqb_spec prio (-1)); [contradiction | reflexivity].
Qed.
End Construction.

(** A witness of [Operator_init_priority]: a priority 3 before the priority
    that is not set. *)
Lemma Operator_init_priority_witness :
  resolves_before
    {| occ_depth := 0; occ_operator := Examples.lt; occ_position := 5 |}
    {| occ_depth := 0;
       occ_operator :=
         {| func := func Examples.iff; type := Binary; name := lit "iff";
            signs := [lit "<=>"]; priority := Inf |};
       occ_position := 1 |}.
Proof.
  apply (proj2 (Operator_init_priority (lit "lt") 2 (func Examples.lt)
                  [lit "<"] 3)
           Examples.lt (lit "iff") 2 (func Examples.iff) [lit "<=>"]
           {| func := func Examples.iff; type := Binary; name := lit "iff";
              signs := [lit "<=>"]; priority := Inf |});
    try reflexivity. discriminate.
Defined.

(** ** White space and braces in the tokenizer *)

Section Separators.
Context {V : Type}.
Implicit Types (p : Parser V) (ret : list (Token V)) (c : char).

Lemma append_token_prefix p (ret0 ret : list (Token V)) (t : str) :
  append_token p (ret0 ++ ret) t
  = (ret' <- append_token p ret t ;; Ok (ret0 ++ ret')).
Proof.
  unfold append_token. destruct (negb (isspace t) && nonempty t);
    [|reflexivity].
  destruct (to_token p t) as [[tok|]|e]; cbn [bind];
    rewrite ?app_assoc; reflexivity.
Qed.

(** The tokens that are in the result already have no part in a round. *)
Lemma split_step_prefix p (ret0 ret : list (Token V)) (cur : str) c :
  split_step p (ret0 ++ ret, cur) c
  = (st <- split_step p (ret, cur) c ;; Ok (ret0 ++ fst st, snd st)).
Proof.
  unfold split_step.
  destruct (char_isspace c || N.eqb c 40 || N.eqb c 41).
  - rewrite append_token_prefix.
    destruct (append_token p ret cur) as [ret1|e]; cbn [bind]; [|reflexivity].
    rewrite append_token_prefix.
    destruct (append_token p ret1 [c]); reflexivity.
  - destruct (dict_mem (operators_signs p) cur).
    + destruct (dict_mem (operators_signs p) (cur ++ [c])); [reflexivity|].
      rewrite append_token_prefix.
      destruct (append_token p ret cur); reflexivity.
    + destruct (find_sign _ _); [|reflexivity].
      rewrite append_token_prefix.
      destruct (append_token p ret _); reflexivity.
Qed.

Lemma split_loop_prefix p (ret0 ret : list (Token V)) (cur s : str) :
  split_loop p (ret0 ++ ret, cur) s
  = (st <- split_loop p (ret, cur) s ;; Ok (ret0 ++ fst st, snd st)).
Proof.
  revert ret cur; induction s as [|c s IH]; intros ret cur; cbn [split_loop];
    [reflexivity|].
  rewrite split_step_prefix.
  destruct (split_step p (ret, cur) c) as [[ret1 cur1]|e]; cbn [bind fst snd];
    [apply IH | reflexivity].
Qed.

(** A white space or a brace ends the token before it. *)
Lemma split_step_separator p ret (cur : str) c :
  char_isspace c || N.eqb c 40 || N.eqb c 41 = true ->
  split_step p (ret, cur) c
  = (ret' <- append_token p ret cur ;; Ok (ret' ++ separator c, [])).
Proof.
  intros Hc. unfold split_step. rewrite Hc.
  destruct (append_token p ret cur) as [ret1|e]; cbn [bind]; [|reflexivity].
  unfold append_token, separator, to_token.
  destruct (N.eqb c 40) eqn:E40;
    [apply N.eqb_eq in E40; subst c; reflexivity|].
  destruct (N.eqb c 41) eqn:E41;
    [apply N.eqb_eq in E41; subst c; reflexivity|].
  rewrite !orb_false_r in Hc. simpl. rewrite Hc. simpl.
  rewrite app_nil_r. reflexivity.
Qed.

Lemma split_at_separator p (s1 s2 : str) c :
  char_isspace c || N.eqb c 40 || N.eqb c 41 = true ->
  split p (s1 ++ c :: s2)
  = (tokens1 <- split p s1 ;;
     tokens2 <- split p s2 ;;
     Ok (tokens1 ++ separator c ++ tokens2)).
Proof.
  intros Hc. unfold split. change (lit " ") with [32%N].
  rewrite <- app_assoc. cbn [app].
  rewrite (split_loop_app p ([], []) s1 (c :: s2 ++ [32%N])).
  rewrite (split_loop_app p ([], []) s1 [32%N]).
  destruct (split_loop p ([], []) s1) as [[ret cur]|e]; cbn [bind];
    [|reflexivity].
  cbn [split_loop].
  rewrite (split_step_separator p ret cur c Hc).
  rewrite (split_step_separator p ret cur 32) by reflexivity.
  destruct (append_token p ret cur) as [ret1|e]; cbn [bind fst];
    [|reflexivity].
  change (separator 32) with (@nil (Token V)). rewrite app_nil_r.
  rewrite <- (app_nil_r (ret1 ++ separator c)) at 1.
  rewrite split_loop_prefix.
  destruct (split_loop p ([], []) (s2 ++ [32%N])) as [[ret2 cur2]|e];
    cbn [bind fst snd]; [|reflexivity].
  rewrite <- app_assoc. reflexivity.
Qed.

(** X3: The tokens of a text around a white space or a brace are the tokens of
    the text before it, the brace if it is one, and the tokens of the text
    after it. *)
Theorem split_separator p (s1 s2 : str) c :
  char_isspace c || N.eqb c 40 || N.eqb c 41 = true ->
  split p (s1 ++ c :: s2)
  = (tokens1 <- split p s1 ;;
     tokens2 <- split p s2 ;;
     Ok (tokens1 ++ separator c ++ tokens2)).
Proof. apply split_at_separator. Qed.

(** X4: A text of white space and braces gives its braces, whatever the
    tables of the parser. *)
Theorem split_braces p (s : str) :
  forallb (fun c => char_isspace c || N.eqb c 40 || N.eqb c 41) s = true ->
  split p s = Ok (braces_of s).
Proof.
  induction s as [|c s IH]; intros H; [reflexivity|].
  simpl in H. apply andb_true_iff in H as [Hc Hs].
  pose proof (split_at_separator p [] s c Hc) as E. cbn [app] in E.
  rewrite E, (IH Hs). reflexivity.
Qed.
End Separators.

(** A witness of [split_separator]: [a] and [b] around an open brace. *)
Lemma split_separator_witness :
  split Examples.bare (lit "a(b")
  = Ok [VariableToken (lit "a"); BraceToken OPEN; VariableToken (lit "b")].
Proof.
  apply (split_separator Examples.bare (lit "a") (lit "b") 40). reflexivity.
Defined.

(** A witness of [split_braces]. *)
Lemma split_braces_witness :
  split Examples.arrows (lit "( ) )")
  = Ok [BraceToken OPEN; BraceToken CLOSE; BraceToken CLOSE].
Proof. apply (split_braces Examples.arrows (lit "( ) )")). reflexivity. Defined.

(** ** The exceptions of [parse] *)

Section Exceptions.
Context {V : Type}.
Implicit Types (p : Parser V) (ret : list (Token V)).






End Exceptions.


(** ** The operations that [parse] records *)

Section Operations.
Context {V : Type}.
Implicit Types (twb : list (slot V)) (tokens : list (Token V))
  (ops : list (Operator V * list (slot V))).

Lemma update_loop_length (rounds : nat) twb (old_value : slot V)
    (side index i : Z) twb' :
  update_loop rounds twb old_value side index i = Ok twb' ->
  length twb' = length twb.
Proof.
  revert twb i; induction rounds as [|rounds IH]; intros twb i; simpl;
    [discriminate|].
  destruct (i <? Z.of_nat (length twb)); [|intros H; inversion H; reflexivity].
  intros H. bind_ok H.
  destruct (slot_eqb a old_value); [|inversion H; reflexivity].
  bind_ok H. apply IH in H. rewrite H. eapply setitem_length; eauto.
Qed.

Lemma update_loop_Forall (Q : slot V -> Prop) (rounds : nat) twb
    (old_value : slot V) (side index i : Z) twb' :
  Q (Calc index) -> Forall Q twb ->
  update_loop rounds twb old_value side index i = Ok twb' ->
  Forall Q twb'.
Proof.
  intros Hq. revert twb i; induction rounds as [|rounds IH]; intros twb i Hf;
    simpl; [discriminate|].
  destruct (i <? Z.of_nat (length twb)); [|intros H; inversion H; subst; exact Hf].
  intros H. bind_ok H.
  destruct (slot_eqb a old_value); [|inversion H; subst; exact Hf].
  bind_ok H. eapply IH; [|exact H].
  apply setitem_Ok in Ha0 as (m & _ & ->).
  apply Forall_forall. intros x Hx.
  assert (Hin : x = Calc index \/ In x twb).
  { clear - Hx. revert m Hx. induction twb as [|y twb IHt]; intros [|m]; simpl;
      try tauto.
    - intros [H|H]; auto.
    - intros [H|H]; auto. apply IHt in H. tauto. }
  destruct Hin as [->|Hin]; [exact Hq|].
  rewrite Forall_forall in Hf. auto.
Qed.

(** A round of the last loop of [parse]: what it reads and what it adds. *)
Lemma resolve_step_shape (Q : slot V -> Prop) (n k : Z) twb ops
    (operator_index : Z) twb' ops' :
  (forall index, Q (Calc index)) -> Forall Q twb ->
  resolve_step n (twb, ops) k operator_index = Ok (twb', ops') ->
  Forall Q twb'
  /\ length twb' = length twb
  /\ operator_index + 1 < Z.of_nat (length twb)
  /\ exists operator args,
       ops' = ops ++ [(operator, args)]
       /\ length args = arity operator
       /\ Forall Q args.
Proof.
  intros Hq Hf E. unfold resolve_step in E. bind_ok E. rename a into operator.
  bind_ok E. destruct a as [twb1 ops1].
  bind_ok E. rename a into twb2. inversion E; subst twb' ops'; clear E.
  cbn [fst snd] in *.
  assert (Hget : forall i x, getitem twb i = Ok x -> Q x).
  { intros i x Hx. apply getitem_Ok in Hx as (m & _ & Hx).
    rewrite Forall_forall in Hf. eapply Hf, nth_error_In, Hx. }
  assert (Hset : Forall Q twb1 -> Forall Q twb2).
  { intros H1. apply setitem_Ok in Ha1 as (m & _ & ->).
    clear - H1 Hq. revert m. induction H1 as [|y l Hy Hl IH]; intros [|m];
      simpl; constructor; auto. }
  unfold update_last_calc in Ha0.
  destruct (type operator) eqn:Hty.
  - bind_ok Ha0. rename a into arg. bind_ok Ha0. rename a into twb3.
    inversion Ha0; subst twb1 ops1; clear Ha0.
    bind_ok Ha3.
    pose proof (update_loop_length _ _ _ _ _ _ _ Ha3) as Hlen.
    pose proof (update_loop_Forall Q _ _ _ _ _ _ _ (Hq _) Hf Ha3) as Hf3.
    split; [apply Hset, Hf3|]. split.
    { rewrite (setitem_length _ _ _ _ Ha1). exact Hlen. }
    split; [apply getitem_range in Ha2; lia|].
    exists operator, [arg]. unfold arity. rewrite Hty. repeat split.
    constructor; [eapply Hget, Ha2 | constructor].
  - bind_ok Ha0. rename a into arg1. bind_ok Ha0. rename a into arg2.
    bind_ok Ha0. rename a into twb3. bind_ok Ha0. rename a into twb4.
    inversion Ha0; subst twb1 ops1; clear Ha0.
    bind_ok Ha4. bind_ok Ha5.
    pose proof (update_loop_length _ _ _ _ _ _ _ Ha4) as Hlen3.
    pose proof (update_loop_Forall Q _ _ _ _ _ _ _ (Hq _) Hf Ha4) as Hf3.
    pose proof (update_loop_length _ _ _ _ _ _ _ Ha5) as Hlen4.
    pose proof (update_loop_Forall Q _ _ _ _ _ _ _ (Hq _) Hf3 Ha5) as Hf4.
    split; [apply Hset, Hf4|]. split.
    { rewrite (setitem_length _ _ _ _ Ha1). congruence. }
    split; [apply getitem_range in Ha3; lia|].
    exists operator, [arg1; arg2]. unfold arity. rewrite Hty. repeat split.
    constructor; [eapply Hget, Ha2|].
    constructor; [eapply Hget, Ha3 | constructor].
Qed.

Lemma resolve_loop_shape (Q : slot V -> Prop) (n k : Z) twb ops
    (order : list Z) twb' ops' :
  (forall index, Q (Calc index)) -> Forall Q twb ->
  resolve_loop n (twb, ops) k order = Ok (twb', ops') ->
  Forall (fun operator_index => operator_index + 1 < Z.of_nat (length twb))
    order
  /\ exists new,
       ops' = ops ++ new
       /\ Forall (fun operation =>
                    length (snd operation) = arity (fst operation)
                    /\ Forall Q (snd operation)) new.
Proof.
  intros Hq. revert k twb ops; induction order as [|operator_index order IH];
    intros k twb ops Hf E; simpl in E.
  - inversion E; subst. split; [constructor|]. exists [].
    rewrite app_nil_r. split; [reflexivity | constructor].
  - bind_ok E. destruct a as [twb1 ops1].
    destruct (resolve_step_shape Q _ _ _ _ _ _ _ Hq Hf Ha)
      as (Hf1 & Hlen & Hi & operator & args & -> & Harity & Hargs).
    destruct (IH _ _ _ Hf1 E) as (Horder & new & -> & Hnew).
    split.
    + constructor; [exact Hi|]. rewrite Hlen in Horder. exact Horder.
    + exists ((operator, args) :: new). rewrite <- app_assoc.
      split; [reflexivity|]. constructor; [split; assumption | exact Hnew].
Qed.

(** The tokens without braces are integers and tokens of the text. *)
Lemma stripped_from_tokens (i : nat) (n : Z) (front tokens : list (Token V)) :
  length front = i ->
  Forall (token_slot (front ++ tokens)) (stripped_from i n tokens).
Proof.
  revert i n front; induction tokens as [|t tokens IH]; intros i n front Hi;
    [constructor|].
  assert (Hrest : forall m, Forall (token_slot (front ++ t :: tokens))
                              (stripped_from (S i) m tokens)).
  { intros m. replace (front ++ t :: tokens) with ((front ++ [t]) ++ tokens)
      by (rewrite <- app_assoc; reflexivity).
    apply IH. rewrite length_app; simpl; lia. }
  assert (Ht : nth_error (front ++ t :: tokens) i = Some t).
  { subst i. rewrite nth_error_app2, Nat.sub_diag by lia. reflexivity. }
  destruct t as [name|which|operator|value]; cbn [stripped_from];
    try (constructor; [exact Ht | apply Hrest]); [apply Hrest|].
  constructor; [exact I | apply Hrest].
Qed.

Lemma operators_of_occurrences (depth position : Z) tokens :
  map occ_operator (occurrences_from depth position tokens)
  = operators_of tokens.
Proof.
  revert depth position; induction tokens as [|t tokens IH];
    intros depth position; [reflexivity|].
  destruct t as [name|[|]|operator|value]; simpl; rewrite ?IH; reflexivity.
Qed.

(** X6: What [parse] makes of the operators of the tokens: one operation for
    each occurrence of an operator; the operation has one operand when the
    operator is unary and two when it is binary; and an operand that is not
    an integer is a token of the text. *)
Theorem operations_of_operators tokens (e : ParsedExpression V) :
  parse_tokens tokens = Ok e ->
  Permutation (map fst (operations e)) (operators_of tokens)
  /\ Forall (operation_ok tokens) (operations e).
Proof.
  intros He. split.
  - destruct (parse_tokens_Ok tokens e He)
      as (st & order & Hscan & Horder & _ & _ & Hf).
    destruct (calculation_order_occurrences tokens st Hscan)
      as (occs & Hperm & _ & Horder').
    rewrite Horder in Horder'. inversion Horder'; subst order.
    rewrite (operators_follow_order _ occs _ Hf).
    + rewrite <- (operators_of_occurrences 0 0 tokens).
      apply Permutation_map, Permutation_sym, Hperm.
    + intros o Ho. apply (Permutation_in _ (Permutation_sym Hperm)) in Ho.
      apply (operator_at_occurrence [] 0 0 0 tokens o Ho).
  - unfold parse_tokens in He. bind_ok He. rename a into st.
    bind_ok He. rename a into order. bind_ok He. destruct a as [twb' ops'].
    inversion He; subst e; clear He.
    cbn [snd operations ParsedExpression_init].
    destruct (scan_tokens_lists tokens st Ha) as (Htwb & _ & _).
    rewrite Htwb in Ha1.
    destruct (resolve_loop_shape (token_slot tokens) _ _ _ _ _ _ _
                (fun _ => I) (stripped_from_tokens 0 0 [] tokens eq_refl) Ha1)
      as (_ & new & -> & Hnew).
    exact Hnew.
Qed.

Lemma stripped_from_braces (i : nat) (n : Z) tokens :
  forallb is_brace tokens = true -> stripped_from i n tokens = [].
Proof.
  revert i; induction tokens as [|t tokens IH]; intros i H; [reflexivity|].
  simpl in H. apply andb_true_iff in H as [Ht H].
  destruct t; try discriminate. simpl. apply IH, H.
Qed.

Lemma occurrences_from_app (depth position : Z) (i : nat) (n : Z)
    (tokens1 tokens2 : list (Token V)) :
  exists depth',
    occurrences_from depth position (tokens1 ++ tokens2)
    = occurrences_from depth position tokens1
      ++ occurrences_from depth'
           (position + Z.of_nat (length (stripped_from i n tokens1))) tokens2.
Proof.
  revert depth position i n; induction tokens1 as [|t tokens1 IH];
    intros depth position i n.
  - exists depth. simpl. rewrite Z.add_0_r. reflexivity.
  - destruct t as [name|[|]|operator|value];
      cbn [app occurrences_from stripped_from length].
    + destruct (IH depth (position + 1) (S i) n) as [d' ->]. exists d'.
      do 2 f_equal. lia.
    + destruct (IH (depth + 1) position (S i) n) as [d' ->]. exists d'.
      reflexivity.
    + destruct (IH (depth - 1) position (S i) n) as [d' ->]. exists d'.
      reflexivity.
    + destruct (IH depth (position + 1) (S i) n) as [d' ->]. exists d'.
      cbn [app]. do 3 f_equal. lia.
    + destruct (IH depth (position + 1) (S i) (n + 1)) as [d' ->]. exists d'.
      do 2 f_equal. lia.
Qed.

(** X7: [parse] never returns for a text whose last token, braces apart, is an
    operator: the operand to its right is missing, and the subscript after
    the last raises [IndexError] unless an earlier round has raised. *)
Theorem trailing_operator_fails (front back : list (Token V))
    (operator : Operator V) :
  forallb is_brace back = true ->
  exists err,
    parse_tokens (front ++ OperatorToken operator :: back) = Raise err.
Proof.
  intros Hback.
  destruct (parse_tokens (front ++ OperatorToken operator :: back))
    as [e|err] eqn:He; [exfalso | eauto].
  set (tokens := front ++ OperatorToken operator :: back) in *.
  unfold parse_tokens in He. bind_ok He. rename a into st.
  bind_ok He. rename a into order. bind_ok He. destruct a as [twb' ops'].
  destruct (scan_tokens_lists tokens st Ha) as (Htwb & _ & _).
  destruct (calculation_order_occurrences tokens st Ha)
    as (occs & Hperm & _ & Horder).
  rewrite Ha0 in Horder. inversion Horder; subst order.
  rewrite Htwb in Ha1.
  destruct (resolve_loop_shape (fun _ => True) _ _ _ _ _ _ _
              (fun _ => I) ltac:(apply Forall_forall; auto) Ha1)
    as (Hall & _).
  unfold tokens in Hall, Hperm.
  rewrite stripped_from_app in Hall. cbn [stripped_from] in Hall.
  rewrite (stripped_from_braces _ _ back Hback) in Hall.
  rewrite length_app in Hall. cbn [length] in Hall.
  destruct (occurrences_from_app 0 0 0 0 front (OperatorToken operator :: back))
    as [d' Happ].
  set (o := {| occ_depth := d'; occ_operator := operator;
               occ_position := 0 + Z.of_nat (length (stripped_from 0 0 front)) |}).
  assert (Ho : In o occs).
  { apply (Permutation_in _ Hperm). unfold occurrences. rewrite Happ.
    apply in_or_app. right. left. reflexivity. }
  rewrite Forall_forall in Hall.
  specialize (Hall (occ_position o) (in_map _ _ _ Ho)).
  unfold o in Hall. simpl in Hall. lia.
Qed.
End Operations.

(** A witness of [operations_of_operators]: the tokens of [a -> b -> c]. *)
Lemma operations_of_operators_witness :
  Permutation (map fst (operations Examples.chain_parsed))
    (operators_of Examples.chain)
  /\ Forall (operation_ok Examples.chain) (operations Examples.chain_parsed).
Proof.
  apply (operations_of_operators Examples.chain Examples.chain_parsed).
  reflexivity.
Defined.

(** A witness of [trailing_operator_fails]: the tokens of [(a ->)]. *)
Lemma trailing_operator_fails_witness :
  exists err,
    parse_tokens
      ([BraceToken OPEN; VariableToken (lit "a")]
       ++ OperatorToken Examples.impl :: [BraceToken CLOSE])
    = Raise err.
Proof.
  apply (trailing_operator_fails [BraceToken OPEN; VariableToken (lit "a")]
           [BraceToken CLOSE] Examples.impl).
  reflexivity.
Defined.

(** ** What a round of the resolver writes *)

Section Propagation.
Context {V : Type}.
Implicit Types (twb : list (slot V))
  (ops : list (Operator V * list (slot V))).

Lemma slot_eqb_refl (x : slot V) : slot_eqb x x = true.
Proof. destruct x; simpl; [apply Z.eqb_refl | apply Nat.eqb_refl]. Qed.

Lemma written_refl (index : Z) twb : Forall2 (written index) twb twb.
Proof. induction twb; constructor; [left; reflexivity | assumption]. Qed.

Lemma written_trans (index : Z) twb1 twb2 twb3 :
  Forall2 (written index) twb1 twb2 -> Forall2 (written index) twb2 twb3 ->
  Forall2 (written index) twb1 twb3.
Proof.
  intros H. revert twb3; induction H as [|x y l1 l2 Hxy H12 IH]; intros twb3 H;
    inversion H; subst; constructor; [|apply IH; assumption].
  unfold written in *. destruct Hxy as [->| ->]; [assumption|].
  match goal with W : _ \/ _ |- _ => destruct W as [->| ->]; auto end.
Qed.

Lemma list_set_written (index : Z) twb (n : nat) :
  Forall2 (written index) twb (list_set twb n (Calc index)).
Proof.
  apply Forall2_list_set; [right; reflexivity | apply written_refl].
Qed.

Lemma setitem_written (index : Z) twb (i : Z) twb' :
  setitem twb i (Calc index) = Ok twb' -> Forall2 (written index) twb twb'.
Proof.
  intros H. apply setitem_Ok in H as (n & _ & ->). apply list_set_written.
Qed.

Lemma setitem_getitem twb (i : Z) (x : slot V) twb' :
  setitem twb i x = Ok twb' -> getitem twb' i = Ok x.
Proof.
  intros H. apply setitem_Ok in H as (n & Hn & ->).
  unfold getitem. rewrite length_list_set, Hn.
  apply norm_index_Some in Hn as [_ Hn].
  destruct (nth_error twb n) as [y|] eqn:E;
    [|apply nth_error_None in E; lia].
  rewrite (nth_error_list_set_eq _ _ x y E). reflexivity.
Qed.

Lemma getitem_written (index : Z) twb twb' (i : Z) :
  Forall2 (written index) twb twb' ->
  getitem twb i = Ok (Calc index) -> getitem twb' i = Ok (Calc index).
Proof.
  intros H Hx. apply getitem_Ok in Hx as (n & Hn & Hx).
  unfold getitem. rewrite <- (Forall2_length H), Hn.
  destruct (nth_error twb' n) as [y|] eqn:E.
  - destruct (Forall2_nth_error_r _ _ _ _ _ H E) as (x0 & Hx0 & Hw).
    rewrite Hx in Hx0. inversion Hx0; subst x0.
    destruct Hw as [->| ->]; reflexivity.
  - apply nth_error_None in E.
    assert (n < length twb)%nat by (apply nth_error_Some; congruence).
    rewrite <- (Forall2_length H) in E. lia.
Qed.

Lemma update_loop_written (rounds : nat) twb (old_value : slot V)
    (side index i : Z) twb' :
  update_loop rounds twb old_value side index i = Ok twb' ->
  Forall2 (written index) twb twb'.
Proof.
  revert twb i; induction rounds as [|rounds IH]; intros twb i; simpl;
    [discriminate|].
  destruct (i <? Z.of_nat (length twb));
    [|intros H; inversion H; apply written_refl].
  intros H. bind_ok H.
  destruct (slot_eqb a old_value); [|inversion H; apply written_refl].
  bind_ok H. eapply written_trans; [eapply setitem_written, Ha0|].
  eapply IH, H.
Qed.

(** [update_last_calc] writes the subscript at the place beside the
    operator, and nothing but the subscript anywhere. *)
Lemma update_last_calc_written twb (operator_index side index : Z) twb' :
  update_last_calc twb operator_index side index = Ok twb' ->
  getitem twb' (operator_index + side) = Ok (Calc index)
  /\ Forall2 (written index) twb twb'.
Proof.
  unfold update_last_calc. intros H. bind_ok H. rename a into old_value.
  pose proof (update_loop_written _ _ _ _ _ _ _ H) as Hw.
  split; [|exact Hw].
  replace (2 * length twb + 1)%nat with (S (2 * length twb)) in H by lia.
  cbn [update_loop] in H.
  pose proof (getitem_range _ _ _ Ha) as Hr.
  rewrite (proj2 (Z.ltb_lt _ _)) in H by lia.
  rewrite Ha in H. cbn [bind] in H. rewrite slot_eqb_refl in H.
  bind_ok H. rename a into twb1.
  eapply getitem_written; [eapply update_loop_written, H|].
  eapply setitem_getitem, Ha0.
Qed.

(** X8: A round of the last loop of [parse] leaves the subscript of its
    operation at the place of the operator and at the places of its
    operands; every other place keeps its element or takes that
    subscript. *)
Theorem resolve_step_writes (n k : Z) twb ops (operator_index : Z) twb' ops' :
  resolve_step n (twb, ops) k operator_index = Ok (twb', ops') ->
  getitem twb' operator_index = Ok (Calc (k + n))
  /\ getitem twb' (operator_index + 1) = Ok (Calc (k + n))
  /\ (forall operator,
        operator_at twb operator_index = Ok operator ->
        type operator = Binary ->
        getitem twb' (operator_index - 1) = Ok (Calc (k + n)))
  /\ Forall2 (written (k + n)) twb twb'.
Proof.
  intros E. unfold resolve_step in E. bind_ok E. rename a into operator.
  bind_ok E. destruct a as [twb1 ops1].
  bind_ok E. rename a into twb2. inversion E; subst twb' ops'; clear E.
  cbn [fst snd] in *.
  pose proof (setitem_written _ _ _ _ Ha1) as Hw2.
  split; [eapply setitem_getitem, Ha1|].
  destruct (type operator) eqn:Hty.
  - bind_ok Ha0. bind_ok Ha0. inversion Ha0; subst; clear Ha0.
    destruct (update_last_calc_written _ _ _ _ _ Ha3) as [Hg Hw].
    split; [eapply getitem_written; eassumption|].
    split; [|eapply written_trans; eassumption].
    intros operator' Hop Hty'. rewrite Ha in Hop. inversion Hop; subst.
    congruence.
  - bind_ok Ha0. bind_ok Ha0. bind_ok Ha0. rename a1 into twb3.
    bind_ok Ha0. inversion Ha0; subst; clear Ha0.
    destruct (update_last_calc_written _ _ _ _ _ Ha4) as [Hg Hw].
    destruct (update_last_calc_written _ _ _ _ _ Ha5) as [Hg' Hw'].
    split.
    { eapply getitem_written; [exact Hw2|].
      eapply getitem_written; eassumption. }
    split.
    { intros _ _ _. eapply getitem_written; [exact Hw2|].
      replace (operator_index - 1) with (operator_index + -1) by lia.
      exact Hg'. }
    eapply written_trans; [|exact Hw2].
    eapply written_trans; eassumption.
Qed.
End Propagation.

(** A witness of [resolve_step_writes]: the operator [->] between two
    variables. *)
Lemma resolve_step_writes_witness :
  getitem [Calc 0; Calc 0; Calc 0] 1 = Ok (@Calc Z (0 + 0))
  /\ getitem [Calc 0; Calc 0; Calc 0] (1 + 1) = Ok (@Calc Z (0 + 0))
  /\ (forall operator,
        operator_at a_impl_b_slots 1 = Ok operator ->
        type operator = Binary ->
        getitem [Calc 0; Calc 0; Calc 0] (1 - 1) = Ok (@Calc Z (0 + 0)))
  /\ Forall2 (written (0 + 0)) a_impl_b_slots [Calc 0; Calc 0; Calc 0].
Proof.
  apply (resolve_step_writes 0 0 a_impl_b_slots [] 1 [Calc 0; Calc 0; Calc 0]
           [(Examples.impl,
             [Ref 0 (VariableToken (lit "a")); Ref 2 (VariableToken (lit "b"))])]).
  reflexivity.
Defined.

(** ** The bindings that a call reads *)

Section Bindings.
Context {V : Type}.
Implicit Types (ops : list (Operator V * list (slot V))) (stack : list V).




Lemma getitem_last (l : list V) : getitem l (-1) = last_value l.
Proof.
  unfold last_value. destruct l as [|x l] using rev_ind; [reflexivity|].
  rewrite rev_app_distr. cbn [rev app].
  unfold getitem, norm_index. rewrite length_app. cbn [length].
  replace (0 <=? -1) with false by reflexivity. cbn [andb].
  rewrite (proj2 (Z.leb_le _ _)) by lia.
  replace (-1 <? 0) with true by reflexivity. cbn [andb].
  replace (Z.to_nat (Z.of_nat (length l + 1) + -1)) with (length l) by lia.
  rewrite nth_error_app2, Nat.sub_diag by lia. reflexivity.
Qed.


End Bindings.



(** ** Braces around a whole expression *)

Section Enclosed.
Context {V : Type}.
Implicit Types (twb : list (slot V)) (tokens : list (Token V))
  (ops : list (Operator V * list (slot V))).

Lemma slot_eqb_moved (x y x' y' : slot V) :
  moved x x' -> moved y y' -> slot_eqb x' y' = slot_eqb x y.
Proof.
  destruct x, x', y, y'; simpl; try tauto; try (intros; subst; reflexivity).
  intros [-> _] [-> _]. reflexivity.
Qed.

Lemma getitem_moved twb twb' (i : Z) (x : slot V) :
  Forall2 moved twb twb' -> getitem twb i = Ok x ->
  exists x', getitem twb' i = Ok x' /\ moved x x'.
Proof.
  intros H Hx. apply getitem_Ok in Hx as (n & Hn & Hx).
  unfold getitem. rewrite <- (Forall2_length H), Hn.
  destruct (nth_error twb' n) as [x'|] eqn:E.
  - exists x'. split; [reflexivity|].
    destruct (Forall2_nth_error_r _ _ _ _ _ H E) as (x0 & Hx0 & Hm).
    congruence.
  - apply nth_error_None in E.
    assert (n < length twb)%nat by (apply nth_error_Some; congruence).
    rewrite <- (Forall2_length H) in E. lia.
Qed.

Lemma setitem_moved twb twb' (i : Z) (x x' : slot V) twb1 :
  Forall2 moved twb twb' -> moved x x' -> setitem twb i x = Ok twb1 ->
  exists twb1', setitem twb' i x' = Ok twb1' /\ Forall2 moved twb1 twb1'.
Proof.
  intros H Hx E. apply setitem_Ok in E as (n & Hn & ->).
  unfold setitem. rewrite <- (Forall2_length H), Hn.
  eexists. split; [reflexivity|].
  clear Hn. revert n. induction H as [|y y' l l' Hy Hl IH]; intros [|n];
    simpl; constructor; auto.
Qed.

Lemma update_loop_moved (rounds : nat) twb twb' (old_value old_value' : slot V)
    (side index i : Z) twb1 :
  Forall2 moved twb twb' -> moved old_value old_value' ->
  update_loop rounds twb old_value side index i = Ok twb1 ->
  exists twb1',
    update_loop rounds twb' old_value' side index i = Ok twb1'
    /\ Forall2 moved twb1 twb1'.
Proof.
  intros H Hold. revert twb twb' i H;
    induction rounds as [|rounds IH]; intros twb twb' i H E;
    cbn [update_loop] in *; [discriminate|].
  rewrite <- (Forall2_length H).
  destruct (i <? Z.of_nat (length twb)) eqn:Hi;
    [|inversion E; subst; eauto].
  bind_ok E. destruct (getitem_moved _ _ _ _ H Ha) as (a' & -> & Hm).
  cbn [bind]. rewrite (slot_eqb_moved _ _ _ _ Hm Hold).
  destruct (slot_eqb a old_value); [|inversion E; subst; eauto].
  bind_ok E.
  destruct (setitem_moved _ _ _ (Calc index) (Calc index) _ H eq_refl Ha0)
    as (twb2' & -> & H2).
  cbn [bind]. eapply IH; eassumption.
Qed.

Lemma update_last_calc_moved twb twb' (operator_index side index : Z) twb1 :
  Forall2 moved twb twb' ->
  update_last_calc twb operator_index side index = Ok twb1 ->
  exists twb1',
    update_last_calc twb' operator_index side index = Ok twb1'
    /\ Forall2 moved twb1 twb1'.
Proof.
  intros H E. unfold update_last_calc in *. bind_ok E.
  destruct (getitem_moved _ _ _ _ H Ha) as (a' & -> & Hm). cbn [bind].
  rewrite <- (Forall2_length H). eapply update_loop_moved; eassumption.
Qed.

Lemma operator_at_moved twb twb' (i : Z) (operator : Operator V) :
  Forall2 moved twb twb' -> operator_at twb i = Ok operator ->
  operator_at twb' i = Ok operator.
Proof.
  intros H E. unfold operator_at in *. bind_ok E.
  destruct (getitem_moved _ _ _ _ H Ha) as (a' & -> & Hm). cbn [bind].
  destruct a as [n|id t], a' as [n'|id' t']; simpl in Hm; try tauto;
    try discriminate.
  destruct Hm as [_ ->]. exact E.
Qed.

Lemma resolve_step_moved (n k : Z) twb twb' ops ops' (operator_index : Z)
    twb1 ops1 :
  Forall2 moved twb twb' -> Forall2 moved_operation ops ops' ->
  resolve_step n (twb, ops) k operator_index = Ok (twb1, ops1) ->
  exists twb1' ops1',
    resolve_step n (twb', ops') k operator_index = Ok (twb1', ops1')
    /\ Forall2 moved twb1 twb1' /\ Forall2 moved_operation ops1 ops1'.
Proof.
  intros H Hops E. unfold resolve_step in *. bind_ok E. rename a into operator.
  rewrite (operator_at_moved _ _ _ _ H Ha). cbn [bind].
  bind_ok E. destruct a as [twb2 ops2]. bind_ok E. rename a into twb3.
  inversion E; subst twb1 ops1; clear E. cbn [fst snd] in *.
  destruct (type operator).
  - bind_ok Ha0. rename a into arg. bind_ok Ha0. rename a into twb4.
    inversion Ha0; subst twb2 ops2; clear Ha0.
    destruct (getitem_moved _ _ _ _ H Ha2) as (arg' & -> & Harg).
    destruct (update_last_calc_moved _ _ _ _ _ _ H Ha3) as (twb4' & -> & H4).
    cbn [bind fst snd].
    destruct (setitem_moved _ _ _ (Calc (k + n)) (Calc (k + n)) _ H4 eq_refl Ha1)
      as (twb3' & -> & H3).
    cbn [bind]. do 2 eexists. split; [reflexivity|]. split; [exact H3|].
    apply Forall2_app; [exact Hops|]. constructor; [|constructor].
    split; [reflexivity|]. constructor; [exact Harg | constructor].
  - bind_ok Ha0. rename a into arg1. bind_ok Ha0. rename a into arg2.
    bind_ok Ha0. rename a into twb4. bind_ok Ha0. rename a into twb5.
    inversion Ha0; subst twb2 ops2; clear Ha0.
    destruct (getitem_moved _ _ _ _ H Ha2) as (arg1' & -> & Harg1).
    destruct (getitem_moved _ _ _ _ H Ha3) as (arg2' & -> & Harg2).
    destruct (update_last_calc_moved _ _ _ _ _ _ H Ha4) as (twb4' & -> & H4).
    cbn [bind].
    destruct (update_last_calc_moved _ _ _ _ _ _ H4 Ha5) as (twb5' & -> & H5).
    cbn [bind fst snd].
    destruct (setitem_moved _ _ _ (Calc (k + n)) (Calc (k + n)) _ H5 eq_refl Ha1)
      as (twb3' & -> & H3).
    cbn [bind]. do 2 eexists. split; [reflexivity|]. split; [exact H3|].
    apply Forall2_app; [exact Hops|]. constructor; [|constructor].
    split; [reflexivity|].
    constructor; [exact Harg1|]. constructor; [exact Harg2 | constructor].
Qed.

Lemma resolve_loop_moved (n k : Z) twb twb' ops ops' (order : list Z)
    twb1 ops1 :
  Forall2 moved twb twb' -> Forall2 moved_operation ops ops' ->
  resolve_loop n (twb, ops) k order = Ok (twb1, ops1) ->
  exists twb1' ops1',
    resolve_loop n (twb', ops') k order = Ok (twb1', ops1')
    /\ Forall2 moved_operation ops1 ops1'.
Proof.
  revert k twb twb' ops ops'; induction order as [|operator_index order IH];
    intros k twb twb' ops ops' H Hops E; cbn [resolve_loop] in *.
  - inversion E; subst. eauto.
  - bind_ok E. destruct a as [twb2 ops2].
    destruct (resolve_step_moved _ _ _ _ _ _ _ _ _ H Hops Ha)
      as (twb2' & ops2' & -> & H2 & Hops2).
    cbn [bind]. eapply IH; eassumption.
Qed.

Lemma scan_step_moved (st st' : scan V) (i : nat) (t : Token V) st1 :
  moved_scan st st' -> scan_step st i t = Ok st1 ->
  exists st1', scan_step st' (S i) t = Ok st1' /\ moved_scan st1 st1'.
Proof.
  intros (Ho & Hc & Hd & Hp & Ht) E.
  assert (Hone : forall t', Forall2 moved
                   (tokens_without_braces st ++ [Ref i t'])
                   (tokens_without_braces st' ++ [Ref (S i) t'])).
  { intros t'. apply Forall2_app; [exact Ht|]. constructor; [|constructor].
    split; reflexivity. }
  destruct t as [name|[|]|operator|value]; cbn [scan_step] in *.
  - inversion E; subst st1; clear E. eexists. split; [reflexivity|].
    unfold moved_scan; cbn [open_braces close_braces operators_data
      scan_precalculated tokens_without_braces]. auto.
  - inversion E; subst st1; clear E. eexists. split; [reflexivity|].
    unfold moved_scan; cbn [open_braces close_braces operators_data
      scan_precalculated tokens_without_braces]. repeat apply conj; auto. lia.
  - rewrite Ho, Hc.
    destruct (open_braces st - (close_braces st + 1) <? 0) eqn:Hlt;
      [discriminate|].
    apply Z.ltb_ge in Hlt. rewrite (proj2 (Z.ltb_ge _ _)) by lia.
    inversion E; subst st1; clear E. eexists. split; [reflexivity|].
    unfold moved_scan; cbn [open_braces close_braces operators_data
      scan_precalculated tokens_without_braces]. auto.
  - inversion E; subst st1; clear E. eexists. split; [reflexivity|].
    unfold moved_scan; cbn [open_braces close_braces operators_data
      scan_precalculated tokens_without_braces]. repeat apply conj; auto.
    rewrite Hd, map_app, Ho, Hc. cbn [map fst snd]. do 3 f_equal; lia.
  - inversion E; subst st1; clear E. eexists. split; [reflexivity|].
    unfold moved_scan; cbn [open_braces close_braces operators_data
      scan_precalculated tokens_without_braces]. repeat apply conj; auto.
    + rewrite Hp. reflexivity.
    + apply Forall2_app; [exact Ht|]. constructor; [|constructor].
      unfold moved. rewrite Hp. reflexivity.
Qed.

Lemma scan_loop_moved tokens (st st' : scan V) (i : nat) st1 :
  moved_scan st st' -> scan_loop st i tokens = Ok st1 ->
  exists st1', scan_loop st' (S i) tokens = Ok st1' /\ moved_scan st1 st1'.
Proof.
  revert st st' i; induction tokens as [|t tokens IH]; intros st st' i H E;
    cbn [scan_loop] in *.
  - inversion E; subst. eauto.
  - bind_ok E. destruct (scan_step_moved _ _ _ _ _ H Ha) as (st2' & -> & H2).
    cbn [bind]. eapply IH; eassumption.
Qed.

Lemma scan_loop_app tokens1 tokens2 (st : scan V) (i : nat) :
  scan_loop st i (tokens1 ++ tokens2)
  = (st' <- scan_loop st i tokens1 ;;
     scan_loop st' (i + length tokens1) tokens2).
Proof.
  revert st i; induction tokens1 as [|t tokens1 IH]; intros st i;
    cbn [app scan_loop length bind].
  - rewrite Nat.add_0_r. reflexivity.
  - destruct (scan_step st i t) as [st'|err]; cbn [bind]; [|reflexivity].
    rewrite IH. replace (S i + length tokens1)%nat
      with (i + S (length tokens1))%nat by lia.
    reflexivity.
Qed.

(** The comparison of two keys does not change when both depths grow by
    one. *)
Lemma key_ltb_deeper (a b : key) :
  key_ltb (fst (fst a) + 1, snd (fst a), snd a)
          (fst (fst b) + 1, snd (fst b), snd b)
  = key_ltb a b.
Proof.
  destruct a as [[a0 a1] a2], b as [[b0 b1] b2]. cbn [key_ltb fst snd].
  replace (a0 + 1 =? b0 + 1) with (a0 =? b0)
    by (destruct (Z.eqb_spec a0 b0), (Z.eqb_spec (a0 + 1) (b0 + 1));
        try reflexivity; lia).
  replace (a0 + 1 <? b0 + 1) with (a0 <? b0)
    by (destruct (Z.ltb_spec a0 b0), (Z.ltb_spec (a0 + 1) (b0 + 1));
        try reflexivity; lia).
  reflexivity.
Qed.

Lemma insert_reverse_deeper (x : key * (Z * Z)) (l : list (key * (Z * Z))) :
  insert_reverse (deeper x) (map deeper l) = map deeper (insert_reverse x l).
Proof.
  induction l as [|y l IH]; [reflexivity|].
  cbn [map insert_reverse].
  assert (Hk : key_ltb (fst (deeper x)) (fst (deeper y))
               = key_ltb (fst x) (fst y)) by apply key_ltb_deeper.
  rewrite Hk.
  destruct (key_ltb (fst x) (fst y)); cbn [map]; [rewrite IH|]; reflexivity.
Qed.

Lemma calculation_order_moved (st st' : scan V) (order : list Z) :
  moved_scan st st' -> calculation_order st = Ok order ->
  calculation_order st' = Ok order.
Proof.
  intros (_ & _ & Hd & _ & Ht) E. unfold calculation_order, sorted_reverse in *.
  bind_ok E. bind_ok Ha. inversion Ha; subst a; clear Ha.
  inversion E; subst order; clear E. rewrite Hd.
  assert (Hk : keyed (sort_key (tokens_without_braces st'))
                 (map (fun data => (fst data + 1, snd data)) (operators_data st))
               = Ok (map deeper a0)).
  { clear - Ha0 Ht. revert a0 Ha0.
    induction (operators_data st) as [|data l IH]; intros kl E;
      cbn [keyed map] in *.
    - inversion E; reflexivity.
    - bind_ok E. bind_ok E. inversion E; subst kl; clear E.
      rewrite (IH _ Ha0).
      assert (Hkey : sort_key (tokens_without_braces st')
                       (fst data + 1, snd data)
                     = Ok (fst (deeper (a, data)))).
      { unfold sort_key in Ha |- *. cbn [fst snd]. bind_ok Ha.
        rewrite (operator_at_moved _ _ _ _ Ht Ha1). cbn [bind].
        inversion Ha; subst a. reflexivity. }
      rewrite Hkey. reflexivity. }
  rewrite Hk. cbn [bind]. f_equal.
  assert (Hs : fold_right insert_reverse [] (map deeper a0)
               = map deeper (fold_right insert_reverse [] a0)).
  { clear. induction a0 as [|x l IH]; [reflexivity|].
    cbn [map fold_right]. rewrite IH. apply insert_reverse_deeper. }
  rewrite Hs, !map_map. reflexivity.
Qed.

Lemma arguments_moved (stack : list V) kwargs (params params' : list (slot V)) :
  Forall2 moved params params' ->
  arguments stack kwargs params' = arguments stack kwargs params.
Proof.
  induction 1 as [|x x' l l' Hx Hl IH]; [reflexivity|].
  cbn [arguments]. rewrite IH.
  replace (argument stack kwargs x') with (argument stack kwargs x);
    [reflexivity|].
  destruct x as [n|id t], x' as [n'|id' t']; simpl in Hx; try tauto.
  - subst. reflexivity.
  - destruct Hx as [_ ->]. reflexivity.
Qed.

Lemma call_loop_moved ops ops' kwargs (stack : list V) :
  Forall2 moved_operation ops ops' ->
  call_loop ops' kwargs stack = call_loop ops kwargs stack.
Proof.
  intros H. revert stack; induction H as [|o o' l l' [Hf Ha] Hl IH];
    intros stack; [reflexivity|].
  cbn [call_loop]. rewrite (arguments_moved _ _ _ _ Ha), Hf.
  destruct (arguments stack kwargs (snd o)) as [args|err]; [|reflexivity].
  cbn [bind]. destruct (func (fst o) args) as [v|err]; [|reflexivity].
  cbn [bind]. apply IH.
Qed.

(** X11: A pair of braces around a whole expression changes nothing: when
    [parse] returns for the tokens, it returns for the tokens between an
    open and a close brace, with the same constants and the same operators
    in the same order, and every call of the two expressions returns the
    same, or raises the same. *)
Theorem parse_tokens_enclosed tokens (e : ParsedExpression V) :
  parse_tokens tokens = Ok e ->
  exists e',
    parse_tokens (BraceToken OPEN :: tokens ++ [BraceToken CLOSE]) = Ok e'
    /\ precalculated e' = precalculated e
    /\ map fst (operations e') = map fst (operations e)
    /\ forall kwargs, call e' kwargs = call e kwargs.
Proof.
  intros E. unfold parse_tokens in E. bind_ok E. rename a into st.
  bind_ok E. rename a into order. bind_ok E. destruct a as [twb1 ops1].
  inversion E; subst e; clear E.
  unfold scan_tokens in Ha. bind_ok Ha. rename a into st0.
  destruct (open_braces st0 - close_braces st0 =? 0) eqn:Hbal;
    [|discriminate].
  cbn [negb] in Ha. inversion Ha; subst st0; clear Ha.
  apply Z.eqb_eq in Hbal.
  assert (Hinit : moved_scan (V:=V) scan_init
                    {| open_braces := 0 + 1; close_braces := 0;
                       operators_data := []; variables := [];
                       scan_precalculated := [];
                       tokens_without_braces := [] |}).
  { repeat split. constructor. }
  destruct (scan_loop_moved _ _ _ _ _ Hinit Ha2) as (st' & Hst' & Hm).
  pose proof Hm as (Ho & Hc & Hd & Hp & Ht).
  set (st'' := {| open_braces := open_braces st';
                  close_braces := close_braces st' + 1;
                  operators_data := operators_data st';
                  variables := variables st';
                  scan_precalculated := scan_precalculated st';
                  tokens_without_braces := tokens_without_braces st' |}).
  assert (Hscan : scan_tokens (BraceToken OPEN :: tokens ++ [BraceToken CLOSE])
                  = Ok st'').
  { unfold scan_tokens.
    change (scan_loop scan_init 0
              (BraceToken OPEN :: tokens ++ [BraceToken CLOSE]))
      with (scan_loop {| open_braces := 0 + 1; close_braces := 0;
                         operators_data := []; variables := [];
                         scan_precalculated := [];
                         tokens_without_braces := [] |} 1
              (tokens ++ [BraceToken (V:=V) CLOSE])).
    rewrite scan_loop_app, Hst'.
    cbn [bind scan_loop scan_step].
    rewrite (proj2 (Z.ltb_ge _ _)) by lia. fold st''.
    cbn [bind]. unfold st''. cbn [open_braces close_braces].
    rewrite (proj2 (Z.eqb_eq _ _)) by lia. reflexivity. }
  assert (Hm'' : moved_scan st
                   {| open_braces := open_braces st'' - 1 + 1;
                      close_braces := close_braces st'' - 1;
                      operators_data := operators_data st'';
                      variables := variables st'';
                      scan_precalculated := scan_precalculated st'';
                      tokens_without_braces := tokens_without_braces st'' |}).
  { unfold st''. repeat split; cbn; try assumption; lia. }
  assert (Horder : calculation_order st'' = Ok order).
  { rewrite <- (calculation_order_moved _ _ _ Hm'' Ha0). reflexivity. }
  destruct (resolve_loop_moved _ _ _ _ _ _ _ _ _ Ht (Forall2_nil _) Ha1)
    as (twb1' & ops1' & Hres & Hops).
  exists (ParsedExpression_init ops1' (Some (scan_precalculated st))).
  split; [|split; [reflexivity|split]].
  - unfold parse_tokens. rewrite Hscan. cbn [bind]. rewrite Horder.
    cbn [bind]. unfold st''. cbn [scan_precalculated tokens_without_braces].
    rewrite Hp, Hres. reflexivity.
  - cbn [operations ParsedExpression_init snd]. clear - Hops.
    induction Hops as [|o o' l l' [Hf _] Hl IH]; [reflexivity|].
    cbn [map]. rewrite Hf, IH. reflexivity.
  - intros kwargs. unfold call. cbn [operations precalculated
      ParsedExpression_init snd].
    rewrite (call_loop_moved _ _ _ _ Hops). reflexivity.
Qed.
End Enclosed.

(** A witness of [parse_tokens_enclosed]: the tokens of [a -> b -> c]. *)
Lemma parse_tokens_enclosed_witness :
  exists e',
    parse_tokens (BraceToken OPEN :: Examples.chain ++ [BraceToken CLOSE])
    = Ok e'
    /\ precalculated e' = precalculated Examples.chain_parsed
    /\ map fst (operations e') = map fst (operations Examples.chain_parsed)
    /\ forall kwargs, call e' kwargs = call Examples.chain_parsed kwargs.
Proof.
  apply (parse_tokens_enclosed Examples.chain Examples.chain_parsed).
  reflexivity.
Defined.

(** ** Two operators side by side *)

Section Precedence.
Context {V : Type}.

(** The comparison of the keys of two operators at the same depth, the
    second further to the right. *)
Lemma key_ltb_priority (p1 p2 : number) (x1 x2 : Z) :
  x1 < x2 ->
  key_ltb (0, number_neg p1, - x1) (0, number_neg p2, - x2)
  = number_ltb p2 p1.
Proof.
  intros Hx. cbn [key_ltb]. change (0 =? 0) with true. cbn [negb].
  destruct p1 as [z1| |], p2 as [z2| |]; cbn [number_neg number_eqb number_ltb negb];
    try reflexivity; try (apply Z.ltb_ge; lia).
  destruct (Z.eqb_spec (- z1) (- z2)) as [E|E]; cbn [negb].
  - rewrite (proj2 (Z.ltb_ge z2 z1)) by lia. apply Z.ltb_ge. lia.
  - destruct (Z.ltb_spec z2 z1); [apply Z.ltb_lt | apply Z.ltb_ge]; lia.
Qed.

(** X12: Two binary operators between three variables, no braces: the operator
    on the left is resolved first, and its result is the left operand of
    the other, unless the operator on the right has the strictly lower
    priority number; then that one is first, and its result is the right
    operand of the operator on the left. *)
Theorem two_binary_operators (o1 o2 : Operator V) (a b c : str) :
  type o1 = Binary -> type o2 = Binary ->
  parse_tokens
    [VariableToken a; OperatorToken o1; VariableToken b; OperatorToken o2;
     VariableToken c]
  = Ok (if number_ltb (priority o2) (priority o1)
        then {| operations :=
                  [(o2, [Ref 2 (VariableToken b); Ref 4 (VariableToken c)]);
                   (o1, [Ref 0 (VariableToken a); Calc 0])];
                precalculated := [] |}
        else {| operations :=
                  [(o1, [Ref 0 (VariableToken a); Ref 2 (VariableToken b)]);
                   (o2, [Calc 0; Ref 4 (VariableToken c)])];
                precalculated := [] |}).
Proof.
  intros H1 H2.
  unfold parse_tokens.
  change (scan_tokens _)
    with (Ok (A:=scan V)
            {| open_braces := 0; close_braces := 0;
               operators_data := [(0, 1); (0, 3)];
               variables := [VariableToken a; VariableToken b; VariableToken c];
               scan_precalculated := [];
               tokens_without_braces :=
                 [Ref 0 (VariableToken a); Ref 1 (OperatorToken o1);
                  Ref 2 (VariableToken b); Ref 3 (OperatorToken o2);
                  Ref 4 (VariableToken c)] |}).
  cbn [bind]. unfold calculation_order, sorted_reverse.
  cbn [tokens_without_braces operators_data keyed scan_precalculated length].
  change (sort_key _ (0, 1)) with (Ok (0, number_neg (priority o1), -1)).
  change (sort_key _ (0, 3)) with (Ok (0, number_neg (priority o2), -3)).
  cbn [bind fold_right insert_reverse fst snd].
  change (-1) with (- 1). change (-3) with (- 3).
  rewrite (key_ltb_priority _ _ 1 3) by lia.
  destruct o1 as [f1 ty1 n1 s1 p1], o2 as [f2 ty2 n2 s2 p2].
  cbn [type priority] in *. subst ty1 ty2.
  destruct (number_ltb p2 p1); reflexivity.
Qed.

(** X13: A unary operator right after a binary operator: when the unary operator
    has the strictly lower priority number it is resolved first and its
    result is the right operand of the binary operator; otherwise the binary
    operator is resolved first, the place of the unary operator then holds
    an integer, and [parse] raises [AttributeError] at the
    [.operator] of that place. *)
Theorem unary_after_binary (o u : Operator V) (a b : str) :
  type o = Binary -> type u = Unary ->
  parse_tokens
    [VariableToken a; OperatorToken o; OperatorToken u; VariableToken b]
  = if number_ltb (priority u) (priority o)
    then Ok {| operations :=
                 [(u, [Ref 3 (VariableToken b)]);
                  (o, [Ref 0 (VariableToken a); Calc 0])];
               precalculated := [] |}
    else Raise AttributeError.
Proof.
  intros H1 H2.
  unfold parse_tokens.
  change (scan_tokens _)
    with (Ok (A:=scan V)
            {| open_braces := 0; close_braces := 0;
               operators_data := [(0, 1); (0, 2)];
               variables := [VariableToken a; VariableToken b];
               scan_precalculated := [];
               tokens_without_braces :=
                 [Ref 0 (VariableToken a); Ref 1 (OperatorToken o);
                  Ref 2 (OperatorToken u); Ref 3 (VariableToken b)] |}).
  cbn [bind]. unfold calculation_order, sorted_reverse.
  cbn [tokens_without_braces operators_data keyed scan_precalculated length].
  change (sort_key _ (0, 1)) with (Ok (0, number_neg (priority o), -1)).
  change (sort_key _ (0, 2)) with (Ok (0, number_neg (priority u), -2)).
  cbn [bind fold_right insert_reverse fst snd].
  change (-1) with (- 1). change (-2) with (- 2).
  rewrite (key_ltb_priority _ _ 1 2) by lia.
  destruct o as [f1 ty1 n1 s1 p1], u as [f2 ty2 n2 s2 p2].
  cbn [type priority] in *. subst ty1 ty2.
  destruct (number_ltb p2 p1); reflexivity.
Qed.

End Precedence.

(** A witness of [two_binary_operators]: the chain [a -> b -> c]. *)
Lemma two_binary_operators_witness :
  parse_tokens Examples.chain = Ok Examples.chain_parsed.
Proof.
  apply (two_binary_operators Examples.impl Examples.impl
           (lit "a") (lit "b") (lit "c"));
    reflexivity.
Defined.

(** A witness of [unary_after_binary]: [a == ! b] with the default
    operators. *)
Lemma unary_after_binary_witness :
  parse_tokens
    [VariableToken (lit "a");
     OperatorToken (Defaults.eq (obj:=unit) (fun _ _ _ => Raise TypeError));
     OperatorToken (Defaults.not_op (fun _ => Raise TypeError));
     VariableToken (lit "b")]
  = Raise AttributeError.
Proof.
  apply (unary_after_binary
           (Defaults.eq (obj:=unit) (fun _ _ _ => Raise TypeError))
           (Defaults.not_op (fun _ => Raise TypeError))
           (lit "a") (lit "b"));
    reflexivity.
Defined.


(** ** Words *)

Section Words.
Context {V : Type}.
Implicit Types (p : Parser V) (w : str).

Lemma split_plain_word p w :
  well_signed p = true -> plain p w = true ->
  split p w
  = (tok <- to_token p w ;;
     Ok (match tok with Some t => [t] | None => [] end)).
Proof.
  intros Hw Hp. pose proof Hp as Hp'. unfold plain in Hp'.
  apply andb_true_iff in Hp' as [Hne Hall].
  unfold split. rewrite split_loop_app.
  rewrite (split_loop_plain p [] [] w Hw eq_refl Hall). cbn [bind app].
  change (lit " ") with [32%N]. cbn [split_loop].
  rewrite (split_step_separator p [] w 32%N eq_refl).
  unfold append_token.
  rewrite (forallb_plain_not_space p w Hne Hall), Hne. cbn [negb andb].
  destruct (to_token p w) as [[t|]|err]; reflexivity.
Qed.

(** X15: A text of characters that are not white space, not braces and in no
    sign goes to [to_token] as a whole: it is one token. *)
Theorem split_word p w :
  well_signed p = true -> plain p w = true ->
  split p w
  = (tok <- to_token p w ;;
     Ok (match tok with Some t => [t] | None => [] end)).
Proof. apply split_plain_word. Qed.
End Words.

(** A witness of [split_word]: the word [abc] with the default tables. *)
Lemma split_word_witness :
  split Examples.integral (lit "abc")
  = (tok <- to_token Examples.integral (lit "abc") ;;
     Ok (match tok with Some t => [t] | None => [] end)).
Proof.
  apply (split_word Examples.integral (lit "abc")); vm_compute; reflexivity.
Defined.

(** ** The integer constants of the defaults *)

Section Default_constants.
Context {obj : Type}.
Context (obj_binop : Defaults.binop -> Defaults.pyval obj -> Defaults.pyval obj
                     -> result (Defaults.pyval obj))
        (obj_truth : obj -> result bool)
        (py_float : str -> result obj).

Lemma in_hex_class_cases (c : char) :
  in_hex_class c = true ->
  exists k : nat, (k <= 22)%nat /\ c = N.of_nat (48 + k).
Proof.
  unfold in_hex_class. intros H. apply andb_true_iff in H as [H1 H2].
  apply N.leb_le in H1, H2. exists (N.to_nat c - 48)%nat. lia.
Qed.

Lemma is_decimal_hex_class (c : char) :
  is_decimal c = true -> in_hex_class c = true /\ is_hexadecimal c = true
                         /\ hexadecimal_value c = Z.of_N c - 48.
Proof.
  unfold is_decimal, in_hex_class, is_hexadecimal, hexadecimal_value.
  intros H. rewrite H. apply andb_true_iff in H as [H1 H2]. rewrite H1, H2.
  apply N.leb_le in H2.
  rewrite (proj2 (N.leb_le c 70)) by lia. auto.
Qed.

(** What the conversions and the tokenizer see of a character of the
    class. *)
Lemma hex_class_char (c : char) :
  in_hex_class c = true ->
  N.eqb c 95 = false
  /\ char_isspace c = false
  /\ Defaults.digit_value c
     = (if is_hexadecimal c then Some (hexadecimal_value c) else None)
  /\ (is_hexadecimal c = true -> (hexadecimal_value c <? 16) = true)
  /\ (is_decimal c = true -> (hexadecimal_value c <? 10) = true)
  /\ (is_decimal c = true ->
      plain_char (Defaults.parser obj_binop obj_truth py_float) c = true).
Proof.
  intros H. destruct (in_hex_class_cases c H) as (k & Hk & ->).
  do 23 (destruct k as [|k];
         [repeat split; try reflexivity; intros E; vm_compute in E |- *;
          solve [reflexivity | discriminate]|]).
  lia.
Qed.

Lemma forallb_class_not_space (t : str) :
  forallb in_hex_class t = true ->
  forallb (fun c => negb (char_isspace c)) t = true.
Proof.
  intros H. apply forallb_forall. intros c Hc.
  rewrite forallb_forall in H.
  destruct (hex_class_char c (H c Hc)) as (_ & -> & _). reflexivity.
Qed.

Lemma lstrip_id (t : str) :
  forallb (fun c => negb (char_isspace c)) t = true -> Defaults.lstrip t = t.
Proof.
  destruct t as [|c t]; [reflexivity|]. cbn [forallb Defaults.lstrip].
  intros H. apply andb_true_iff in H as [H _].
  destruct (char_isspace c); [discriminate | reflexivity].
Qed.

Lemma strip_id (t : str) :
  forallb (fun c => negb (char_isspace c)) t = true -> Defaults.strip t = t.
Proof.
  intros H. unfold Defaults.strip. rewrite (lstrip_id t H).
  rewrite lstrip_id; [apply rev_involutive|].
  apply forallb_forall. intros c Hc. apply in_rev in Hc.
  rewrite forallb_forall in H. auto.
Qed.

(** A repetition of a range matches a text of characters of the range to
    its end. *)
Lemma rep_iter_range (lo hi : char) (k : str -> bool) (fuel : nat) (t : str) :
  forallb (fun c => ((lo <=? c) && (c <=? hi))%N) t = true ->
  k [] = true -> (length t < fuel)%nat ->
  rep_iter (rmatch (Rng lo hi)) k fuel 0 t = true.
Proof.
  intros Ht Hk. revert fuel; induction t as [|c t IH]; intros fuel Hf;
    (destruct fuel as [|fuel]; [simpl in Hf; lia|]); cbn [rep_iter rmatch].
  - exact Hk.
  - cbn [forallb] in Ht. apply andb_true_iff in Ht as [Hc Ht]. rewrite Hc.
    rewrite (proj2 (Nat.ltb_lt _ _)) by (simpl; lia).
    rewrite IH by (try assumption; simpl in Hf; lia). reflexivity.
Qed.

Lemma rep_range_eol (lo hi : char) (c : char) (t : str) :
  forallb (fun c => ((lo <=? c) && (c <=? hi))%N) (c :: t) = true ->
  rmatch (Cat (Rep (Rng lo hi) 1) Eol) (c :: t) (fun _ => true) = true.
Proof.
  intros H. cbn [rmatch]. cbn [rep_iter rmatch].
  pose proof H as H'. cbn [forallb] in H'.
  apply andb_true_iff in H' as [Hc Ht]. rewrite Hc.
  apply rep_iter_range; [exact Ht | reflexivity | simpl; lia].
Qed.


Lemma py_int_unsigned (base : Z) (c : char) (t : str) :
  c <> 45%N -> c <> 43%N ->
  forallb (fun c => negb (char_isspace c)) (c :: t) = true ->
  Defaults.py_int (obj:=obj) base (c :: t)
  = match Defaults.int_unsigned base (c :: t) with
    | Some z => Ok (Defaults.PInt z)
    | None => Raise ValueError
    end.
Proof.
  intros H45 H43 Hs. unfold Defaults.py_int. rewrite (strip_id _ Hs).
  destruct c as [|q]; [reflexivity|].
  do 6 (try (destruct q as [q|q|]; try reflexivity));
    exfalso; congruence.
Qed.


Lemma int_digits_hexadecimal (acc : Z) (t : str) :
  forallb in_hex_class t = true ->
  Defaults.int_digits 16 acc t
  = if forallb is_hexadecimal t then Some (hexadecimal_from acc t) else None.
Proof.
  revert acc; induction t as [|c t IH]; intros acc H; [reflexivity|].
  cbn [forallb] in H. apply andb_true_iff in H as [Hc H].
  destruct (hex_class_char c Hc) as (H95 & _ & Hdv & H16 & _).
  cbn [Defaults.int_digits forallb]. rewrite H95, Hdv.
  destruct (is_hexadecimal c); [|reflexivity].
  rewrite (H16 eq_refl). cbn [andb]. unfold hexadecimal_from.
  cbn [fold_left]. apply IH, H.
Qed.

(** A text that starts with a decimal digit is no brace and no operator of
    the defaults. *)
Lemma to_token_digit_first (c : char) (t : str) :
  is_decimal c = true ->
  to_token (Defaults.parser obj_binop obj_truth py_float) (c :: t)
  = (tok <- classify
              (constants (Defaults.parser obj_binop obj_truth py_float))
              (c :: t) ;;
     Ok (Some tok)).
Proof.
  intros Hc.
  destruct (is_decimal_hex_class c Hc) as (Hclass & _).
  destruct (in_hex_class_cases c Hclass) as (k & Hk & ->).
  do 10 (destruct k as [|k];
         [apply to_token_classify;
          [intros E; inversion E | intros E; inversion E
          | intros E; inversion E | reflexivity | reflexivity]|]).
  exfalso. clear - Hc. unfold is_decimal in Hc.
  apply andb_true_iff in Hc as [_ Hc]. apply N.leb_le in Hc. lia.
Qed.




(** X17: The hexadecimal constants of the defaults: after [0x], a text of the
    characters that the class [[0-F]] of the pattern admits is a constant,
    the value of its digits in base sixteen, when all of them are digits
    or capital letters from [A] to [F]; the class also has the seven
    characters between [9] and [A], and with one of them [to_token] raises
    the [ValueError] of [int]. *)
Theorem default_hexadecimal (t : str) :
  nonempty t = true -> forallb in_hex_class t = true ->
  to_token (Defaults.parser obj_binop obj_truth py_float) (lit "0x" ++ t)
  = if forallb is_hexadecimal t
    then Ok (Some (ConstantToken (Defaults.PInt (hexadecimal_from 0 t))))
    else Raise ValueError.
Proof.
  destruct t as [|c t]; [discriminate|]. intros _ H.
  change (lit "0x" ++ c :: t) with (48%N :: 120%N :: c :: t).
  rewrite (to_token_digit_first 48 (120%N :: c :: t) eq_refl).
  change (constants (Defaults.parser obj_binop obj_truth py_float))
    with [Defaults.integers_decimal (obj:=obj);
          Defaults.integers_binary; Defaults.integers_hex;
          Defaults.float_point py_float; Defaults.boolean].
  cbn [classify].
  assert (Hdec : regex_match (regexp (Defaults.integers_decimal (obj:=obj)))
                   (48%N :: 120%N :: c :: t) = false) by reflexivity.
  assert (Hbin : regex_match (regexp (Defaults.integers_binary (obj:=obj)))
                   (48%N :: 120%N :: c :: t) = false) by reflexivity.
  assert (Hhex : regex_match (regexp (Defaults.integers_hex (obj:=obj)))
                   (48%N :: 120%N :: c :: t) = true).
  { unfold regex_match. cbn [Defaults.integers_hex regexp].
    cbn [rmatch]. change (strip_prefix (lit "0x") (48%N :: 120%N :: c :: t))
      with (Some (c :: t)).
    apply (rep_range_eol 48 70 c t H). }
  rewrite Hdec, Hbin, Hhex. cbn [Defaults.integers_hex to_value].
  rewrite py_int_unsigned; try discriminate.
  - unfold Defaults.int_unsigned.
    change (Defaults.int_prefix 16 (48%N :: 120%N :: c :: t))
      with (Some (c :: t)).
    pose proof H as H'. cbn [forallb] in H'.
    apply andb_true_iff in H' as [Hc Ht].
    destruct (hex_class_char c Hc) as (H95 & _ & Hdv & H16 & _).
    unfold Defaults.is_digit. rewrite H95, Hdv. cbn [orb].
    rewrite (int_digits_hexadecimal 0 (c :: t) H). cbn [forallb].
    destruct (is_hexadecimal c) eqn:Ec.
    + rewrite (H16 eq_refl). cbn [andb].
      destruct (forallb is_hexadecimal t); reflexivity.
    + reflexivity.
  - change (forallb (fun c0 => negb (char_isspace c0)) (48%N :: 120%N :: c :: t))
      with (forallb (fun c0 => negb (char_isspace c0)) (c :: t)).
    apply forallb_class_not_space, H.
Qed.
End Default_constants.


(** A witness of [default_hexadecimal]: the text [0x1:]. *)
Lemma default_hexadecimal_witness :
  to_token Examples.integral (lit "0x" ++ lit "1:") = Raise ValueError.
Proof.
  apply (default_hexadecimal (obj:=unit) (fun _ _ _ => Raise TypeError)
           (fun _ => Raise TypeError) (fun _ => Raise ValueError) (lit "1:"));
    reflexivity.
Defined.

(** ** Expressions that always parse *)

Section Placement.
Context {V : Type}.
Implicit Types (twb : list (slot V)) (tokens : list (Token V))
  (ops : list (Operator V * list (slot V))).

Lemma getitem_nth {A : Type} (l : list A) (j : Z) (x : A) :
  0 <= j -> getitem l j = Ok x -> nth_error l (Z.to_nat j) = Some x.
Proof.
  intros Hj H. apply getitem_Ok in H as (m & Hm & Hx).
  unfold norm_index in Hm.
  rewrite (proj2 (Z.leb_le 0 j) Hj) in Hm. cbn [andb] in Hm.
  destruct (j <? Z.of_nat (length l)) eqn:E.
  - inversion Hm; subst m. exact Hx.
  - replace (j <? 0) with false in Hm by (symmetry; apply Z.ltb_ge; lia).
    rewrite andb_false_r in Hm. discriminate.
Qed.

Lemma nth_getitem {A : Type} (l : list A) (m : nat) (x : A) :
  nth_error l m = Some x -> getitem l (Z.of_nat m) = Ok x.
Proof.
  intros H. assert (m < length l)%nat by (apply nth_error_Some; congruence).
  unfold getitem, norm_index.
  rewrite (proj2 (Z.leb_le 0 _)), (proj2 (Z.ltb_lt _ _)) by lia.
  cbn [andb]. rewrite Nat2Z.id, H. reflexivity.
Qed.

(** The subscript [j - len(l)] names the place [j]. *)
Lemma getitem_alias {A : Type} (l : list A) (j : Z) :
  0 <= j < Z.of_nat (length l) ->
  getitem l (j - Z.of_nat (length l)) = getitem l j.
Proof.
  intros Hj. unfold getitem, norm_index.
  replace (0 <=? j - Z.of_nat (length l)) with false
    by (symmetry; apply Z.leb_gt; lia).
  rewrite (proj2 (Z.leb_le (- Z.of_nat (length l)) _)) by lia.
  rewrite (proj2 (Z.ltb_lt (j - Z.of_nat (length l)) 0)) by lia.
  rewrite (proj2 (Z.leb_le 0 j)), (proj2 (Z.ltb_lt j _)) by lia.
  cbn [andb].
  replace (Z.of_nat (length l) + (j - Z.of_nat (length l))) with j by lia.
  reflexivity.
Qed.

Lemma getitem_Forall2 {A : Type} (R : A -> A -> Prop) (l l' : list A)
    (j : Z) (x : A) :
  Forall2 R l l' -> getitem l j = Ok x ->
  exists x', getitem l' j = Ok x' /\ R x x'.
Proof.
  intros H Hx. apply getitem_Ok in Hx as (m & Hm & Hx).
  unfold getitem. rewrite <- (Forall2_length H), Hm.
  destruct (nth_error l' m) as [x'|] eqn:E.
  - exists x'. split; [reflexivity|].
    destruct (Forall2_nth_error_r _ _ _ _ _ H E) as (x0 & Hx0 & Hr).
    congruence.
  - apply nth_error_None in E.
    assert (m < length l)%nat by (apply nth_error_Some; congruence).
    rewrite <- (Forall2_length H) in E. lia.
Qed.

Lemma setitem_in_range {A : Type} (l : list A) (j : Z) (x : A) :
  - Z.of_nat (length l) <= j < Z.of_nat (length l) ->
  exists l', setitem l j x = Ok l'.
Proof.
  intros Hj. unfold setitem, norm_index.
  destruct (0 <=? j) eqn:E0.
  - rewrite (proj2 (Z.ltb_lt j _)) by lia. cbn [andb]. eauto.
  - cbn [andb]. apply Z.leb_gt in E0.
    rewrite (proj2 (Z.leb_le _ _)), (proj2 (Z.ltb_lt j 0)) by lia.
    cbn [andb]. eauto.
Qed.

(** An assignment to one place leaves the place of another subscript
    alone, when the two subscripts are less than the length apart. *)
Lemma getitem_setitem_other {A : Type} (l l' : list A) (i j : Z) (x : A) :
  setitem l i x = Ok l' -> i <> j ->
  - Z.of_nat (length l) < i - j < Z.of_nat (length l) ->
  getitem l' j = getitem l j.
Proof.
  intros H Hij Hd. apply setitem_Ok in H as (m & Hm & ->).
  unfold getitem. rewrite length_list_set.
  destruct (norm_index (length l) j) as [m'|] eqn:Hm'; [|reflexivity].
  assert (Hne : m <> m').
  { unfold norm_index in Hm, Hm'.
    destruct ((0 <=? i) && (i <? Z.of_nat (length l))) eqn:E1;
      destruct ((0 <=? j) && (j <? Z.of_nat (length l))) eqn:E2;
      try destruct ((- Z.of_nat (length l) <=? i) && (i <? 0)) eqn:E3;
      try destruct ((- Z.of_nat (length l) <=? j) && (j <? 0)) eqn:E4;
      try discriminate;
      inversion Hm; inversion Hm'; subst m m';
      repeat match goal with
             | E : _ && _ = true |- _ => apply andb_true_iff in E as [? ?]
             end;
      repeat match goal with
             | E : (_ <=? _) = true |- _ => apply Z.leb_le in E
             | E : (_ <? _) = true |- _ => apply Z.ltb_lt in E
             end;
      lia. }
  clear - Hne. revert m m' Hne.
  induction l as [|y l IH]; intros [|m] [|m'] Hne; simpl; try reflexivity;
    try congruence.
  assert (m <> m') by congruence.
  specialize (IH m m' H). destruct (nth_error (list_set l m x) m');
    destruct (nth_error l m'); congruence.
Qed.

Lemma overwritten_refl (old_value : slot V) (index : Z) twb :
  Forall2 (overwritten old_value index) twb twb.
Proof. induction twb; constructor; [left; reflexivity | assumption]. Qed.

Lemma overwritten_trans (old_value : slot V) (index : Z) twb1 twb2 twb3 :
  Forall2 (overwritten old_value index) twb1 twb2 ->
  Forall2 (overwritten old_value index) twb2 twb3 ->
  Forall2 (overwritten old_value index) twb1 twb3.
Proof.
  intros H. revert twb3; induction H as [|x y l1 l2 Hxy H12 IH]; intros twb3 H;
    inversion H; subst; constructor; [|apply IH; assumption].
  unfold overwritten in *.
  destruct Hxy as [->|[Hx ->]]; [assumption|].
  match goal with W : _ \/ _ |- _ => destruct W as [->|[_ ->]]; auto end.
Qed.

Lemma setitem_overwritten (old_value : slot V) (index : Z) twb (i : Z)
    (x : slot V) twb' :
  getitem twb i = Ok x -> slot_eqb x old_value = true ->
  setitem twb i (Calc index) = Ok twb' ->
  Forall2 (overwritten old_value index) twb twb'.
Proof.
  intros Hx Heq H. apply getitem_Ok in Hx as (m & Hm & Hx).
  apply setitem_Ok in H as (m' & Hm' & ->).
  rewrite Hm in Hm'. inversion Hm'; subst m'. clear Hm Hm'.
  revert m Hx. induction twb as [|y twb IH]; intros [|m] Hx; simpl in *;
    try discriminate.
  - inversion Hx; subst y. constructor; [right; auto | apply overwritten_refl].
  - constructor; [left; reflexivity | apply IH, Hx].
Qed.

(** [update_last_calc] writes where it finds [old_value] only. *)
Lemma update_loop_overwritten (rounds : nat) twb (old_value : slot V)
    (side index i : Z) twb' :
  update_loop rounds twb old_value side index i = Ok twb' ->
  Forall2 (overwritten old_value index) twb twb'.
Proof.
  revert twb i; induction rounds as [|rounds IH]; intros twb i; simpl;
    [discriminate|].
  destruct (i <? Z.of_nat (length twb));
    [|intros H; inversion H; apply overwritten_refl].
  intros H. bind_ok H.
  destruct (slot_eqb a old_value) eqn:Heq;
    [|inversion H; apply overwritten_refl].
  bind_ok H. eapply overwritten_trans;
    [eapply setitem_overwritten; eassumption|].
  eapply IH, H.
Qed.

(** To the right the loop ends at the end of the list. *)
Lemma update_loop_right (rounds : nat) twb (old_value : slot V)
    (index i : Z) :
  0 <= i <= Z.of_nat (length twb) ->
  Z.of_nat (length twb) - i + 1 <= Z.of_nat rounds ->
  exists twb', update_loop rounds twb old_value 1 index i = Ok twb'.
Proof.
  revert twb i; induction rounds as [|rounds IH]; intros twb i Hi Hr; [lia|].
  cbn [update_loop].
  destruct (i <? Z.of_nat (length twb)) eqn:Hlt; [|eauto].
  apply Z.ltb_lt in Hlt.
  destruct (getitem_in_range twb i ltac:(lia)) as [x ->]. cbn [bind].
  destruct (slot_eqb x old_value); [|eauto].
  destruct (setitem_in_range twb i (Calc index) ltac:(lia)) as [twb1 E].
  rewrite E. cbn [bind]. pose proof (setitem_length _ _ _ _ E) as Hlen.
  apply IH; rewrite Hlen; lia.
Qed.

(** To the left the loop ends at the latest where it meets an element
    that is not [old_value]. *)
Lemma update_loop_left (rounds : nat) twb (old_value : slot V)
    (index i s : Z) (x : slot V) :
  - Z.of_nat (length twb) <= s <= i -> i < Z.of_nat (length twb) ->
  i - s < Z.of_nat (length twb) ->
  getitem twb s = Ok x -> slot_eqb x old_value = false ->
  i - s + 1 <= Z.of_nat rounds ->
  exists twb', update_loop rounds twb old_value (-1) index i = Ok twb'.
Proof.
  revert twb i; induction rounds as [|rounds IH]; intros twb i Hs Hi Hd Hx Hne Hr;
    [lia|].
  cbn [update_loop]. rewrite (proj2 (Z.ltb_lt _ _) Hi).
  destruct (Z.eq_dec i s) as [->|Hneq].
  - rewrite Hx. cbn [bind]. rewrite Hne. eauto.
  - assert (Hget : exists a, getitem twb i = Ok a).
    { destruct (setitem_in_range twb i (Calc index) ltac:(lia)) as [l' E].
      apply setitem_Ok in E as (m & Hm & _). unfold getitem. rewrite Hm.
      apply norm_index_Some in Hm as [_ Hm].
      destruct (nth_error twb m) eqn:E; [eauto|].
      apply nth_error_None in E. lia. }
    destruct Hget as [a ->]. cbn [bind].
    destruct (slot_eqb a old_value); [|eauto].
    destruct (setitem_in_range twb i (Calc index) ltac:(lia)) as [twb1 E].
    rewrite E. cbn [bind]. pose proof (setitem_length _ _ _ _ E) as Hlen.
    replace (i + -1) with (i - 1) by lia.
    apply IH; rewrite ?Hlen; try lia.
    + rewrite (getitem_setitem_other _ _ _ _ _ E) by lia. exact Hx.
    + exact Hne.
Qed.

(** The elements of [tokens_without_braces] differ from each other before
    the last loop of [parse]: the tokens are different objects, and each
    constant has a subscript of its own. *)
Lemma stripped_from_bounds (i : nat) (n : Z) tokens :
  Forall (fun x => match x with
                   | Ref id _ => (i <= id)%nat
                   | Calc m => n <= m
                   end)
    (stripped_from i n tokens).
Proof.
  revert i n; induction tokens as [|t tokens IH]; intros i n; [constructor|].
  assert (Hrest : forall n', n <= n' ->
            Forall (fun x => match x with
                             | Ref id _ => (i <= id)%nat
                             | Calc m => n <= m
                             end)
              (stripped_from (S i) n' tokens)).
  { intros n' Hn. eapply Forall_impl; [|apply IH].
    intros [m|id t']; simpl; lia. }
  destruct t as [name|which|operator|value]; cbn [stripped_from];
    try (constructor; [simpl; lia | apply Hrest; lia]).
  apply Hrest; lia.
Qed.

Lemma stripped_from_distinct (i : nat) (n : Z) tokens (j j' : nat)
    (x x' : slot V) :
  j <> j' ->
  nth_error (stripped_from i n tokens) j = Some x ->
  nth_error (stripped_from i n tokens) j' = Some x' ->
  slot_eqb x x' = false.
Proof.
  revert i n j j'; induction tokens as [|t tokens IH]; intros i n j j' Hne;
    [destruct j; discriminate|].
  assert (Hhead : forall (y : slot V) n' (m : nat) (z : slot V),
            match y with
            | Ref id _ => id = i
            | Calc c => c = n /\ n < n'
            end ->
            nth_error (stripped_from (S i) n' tokens) m = Some z ->
            slot_eqb y z = false /\ slot_eqb z y = false).
  { intros y n' m z Hy Hz.
    pose proof (stripped_from_bounds (S i) n' tokens) as Hb.
    rewrite Forall_forall in Hb. specialize (Hb z (nth_error_In _ _ Hz)).
    destruct y as [c|id ty], z as [c'|id' tz]; simpl; auto.
    - destruct Hy as [-> Hy]. split; apply Z.eqb_neq; lia.
    - subst id. split; apply Nat.eqb_neq; lia. }
  assert (Hy : forall (y : slot V) n',
            match y with
            | Ref id _ => id = i
            | Calc c => c = n /\ n < n'
            end ->
            nth_error (y :: stripped_from (S i) n' tokens) j = Some x ->
            nth_error (y :: stripped_from (S i) n' tokens) j' = Some x' ->
            slot_eqb x x' = false).
  { intros y n' Hy. destruct j as [|j], j' as [|j']; cbn [nth_error];
      intros Hx Hx'.
    - congruence.
    - inversion Hx; subst x. apply (Hhead y n' j' x' Hy Hx').
    - inversion Hx'; subst x'. apply (Hhead y n' j x Hy Hx).
    - apply (IH (S i) n' j j'); [congruence | exact Hx | exact Hx']. }
  destruct t as [name|which|operator|value]; cbn [stripped_from].
  - apply Hy. reflexivity.
  - apply IH, Hne.
  - apply Hy. reflexivity.
  - apply Hy. split; [reflexivity | lia].
Qed.

Lemma next_is_operand_head (i : nat) (n : Z) tokens :
  next_is_operand tokens = true ->
  exists x, nth_error (stripped_from i n tokens) 0 = Some x
            /\ operand_slot x = true.
Proof.
  revert i; induction tokens as [|t tokens IH]; intros i H; [discriminate|].
  destruct t as [name|which|operator|value]; cbn [stripped_from];
    cbn [next_is_operand is_operand] in H; try discriminate.
  - eexists. split; reflexivity.
  - apply IH, H.
  - eexists. split; reflexivity.
Qed.

(** The placement of the operators, on the tokens without braces. *)
Lemma well_placed_slots (previous : bool) (i : nat) (n : Z) tokens (j : nat)
    (id : nat) (operator : Operator V) :
  well_placed previous tokens = true ->
  nth_error (stripped_from i n tokens) j
  = Some (Ref id (OperatorToken operator)) ->
  (exists x, nth_error (stripped_from i n tokens) (S j) = Some x
             /\ operand_slot x = true)
  /\ (type operator = Binary ->
      match j with
      | O => previous = true
      | S j' => exists x, nth_error (stripped_from i n tokens) j' = Some x
                          /\ operand_slot x = true
      end).
Proof.
  revert previous i n j; induction tokens as [|t tokens IH];
    intros previous i n j Hw Hj; [destruct j; discriminate|].
  assert (Hoperand : forall (y : slot V) n',
            operand_slot y = true ->
            well_placed true tokens = true ->
            nth_error (y :: stripped_from (S i) n' tokens) j
            = Some (Ref id (OperatorToken operator)) ->
            (exists x, nth_error (y :: stripped_from (S i) n' tokens) (S j)
                       = Some x /\ operand_slot x = true)
            /\ (type operator = Binary ->
                match j with
                | O => previous = true
                | S j' => exists x,
                    nth_error (y :: stripped_from (S i) n' tokens) j' = Some x
                    /\ operand_slot x = true
                end)).
  { intros y n' Hy Hw' Hj'. destruct j as [|j]; cbn [nth_error] in Hj'.
    - inversion Hj'; subst y. discriminate.
    - destruct (IH true (S i) n' j Hw' Hj') as [Hnext Hprev].
      split; [exact Hnext|]. intros Hb. specialize (Hprev Hb).
      destruct j as [|j]; [exists y; split; [reflexivity | exact Hy]|].
      exact Hprev. }
  destruct t as [name|which|op|value]; cbn [stripped_from] in *;
    cbn [well_placed] in Hw.
  - apply Hoperand; [reflexivity | exact Hw | exact Hj].
  - apply (IH previous (S i) n j Hw Hj).
  - apply andb_true_iff in Hw as [Hw Hrest].
    apply andb_true_iff in Hw as [Hprev Hnext].
    destruct j as [|j]; cbn [nth_error] in Hj.
    + inversion Hj; subst id op. split.
      * apply (next_is_operand_head (S i) n tokens Hnext).
      * intros Hb. rewrite Hb in Hprev. exact Hprev.
    + destruct (IH false (S i) n j Hrest Hj) as [Hn Hp].
      split; [exact Hn|]. intros Hb. specialize (Hp Hb).
      destruct j as [|j]; [discriminate | exact Hp].
  - apply Hoperand; [reflexivity | exact Hw | exact Hj].
Qed.

Lemma nth_error_list_set_other {A : Type} (l : list A) (m j : nat) (x : A) :
  m <> j -> nth_error (list_set l m x) j = nth_error l j.
Proof.
  revert m j; induction l as [|y l IH]; intros [|m] [|j] H; simpl;
    try reflexivity; try congruence.
  apply IH. congruence.
Qed.

Section Rounds.
Variable twb0 : list (slot V).
Hypothesis distinct :
  forall (j j' : nat) (x x' : slot V),
    j <> j' -> nth_error twb0 j = Some x -> nth_error twb0 j' = Some x' ->
    slot_eqb x x' = false.
Hypothesis placed :
  forall (j id : nat) (operator : Operator V),
    nth_error twb0 j = Some (Ref id (OperatorToken operator)) ->
    (exists x, nth_error twb0 (S j) = Some x /\ operand_slot x = true)
    /\ (type operator = Binary ->
        exists j' x, j = S j' /\ nth_error twb0 j' = Some x
                     /\ operand_slot x = true).

(** An operator token that is pending differs from what stands at the
    place of an operand. *)
Lemma pending_differs twb (j q : nat) (old_value x0 : slot V) (id : nat)
    (operator : Operator V) :
  Forall2 original_or_index twb0 twb ->
  nth_error twb0 j = Some (Ref id (OperatorToken operator)) ->
  nth_error twb0 q = Some x0 -> operand_slot x0 = true ->
  nth_error twb q = Some old_value ->
  slot_eqb (Ref id (OperatorToken operator)) old_value = false.
Proof.
  intros Hk Hj Hq Hop Hold.
  destruct (Forall2_nth_error_r _ _ _ _ _ Hk Hold) as (x0' & Hx0' & Hor).
  rewrite Hq in Hx0'. inversion Hx0'; subst x0'.
  destruct Hor as [->|[index ->]]; [|reflexivity].
  apply (distinct j q); [|exact Hj | exact Hq].
  intros ->. rewrite Hj in Hq. inversion Hq; subst x0. discriminate.
Qed.

(** A pass of [update_last_calc] from the place of an operand leaves the
    pending operators alone. *)
Lemma pass_keeps twb twb1 (q : nat) (old_value x0 : slot V) (index : Z) :
  Forall2 original_or_index twb0 twb ->
  nth_error twb0 q = Some x0 -> operand_slot x0 = true ->
  nth_error twb q = Some old_value ->
  Forall2 (overwritten old_value index) twb twb1 ->
  Forall2 original_or_index twb0 twb1
  /\ forall j, pending twb0 twb j -> pending twb0 twb1 j.
Proof.
  intros Hk Hq Hop Hold Hw. split.
  - clear - Hk Hw. revert twb1 Hw.
    induction Hk as [|x0' x l0 l Hx Hl IH]; intros twb1 Hw;
      inversion Hw; subst; constructor; [|apply IH; assumption].
    match goal with W : overwritten _ _ _ _ |- _ =>
      destruct W as [->|[_ ->]] end;
      [exact Hx | right; eauto].
  - intros j (id & operator & Hj0 & Hj). exists id, operator.
    split; [exact Hj0|].
    assert (Hlen : (j < length twb1)%nat).
    { rewrite <- (Forall2_length Hw). apply nth_error_Some. congruence. }
    destruct (nth_error twb1 j) as [x'|] eqn:E;
      [|apply nth_error_None in E; lia].
    destruct (Forall2_nth_error_r _ _ _ _ _ Hw E) as (x & Hx & Hor).
    rewrite Hj in Hx. inversion Hx; subst x.
    destruct Hor as [->|[Heq _]]; [reflexivity|].
    rewrite (pending_differs twb j q old_value x0 id operator Hk Hj0 Hq Hop Hold)
      in Heq.
    discriminate.
Qed.

Lemma update_last_calc_right twb (m : nat) (index : Z) (old_value : slot V) :
  nth_error twb (S m) = Some old_value ->
  exists twb1,
    update_last_calc twb (Z.of_nat m) 1 index = Ok twb1
    /\ Forall2 (overwritten old_value index) twb twb1.
Proof.
  intros Hold. unfold update_last_calc.
  assert (S m < length twb)%nat by (apply nth_error_Some; congruence).
  replace (Z.of_nat m + 1) with (Z.of_nat (S m)) by lia.
  rewrite (nth_getitem _ _ _ Hold). cbn [bind].
  destruct (update_loop_right (2 * length twb + 1) twb old_value index
              (Z.of_nat (S m)) ltac:(lia) ltac:(lia)) as [twb1 E].
  exists twb1. split; [exact E|]. eapply update_loop_overwritten, E.
Qed.

Lemma update_last_calc_left twb (m : nat) (index : Z) (old_value x : slot V) :
  nth_error twb m = Some old_value ->
  nth_error twb (S m) = Some x -> slot_eqb x old_value = false ->
  exists twb1,
    update_last_calc twb (Z.of_nat (S m)) (-1) index = Ok twb1
    /\ Forall2 (overwritten old_value index) twb twb1.
Proof.
  intros Hold Hx Hne. unfold update_last_calc.
  assert (S m < length twb)%nat by (apply nth_error_Some; congruence).
  replace (Z.of_nat (S m) + -1) with (Z.of_nat m) by lia.
  rewrite (nth_getitem _ _ _ Hold). cbn [bind].
  destruct (update_loop_left (2 * length twb + 1) twb old_value index
              (Z.of_nat m) (Z.of_nat (S m) - Z.of_nat (length twb)) x)
    as [twb1 E]; try lia.
  - rewrite getitem_alias by lia. apply nth_getitem, Hx.
  - exact Hne.
  - exists twb1. split; [exact E|]. eapply update_loop_overwritten, E.
Qed.

(** A round of the last loop of [parse] on a pending operator returns, and
    leaves the other pending operators pending. *)
Lemma resolve_step_placed (n k : Z) twb ops (m : nat) :
  Forall2 original_or_index twb0 twb -> pending twb0 twb m ->
  exists twb' ops',
    resolve_step n (twb, ops) k (Z.of_nat m) = Ok (twb', ops')
    /\ Forall2 original_or_index twb0 twb'
    /\ forall j, j <> m -> pending twb0 twb j -> pending twb0 twb' j.
Proof.
  intros Hk (id & operator & Hm0 & Hm).
  destruct (placed m id operator Hm0) as [(x1 & Hx1 & Hop1) Hleft].
  assert (Hlen : length twb = length twb0)
    by (symmetry; apply (Forall2_length Hk)).
  assert (Hb : exists b, nth_error twb (S m) = Some b).
  { destruct (nth_error twb (S m)) eqn:E; [eauto|].
    apply nth_error_None in E.
    assert (S m < length twb0)%nat by (apply nth_error_Some; congruence).
    lia. }
  destruct Hb as [b Hb].
  assert (Hfinish : forall twb2,
            Forall2 original_or_index twb0 twb2 ->
            (forall j, pending twb0 twb j -> pending twb0 twb2 j) ->
            exists twb',
              setitem twb2 (Z.of_nat m) (Calc (k + n)) = Ok twb'
              /\ Forall2 original_or_index twb0 twb'
              /\ forall j, j <> m -> pending twb0 twb j -> pending twb0 twb' j).
  { intros twb2 Hk2 Hp2.
    assert (Hl2 : length twb2 = length twb0)
      by (symmetry; apply (Forall2_length Hk2)).
    assert (m < length twb0)%nat by (apply nth_error_Some; congruence).
    exists (list_set twb2 m (Calc (k + n))). split; [|split].
    - unfold setitem, norm_index.
      rewrite (proj2 (Z.leb_le 0 _)), (proj2 (Z.ltb_lt _ _)) by lia.
      cbn [andb]. rewrite Nat2Z.id. reflexivity.
    - apply Forall2_list_set; [intros; right; eauto | exact Hk2].
    - intros j Hj Hp. destruct (Hp2 j Hp) as (idj & opj & Hj0 & Hj2).
      exists idj, opj. split; [exact Hj0|].
      rewrite nth_error_list_set_other by congruence. exact Hj2. }
  unfold resolve_step. unfold operator_at.
  rewrite (nth_getitem _ _ _ Hm). cbn [bind].
  destruct (type operator) eqn:Hty.
  - replace (Z.of_nat m + 1) with (Z.of_nat (S m)) by lia.
    rewrite (nth_getitem _ _ _ Hb). cbn [bind].
    destruct (update_last_calc_right twb m (k + n) b Hb) as (twb1 & -> & Hw).
    cbn [bind fst snd].
    destruct (pass_keeps twb twb1 (S m) b x1 (k + n) Hk Hx1 Hop1 Hb Hw)
      as [Hk1 Hp1].
    destruct (Hfinish twb1 Hk1 Hp1) as (twb' & -> & Hk' & Hp').
    cbn [bind]. eauto.
  - destruct (Hleft eq_refl) as (m' & x0 & -> & Hx0 & Hop0).
    assert (Ha : exists a, nth_error twb m' = Some a).
    { destruct (nth_error twb m') eqn:E; [eauto|].
      apply nth_error_None in E.
      assert (m' < length twb0)%nat by (apply nth_error_Some; congruence).
      lia. }
    destruct Ha as [a Ha].
    replace (Z.of_nat (S m') - 1) with (Z.of_nat m') by lia.
    rewrite (nth_getitem _ _ _ Ha). cbn [bind].
    replace (Z.of_nat (S m') + 1) with (Z.of_nat (S (S m'))) by lia.
    rewrite (nth_getitem _ _ _ Hb). cbn [bind].
    destruct (update_last_calc_right twb (S m') (k + n) b Hb)
      as (twb1 & -> & Hw).
    cbn [bind].
    destruct (pass_keeps twb twb1 (S (S m')) b x1 (k + n) Hk Hx1 Hop1 Hb Hw)
      as [Hk1 Hp1].
    destruct (Hp1 (S m') (ex_intro _ id (ex_intro _ operator (conj Hm0 Hm))))
      as (id' & operator' & Hm0' & Hm1).
    rewrite Hm0 in Hm0'. inversion Hm0'; subst id' operator'.
    assert (Ha1 : exists a1, nth_error twb1 m' = Some a1).
    { destruct (nth_error twb1 m') eqn:E; [eauto|].
      apply nth_error_None in E. rewrite <- (Forall2_length Hw) in E.
      assert (m' < length twb)%nat by (apply nth_error_Some; congruence).
      lia. }
    destruct Ha1 as [a1 Ha1].
    destruct (update_last_calc_left twb1 m' (k + n) a1
                (Ref id (OperatorToken operator)) Ha1 Hm1)
      as (twb2 & -> & Hw2).
    { apply (pending_differs twb1 (S m') m' a1 x0 id operator Hk1 Hm0 Hx0
               Hop0 Ha1). }
    cbn [bind fst snd].
    destruct (pass_keeps twb1 twb2 m' a1 x0 (k + n) Hk1 Hx0 Hop0 Ha1 Hw2)
      as [Hk2 Hp2].
    destruct (Hfinish twb2 Hk2 (fun j Hj => Hp2 j (Hp1 j Hj)))
      as (twb' & -> & Hk' & Hp').
    cbn [bind]. eauto.
Qed.

Lemma resolve_loop_placed (n k : Z) twb ops (order : list nat) :
  Forall2 original_or_index twb0 twb -> NoDup order ->
  Forall (pending twb0 twb) order ->
  exists res, resolve_loop n (twb, ops) k (map Z.of_nat order) = Ok res.
Proof.
  revert k twb ops; induction order as [|m order IH];
    intros k twb ops Hk Hnd Hp; cbn [map resolve_loop]; [eauto|].
  inversion Hnd; subst. inversion Hp; subst.
  destruct (resolve_step_placed n k twb ops m Hk ltac:(assumption))
    as (twb' & ops' & -> & Hk' & Hp').
  cbn [bind]. apply IH; [exact Hk' | assumption|].
  apply Forall_forall. intros j Hj.
  apply Hp'; [intros ->; contradiction|].
  match goal with F : Forall _ order |- _ =>
    rewrite Forall_forall in F; apply F, Hj end.
Qed.
End Rounds.

(** X18: An expression parses when its braces are in pairs and, the braces
    apart, each of its operators has an operand right after it and each
    of its binary operators has one right before it. *)
Theorem parse_tokens_placed tokens :
  never_exceeds tokens -> count_open tokens = count_close tokens ->
  well_placed false tokens = true ->
  exists e, parse_tokens tokens = Ok e.
Proof.
  intros Hnever Hcount Hw.
  destruct (scan_tokens_balanced tokens Hnever Hcount) as [st Hst].
  destruct (scan_tokens_lists tokens st Hst) as (Htwb & _ & _).
  destruct (calculation_order_occurrences tokens st Hst)
    as (occs & Hperm & _ & Horder).
  unfold parse_tokens. rewrite Hst. cbn [bind]. rewrite Horder. cbn [bind].
  rewrite Htwb.
  assert (Hpos : forall o, In o occs -> 0 <= occ_position o).
  { intros o Ho. apply (Permutation_in _ (Permutation_sym Hperm)) in Ho.
    apply occurrences_from_position in Ho. exact Ho. }
  assert (Hmap : map occ_position occs
                 = map Z.of_nat (map (fun o => Z.to_nat (occ_position o)) occs)).
  { rewrite map_map. apply map_ext_in. intros o Ho.
    rewrite Z2Nat.id; [reflexivity | apply Hpos, Ho]. }
  rewrite Hmap.
  destruct (resolve_loop_placed (stripped_from 0 0 tokens)) with
    (n := Z.of_nat (length (scan_precalculated st))) (k := 0)
    (twb := stripped_from 0 0 tokens)
    (ops := @nil (Operator V * list (slot V)))
    (order := map (fun o => Z.to_nat (occ_position o)) occs) as [res Hres].
  - intros j j' x x'. apply stripped_from_distinct.
  - intros j id operator Hj.
    destruct (well_placed_slots false 0 0 tokens j id operator Hw Hj)
      as [Hnext Hprev].
    split; [exact Hnext|]. intros Hb. specialize (Hprev Hb).
    destruct j as [|j]; [discriminate|].
    destruct Hprev as (x & Hx & Hop). eauto.
  - clear. induction (stripped_from 0 0 tokens); constructor;
      [left; reflexivity | assumption].
  - assert (Hnd : NoDup (map occ_position occs)).
    { eapply Permutation_NoDup; [apply Permutation_map, Hperm|].
      apply occurrences_from_NoDup. }
    rewrite Hmap in Hnd. eapply NoDup_map_inv, Hnd.
  - apply Forall_forall. intros m Hm.
    apply in_map_iff in Hm as (o & <- & Ho).
    pose proof (Hpos o Ho) as Hge.
    apply (Permutation_in _ (Permutation_sym Hperm)) in Ho.
    pose proof (operator_at_occurrence [] 0 0 0 tokens o Ho) as Hat.
    cbn [app] in Hat. unfold operator_at in Hat. bind_ok Hat.
    destruct a as [c|id [name|which|operator|value]]; try discriminate.
    inversion Hat; subst operator.
    apply getitem_nth in Ha; [|exact Hge].
    exists id, (occ_operator o). split; exact Ha.
  - rewrite Hres. cbn [bind]. eauto.
Qed.
End Placement.

(** A witness of [parse_tokens_placed]: the tokens of [a -> b -> c]. *)
Lemma parse_tokens_placed_witness :
  exists e, parse_tokens Examples.chain = Ok e.
Proof.
  apply (parse_tokens_placed Examples.chain).
  - intros [|[|[|[|[|[|n]]]]]]; discriminate.
  - reflexivity.
  - reflexivity.
Defined.

(** ** The expressions of [test_boolean] *)

Section Test_boolean.
Context {obj : Type}.
Context (obj_binop : Defaults.binop -> Defaults.pyval obj -> Defaults.pyval obj
                     -> result (Defaults.pyval obj))
        (obj_truth : obj -> result bool)
        (py_float : str -> result obj).

(** X19: The two expressions of [test_boolean] with the default parser, for all
    values of their variables and not only for those of the test: the first
    is [((a -> b) -> c) and d] on truth values, the second is
    [a != 1 and a * 1 != 2 and not a ** 2 == 9] on integers. *)
Theorem test_boolean_values :
  parse (Defaults.parser obj_binop obj_truth py_float) test_boolean_1
  = Ok (test_boolean_1_parsed obj_truth)
  /\ (forall kwargs (a b c d : bool),
        dict_get kwargs (lit "a") = Some (Defaults.PBool a) ->
        dict_get kwargs (lit "b") = Some (Defaults.PBool b) ->
        dict_get kwargs (lit "c") = Some (Defaults.PBool c) ->
        dict_get kwargs (lit "d") = Some (Defaults.PBool d) ->
        call (test_boolean_1_parsed obj_truth) kwargs
        = Ok (Defaults.PBool (implb (implb a b) c && d)))
  /\ parse (Defaults.parser obj_binop obj_truth py_float) test_boolean_2
     = Ok (test_boolean_2_parsed obj_binop obj_truth)
  /\ (forall kwargs (a : Z),
        dict_get kwargs (lit "a") = Some (Defaults.PInt a) ->
        call (test_boolean_2_parsed obj_binop obj_truth) kwargs
        = Ok (Defaults.PBool
                (negb (a =? 1) && negb (a * 1 =? 2) && negb (a ^ 2 =? 9)))).
Proof.
  split; [vm_compute; reflexivity|].
  split; [|split; [vm_compute; reflexivity|]].
  - intros kwargs a b c d Ha Hb Hc Hd. unfold call, test_boolean_1_parsed.
    cbn [operations precalculated deepcopy call_loop arguments argument
         fst snd bind].
    rewrite Ha, Hb, Hc, Hd.
    destruct a, b, c, d; reflexivity.
  - intros kwargs a Ha. unfold call, test_boolean_2_parsed.
    cbn [operations precalculated deepcopy call_loop arguments argument
         fst snd bind].
    rewrite Ha. cbv -[Z.pow Z.mul Z.eqb].
    destruct (a =? 1), (a * 1 =? 2), (a ^ 2 =? 9); reflexivity.
Qed.
End Test_boolean.

(** A witness of [test_boolean_values]: the second expression at
    [a = 3]. *)
Lemma test_boolean_values_witness :
  call (test_boolean_2_parsed (obj:=unit) (fun _ _ _ => Raise TypeError)
          (fun _ => Raise TypeError))
    [(lit "a", Defaults.PInt 3)]
  = Ok (Defaults.PBool
          (negb (3 =? 1) && negb (3 * 1 =? 2) && negb (3 ^ 2 =? 9))).
Proof.
  apply (proj2 (proj2 (proj2
           (test_boolean_values (obj:=unit) (fun _ _ _ => Raise TypeError)
              (fun _ => Raise TypeError) (fun _ => Raise ValueError))))).
  reflexivity.
Defined.

(** ** The value of a call *)

Section Last_operation.
Context {V : Type}.

Lemma last_value_snoc (l : list V) (v : V) : last_value (l ++ [v]) = Ok v.
Proof. unfold last_value. rewrite rev_app_distr. reflexivity. Qed.

(** X20: A call returns what the function of the last operation returns: the
    values of the operations before it are on the stack for it to read, and
    an exception of any of them, or of the reading of its operands, is the
    outcome of the call. *)
Theorem call_last_operation (e : ParsedExpression V) (kwargs : dict V)
    (before : list (Operator V * list (slot V)))
    (operation : Operator V * list (slot V)) :
  operations e = before ++ [operation] ->
  call e kwargs
  = (stack <- call_loop before kwargs (deepcopy (precalculated e)) ;;
     args <- arguments stack kwargs (snd operation) ;;
     func (fst operation) args).
Proof.
  intros H. unfold call. rewrite H, call_loop_app.
  destruct (call_loop before kwargs (deepcopy (precalculated e)))
    as [stack|err]; [|reflexivity].
  cbn [bind call_loop].
  destruct (arguments stack kwargs (snd operation)) as [args|err];
    [|reflexivity].
  cbn [bind]. destruct (func (fst operation) args) as [v|err]; [|reflexivity].
  cbn [bind]. rewrite getitem_last. apply last_value_snoc.
Qed.
End Last_operation.

(** A witness of [call_last_operation]: [a -> b -> c]. *)
Lemma call_last_operation_witness :
  call Examples.chain_parsed [(lit "a", 1); (lit "b", 0); (lit "c", 1)]
  = (stack <- call_loop
                [(Examples.impl,
                  [Ref 0 (VariableToken (lit "a"));
                   Ref 2 (VariableToken (lit "b"))])]
                [(lit "a", 1); (lit "b", 0); (lit "c", 1)]
                (deepcopy (precalculated Examples.chain_parsed)) ;;
     args <- arguments stack [(lit "a", 1); (lit "b", 0); (lit "c", 1)]
               [Calc 0; Ref 4 (VariableToken (lit "c"))] ;;
     func Examples.impl args).
Proof.
  apply (call_last_operation Examples.chain_parsed
           [(lit "a", 1); (lit "b", 0); (lit "c", 1)]
           [(Examples.impl,
             [Ref 0 (VariableToken (lit "a"));
              Ref 2 (VariableToken (lit "b"))])]
           (Examples.impl, [Calc 0; Ref 4 (VariableToken (lit "c"))])).
  reflexivity.
Defined.
